(** * caio: a shallow embedding of the coroutine runtime and its task pool

    The development follows the C sources:
    - [src/caio/caio.h]       the status flags and the control-flow macros;
    - [src/taskpool.c]        the fixed-capacity task pool (module [TaskPool]);
    - [src/caio.c]            tasks, call stacks and the scheduler loop
                              (module [Runtime]);
    - [src/caio/io_uring.c]   the ring set-up (module [IoUring]).

    The embedding comes first, the properties after it.  [taskpool.h],
    [generic_stack.c], [generic_array.c] and the declarations of
    [struct caiotask] and [struct caiocall] are not among the sources; what
    the functions need of them is modelled where it is used and marked so.

    Pointers into an array are slot offsets ([nat]); [NULL] is [None].  An
    access the C standard leaves undefined (a slot outside its allocation, a
    freed or null object) is an explicit [Fault] outcome. *)

From Stdlib Require Import ZArith Lia.
From stdpp Require Import base option list gmap.

Local Open Scope Z_scope.

(** ** Outcomes of a C function *)

Inductive fault : Type :=
  | OutOfBounds (i : nat)     (* slot [i] of an array that is shorter *)
  | NullDeref                 (* [p->f] with [p == NULL] *)
  | InvalidAccess (p : nat)   (* object [p] used after [free] *)
  | InvalidFree (p : nat).    (* [free] of an object that is not live *)

Inductive result (A : Type) : Type :=
  | Ok (a : A)
  | Fault (f : fault)
  | Timeout.                  (* a loop of the model ran out of fuel *)

Arguments Ok {A} a.
Arguments Fault {A} f.
Arguments Timeout {A}.

Global Instance result_ret : MRet result := @Ok.
Global Instance result_bind : MBind result := fun A B k m =>
  match m with
  | Ok a => k a
  | Fault f => Fault f
  | Timeout => Timeout
  end.

(** [size_t] on LP64 (the Linux targets of [io_uring.c]): 64 bits, unsigned. *)
Definition SIZE_WIDTH : Z := 64.
Definition size_t_wrap (z : Z) : Z := z mod 2 ^ SIZE_WIDTH.
Definition SIZE_MAX : Z := 2 ^ SIZE_WIDTH - 1.

(** [int]: 32 bits, two's complement. *)
Definition INT_MIN : Z := - 2 ^ 31.
Definition INT_MAX : Z := 2 ^ 31 - 1.
Definition int_wrap (z : Z) : Z := (z + 2 ^ 31) mod 2 ^ 32 - 2 ^ 31.

(** ** [src/caio/caio.h]: status flags, the task record, control-flow macros *)

Definition CAIO_IDLE : Z := 1.
Definition CAIO_RUNNING : Z := 2.
Definition CAIO_WAITING : Z := 4.
Definition CAIO_TERMINATING : Z := 8.
Definition CAIO_TERMINATED : Z := 16.

(** [enum caio_taskstatus] as a type, with the value of each enumerator. *)
Inductive caio_taskstatus : Type :=
  | Idle | Running | Waiting | Terminating | Terminated.

Global Instance caio_taskstatus_eq_dec : EqDecision caio_taskstatus.
Proof. solve_decision. Defined.

Definition flag (s : caio_taskstatus) : Z :=
  match s with
  | Idle => CAIO_IDLE
  | Running => CAIO_RUNNING
  | Waiting => CAIO_WAITING
  | Terminating => CAIO_TERMINATING
  | Terminated => CAIO_TERMINATED
  end.

(** [s1 | s2 | ...], the way a caller builds the [statuses] argument of a
    scan. *)
Definition mask_of (l : list caio_taskstatus) : Z :=
  foldr (λ s m, Z.lor (flag s) m) 0 l.

(** [struct caio_task]; [caio] and [current] are pointers. *)
Record caio_task : Type := mk_caio_task {
  caio : option nat;
  current : option nat;
  status : Z;
  eno : Z
}.

Definition set_status (t : caio_task) (s : Z) : caio_task :=
  {| caio := caio t; current := current t; status := s; eno := eno t |}.
Definition set_eno (t : caio_task) (n : Z) : caio_task :=
  {| caio := caio t; current := current t; status := status t; eno := n |}.
Definition set_current (t : caio_task) (c : option nat) : caio_task :=
  {| caio := caio t; current := c; status := status t; eno := eno t |}.

(** What a macro body does to the control flow of the coroutine it sits in. *)
Inductive flow : Type := Returned | FallsThrough.

(** [CAIO_RETURN(task)]: [eno = 0; status = CAIO_TERMINATING; return]. *)
Definition CAIO_RETURN (task : caio_task) : caio_task * flow :=
  (set_status (set_eno task 0) CAIO_TERMINATING, Returned).

(** [CAIO_THROW(task, n)]: [eno = n; status = CAIO_TERMINATING; return].
    [eno] is an [int]: the assignment converts [n]. *)
Definition CAIO_THROW (task : caio_task) (n : Z) : caio_task * flow :=
  (set_status (set_eno task (int_wrap n)) CAIO_TERMINATING, Returned).

(** [CAIO_RETHROW(task)]: [status = CAIO_TERMINATING; return]. *)
Definition CAIO_RETHROW (task : caio_task) : caio_task * flow :=
  (set_status task CAIO_TERMINATING, Returned).

(** [CAIO_HASERROR(task)]: [task->eno != 0]. *)
Definition CAIO_HASERROR (task : caio_task) : bool :=
  negb (eno task =? 0).

(** The integer types the operand [e] of [task->eno == e] can have after
    promotion, on the LP64 targets of [io_uring]: [int] and [unsigned] of
    32 bits, [long] and [unsigned long] of 64. *)
Inductive c_int_type : Type := c_int | c_unsigned | c_long | c_unsigned_long.

(** The values of each type. *)
Definition c_in_range (ty : c_int_type) (z : Z) : Prop :=
  match ty with
  | c_int => INT_MIN ≤ z ≤ INT_MAX
  | c_unsigned => 0 ≤ z < 2 ^ 32
  | c_long => - 2 ^ 63 ≤ z < 2 ^ 63
  | c_unsigned_long => 0 ≤ z < 2 ^ 64
  end.

(** [x == e] for [x] an [int] and [e] of type [ty].  The usual arithmetic
    conversions bring both operands to one type first: [x] keeps its
    value against an [int] or a [long], and is reduced modulo [2 ^ 32] or
    [2 ^ 64] against an operand of an unsigned type. *)
Definition int_eq (x : Z) (ty : c_int_type) (e : Z) : bool :=
  match ty with
  | c_int | c_long => x =? e
  | c_unsigned => x mod 2 ^ 32 =? e
  | c_unsigned_long => x mod 2 ^ 64 =? e
  end.

(** [CAIO_ISERROR(task, e)]: [CAIO_HASERROR(task) && (task->eno == e)],
    for an operand [e] of type [ty]. *)
Definition CAIO_ISERROR_as (ty : c_int_type) (task : caio_task) (e : Z)
  : bool :=
  CAIO_HASERROR task && int_eq (eno task) ty e.

(** [CAIO_ISERROR(task, e)] for an error code [e] of type [int], as
    [eno] is and as the argument of [CAIO_THROW] is taken. *)
Definition CAIO_ISERROR (task : caio_task) (e : Z) : bool :=
  CAIO_ISERROR_as c_int task e.

(** [CAIO_CLEARERROR(task)]: [task->eno = 0]. *)
Definition CAIO_CLEARERROR (task : caio_task) : caio_task * flow :=
  (set_eno task 0, FallsThrough).

(** ** [src/taskpool.c] *)

Module TaskPool.

(** [struct caio_taskpool] as [taskpool.c] uses it: [tasks] is the slot
    array, [last] a pointer into it (kept as its offset from [tasks]),
    [count] and [size] are [size_t]. *)
Record caio_taskpool : Type := mk_pool {
  tasks : list caio_task;
  last : nat;
  count : Z;
  size : nat
}.

Definition set_tasks (pool : caio_taskpool) (ts : list caio_task) :=
  {| tasks := ts; last := last pool; count := count pool;
     size := size pool |}.
Definition set_count (pool : caio_taskpool) (c : Z) :=
  {| tasks := tasks pool; last := last pool; count := c;
     size := size pool |}.

(** [TASK_RESET(t, s)]: [status = s; eno = 0; current = NULL]. *)
Definition TASK_RESET (t : caio_task) (s : Z) : caio_task :=
  set_current (set_eno (set_status t s) 0) None.

(** [TASK_RESET] through a slot pointer: the slot has to exist. *)
Definition reset_slot (pool : caio_taskpool) (i : nat) (s : Z)
  : result caio_taskpool :=
  match tasks pool !! i with
  | Some t => Ok (set_tasks pool (<[i := TASK_RESET t s]> (tasks pool)))
  | None => Fault (OutOfBounds i)
  end.

(** The [while (task <= pool->last)] loop of [caio_taskpool_next], with
    [task] at slot [i] and [n] iterations left before [task] passes
    [last].  Each iteration reads [task->status]. *)
Fixpoint scan (ts : list caio_task) (statuses : Z) (i n : nat)
  : result (option nat) :=
  match n with
  | O => Ok None
  | S n' =>
      match ts !! i with
      | None => Fault (OutOfBounds i)
      | Some t =>
          if Z.land (status t) statuses =? 0
          then scan ts statuses (S i) n'
          else Ok (Some i)
      end
  end.

(** [caio_taskpool_next(pool, task, statuses)]. *)
Definition caio_taskpool_next (pool : caio_taskpool) (task : option nat)
    (statuses : Z) : result (option nat) :=
  let start := match task with None => O | Some i => i end in
  scan (tasks pool) statuses start (S (last pool) - start).

(** [caio_taskpool_lease(pool)]. *)
Definition caio_taskpool_lease (pool : caio_taskpool)
  : result (caio_taskpool * option nat) :=
  task ← caio_taskpool_next pool None CAIO_IDLE;
  match task with
  | None => Ok (pool, None)
  | Some i =>
      pool' ← reset_slot pool i CAIO_RUNNING;
      Ok (set_count pool' (size_t_wrap (count pool' + 1)), Some i)
  end.

(** [caio_taskpool_release(pool, task)]; both pointers are checked. *)
Definition caio_taskpool_release (pool : option caio_taskpool)
    (task : option nat) : result (option caio_taskpool * Z) :=
  match pool with
  | None => Ok (None, -1)
  | Some p =>
      match task with
      | None => Ok (Some p, -1)
      | Some i =>
          p' ← reset_slot p i CAIO_IDLE;
          Ok (Some (set_count p' (size_t_wrap (count p' - 1))), 0)
      end
  end.

(** The all-zero slot [memset] leaves. *)
Definition zero_task : caio_task :=
  {| caio := None; current := None; status := 0; eno := 0 |}.

(** The pool as [caio_taskpool_init] has it when it enters its loop:
    [calloc]ed and zeroed slots, [last = tasks + size], [count = 0]. *)
Definition zeroed_pool (sz : nat) : caio_taskpool :=
  {| tasks := replicate sz zero_task; last := sz; count := 0; size := sz |}.

Section Init.
(** [taskpool.h] is not among the sources and [caio/caio.h] has no
    [CAIO_WAITINGIO]; its value is left open. *)
Variable CAIO_WAITINGIO : Z.

Definition init_mask : Z :=
  Z.lor (Z.lor (Z.lor CAIO_RUNNING CAIO_WAITINGIO) CAIO_TERMINATING)
        CAIO_TERMINATED.

(** The [while ((task = caio_taskpool_next(...)))] loop of
    [caio_taskpool_init]; every iteration moves [task] forward, so
    [fuel] bounds the iterations. *)
Fixpoint init_loop (fuel : nat) (pool : caio_taskpool)
    (task : option nat) : result caio_taskpool :=
  match fuel with
  | O => Timeout
  | S fuel' =>
      found ← caio_taskpool_next pool task init_mask;
      match found with
      | None => Ok pool
      | Some i =>
          pool' ← reset_slot pool i CAIO_IDLE;
          init_loop fuel' pool' (Some (S i))
      end
  end.

(** [caio_taskpool_init(pool, size)]; [calloc_ok] says whether
    [calloc] returned a block.  On failure [pool->tasks] is [NULL],
    here the empty array. *)
Definition caio_taskpool_init (calloc_ok : bool)
    (pool : option caio_taskpool) (sz : nat)
  : result (option caio_taskpool * Z) :=
  match pool with
  | None => Ok (None, -1)
  | Some p =>
      if calloc_ok
      then
        p' ← init_loop (S (S sz)) (zeroed_pool sz) None;
        Ok (Some p', 0)
      else Ok (Some (set_tasks p []), -1)
  end.
End Init.

(** [matches m t]: the test [task->status & statuses] of the scan. *)
Definition matches (statuses : Z) (t : caio_task) : Prop :=
  Z.land (status t) statuses ≠ 0.

(** No slot from [i] up to the end of the array passes the test. *)
Definition none_from (ts : list caio_task) (statuses : Z) (i : nat) : Prop :=
  ∀ j t, (i ≤ j)%nat → ts !! j = Some t → ¬ matches statuses t.

(** A pool of capacity [c] laid out as [caio_taskpool_init] does, whose
    first [k] slots are leased and whose other slots are idle. *)
Definition idle_task : caio_task :=
  {| caio := None; current := None; status := CAIO_IDLE; eno := 0 |}.
Definition running_task : caio_task :=
  {| caio := None; current := None; status := CAIO_RUNNING; eno := 0 |}.
Definition leased_pool (k c : nat) : caio_taskpool :=
  {| tasks := replicate k running_task ++ replicate (c - k) idle_task;
     last := c; count := Z.of_nat k; size := c |}.

(** Slots an [IDLE] scan accepts. *)
Definition idle_slots (pool : caio_taskpool) : nat :=
  length (filter (fun t => Z.land (status t) CAIO_IDLE ≠ 0) (tasks pool)).

(** The books of the pool are in order: [count] is the number of slots
    that are not idle, and the capacity fits a [size_t]. *)
Definition count_inv (pool : caio_taskpool) : Prop :=
  count pool = Z.of_nat (length (tasks pool) - idle_slots pool)
  ∧ Z.of_nat (length (tasks pool)) ≤ SIZE_MAX.

End TaskPool.

(** ** [src/caio.c] *)

Module Runtime.

Definition ptr : Type := nat.

(** Modelled from the spec: [enum caiocoro_status] is not declared in the
    sources.  A coroutine body returns "done" ([ccs_done], the one value
    [caio.c] names) or "not done". *)
Inductive caiocoro_status : Type := ccs_done | ccs_again.

Definition is_done (s : caiocoro_status) : bool :=
  match s with ccs_done => true | ccs_again => false end.

(** Modelled from the spec: [struct caiocall] is not declared in the
    sources.  A Frame holds the resume position ([line], as in
    [struct caio_call] of [caio.h]), the coroutine and the caller-owned
    state; [coro] is a function pointer and [state] a [void *]. *)
Record caiocall : Type := mk_call {
  line : Z;
  coro : nat;
  state : nat
}.

(** Modelled from the spec: [generic_stack.c] is not among the sources.
    A stack made by [caiocall_stack_init(&s, size)] holds at most [size]
    frame pointers, innermost last. *)
Record caiocall_stack : Type := mk_stack {
  stack_items : list ptr;
  stack_size : nat
}.

(** Modelled from the spec: [caiocall_stack_push] appends the frame, or
    answers [-1] ([None]) when the stack is full. *)
Definition caiocall_stack_push (s : caiocall_stack) (call : ptr)
  : option caiocall_stack :=
  if decide (length (stack_items s) < stack_size s)%nat
  then Some {| stack_items := stack_items s ++ [call];
               stack_size := stack_size s |}
  else None.

(** Modelled from the spec: [caiocall_stack_last] is the innermost frame,
    [NULL] for an empty stack. *)
Definition caiocall_stack_last (s : caiocall_stack) : option ptr :=
  last (stack_items s).

(** Modelled from the spec: [caiocall_stack_pop] removes the innermost
    frame and returns it. *)
Definition caiocall_stack_pop (s : caiocall_stack)
  : caiocall_stack * option ptr :=
  ({| stack_items := removelast (stack_items s);
      stack_size := stack_size s |},
   caiocall_stack_last s).

(** Modelled from the spec: [struct caiotask] is not declared in the
    sources; these are the fields [caio.c] uses.  [index] and
    [running_coros] are [int]. *)
Record caiotask : Type := mk_task {
  index : Z;
  running_coros : Z;
  callstack : caiocall_stack
}.

(** Modelled from the spec: [generic_array.c] is not among the sources.
    The task table is a fixed array of task pointers, [NULL] for a free
    slot, with the number of occupied slots in [arr_count]. *)
Record caiotask_array : Type := mk_array {
  array : list (option ptr);
  arr_count : Z
}.

Definition arr_size (a : caiotask_array) : nat := length (array a).

(** Modelled from the spec: [caiotask_array_append] stores the task in
    the first free slot and returns its index, [-1] when there is none. *)
Definition caiotask_array_append (a : caiotask_array) (task : ptr)
  : caiotask_array * Z :=
  match list_find (fun s => s = None) (array a) with
  | Some (i, _) =>
      ({| array := <[i := Some task]> (array a);
          arr_count := size_t_wrap (arr_count a + 1) |}, Z.of_nat i)
  | None => (a, -1)
  end.

(** Modelled from the spec: [caiotask_array_get] is the slot's content,
    [NULL] outside the table. *)
Definition caiotask_array_get (a : caiotask_array) (i : nat) : option ptr :=
  mjoin (array a !! i).

(** Modelled from the spec: [caiotask_array_del] clears a slot of the
    table and lowers the count; an index outside the table is refused. *)
Definition caiotask_array_del (a : caiotask_array) (i : Z)
  : caiotask_array :=
  if decide (0 <= i < Z.of_nat (arr_size a))
  then {| array := <[Z.to_nat i := None]> (array a);
          arr_count := size_t_wrap (arr_count a - 1) |}
  else a.

(** The state [caio.c] works on: the objects it [malloc]ed and has not
    freed, and its two [static] variables. *)
Record runtime : Type := mk_runtime {
  task_heap : gmap ptr caiotask;
  call_heap : gmap ptr caiocall;
  _tasks : caiotask_array;
  _callstack_size : nat
}.

Definition set_task_heap (rt : runtime) (h : gmap ptr caiotask) :=
  {| task_heap := h; call_heap := call_heap rt; _tasks := _tasks rt;
     _callstack_size := _callstack_size rt |}.
Definition set_call_heap (rt : runtime) (h : gmap ptr caiocall) :=
  {| task_heap := task_heap rt; call_heap := h; _tasks := _tasks rt;
     _callstack_size := _callstack_size rt |}.
Definition set_tasks (rt : runtime) (a : caiotask_array) :=
  {| task_heap := task_heap rt; call_heap := call_heap rt; _tasks := a;
     _callstack_size := _callstack_size rt |}.

(** [task->f] for a task pointer. *)
Definition load_task (rt : runtime) (task : ptr) : result caiotask :=
  match task_heap rt !! task with
  | Some t => Ok t
  | None => Fault (InvalidAccess task)
  end.

Definition store_task (rt : runtime) (task : ptr) (t : caiotask)
  : runtime :=
  set_task_heap rt (<[task := t]> (task_heap rt)).

Definition load_call (rt : runtime) (call : ptr) : result caiocall :=
  match call_heap rt !! call with
  | Some c => Ok c
  | None => Fault (InvalidAccess call)
  end.

(** [free(task)] and [free(call)]. *)
Definition free_task (rt : runtime) (task : ptr) : result runtime :=
  match task_heap rt !! task with
  | Some _ => Ok (set_task_heap rt (delete task (task_heap rt)))
  | None => Fault (InvalidFree task)
  end.

Definition free_call (rt : runtime) (call : ptr) : result runtime :=
  match call_heap rt !! call with
  | Some _ => Ok (set_call_heap rt (delete call (call_heap rt)))
  | None => Fault (InvalidFree call)
  end.

(** [caio_init(maxtasks, callstack_size)]; [array_ok] says whether
    [caiotask_array_init] got its memory. *)
Definition caio_init (array_ok : bool) (maxtasks callstack_size : nat)
    (rt : runtime) : runtime * Z :=
  if array_ok
  then ({| task_heap := task_heap rt; call_heap := call_heap rt;
           _tasks := {| array := replicate maxtasks None; arr_count := 0 |};
           _callstack_size := callstack_size |}, 0)
  else (rt, -1).

(** The [while (task->callstack.count)] loop of [_caio_task_dispose]:
    pop a frame, free it; [frames] is what the stack still holds. *)
Fixpoint free_frames (frames : list ptr) (rt : runtime) : result runtime :=
  match frames with
  | [] => Ok rt
  | call :: below => rt' ← free_call rt call; free_frames below rt'
  end.

(** [_caio_task_dispose(task)]. *)
Definition _caio_task_dispose (task : ptr) (rt : runtime)
  : result runtime :=
  t ← load_task rt task;
  rt1 ← free_frames (reverse (stack_items (callstack t))) rt;
  let rt2 := set_tasks rt1 (caiotask_array_del (_tasks rt1) (index t)) in
  free_task rt2 task.

(** [caio_call_new(task, coro, state)].  [m] is what [malloc] answers:
    [None] for [NULL], otherwise the bytes the fresh block happens to
    hold. *)
Definition caio_call_new (m : option caiocall) (task : ptr) (c s : nat)
    (rt : runtime) : result (runtime * Z) :=
  match m with
  | None => rt' ← _caio_task_dispose task rt; Ok (rt', -1)
  | Some block =>
      let call : ptr := fresh (dom (call_heap rt)) in
      let frame := {| line := line block; coro := c; state := s |} in
      let rt1 := set_call_heap rt (<[call := frame]> (call_heap rt)) in
      t ← load_task rt1 task;
      match caiocall_stack_push (callstack t) call with
      | None => rt' ← _caio_task_dispose task rt1; Ok (rt', -1)
      | Some stack' =>
          Ok (store_task rt1 task
                {| index := index t;
                   running_coros := int_wrap (running_coros t + 1);
                   callstack := stack' |}, 0)
      end
  end.

(** [caio_task_new(coro, state)].  [mt] and [mc] are the answers of the
    two [malloc]s, [stack_ok] says whether [caiocall_stack_init] got its
    memory. *)
Definition caio_task_new (mt : option caiotask) (stack_ok : bool)
    (mc : option caiocall) (c s : nat) (rt : runtime)
  : result (runtime * Z) :=
  match mt with
  | None => Ok (rt, -1)
  | Some block =>
      let task : ptr := fresh (dom (task_heap rt)) in
      let rt0 := store_task rt task
                   {| index := index block; running_coros := 0;
                      callstack := callstack block |} in
      if negb stack_ok
      then rt' ← free_task rt0 task; Ok (rt', -1)
      else
        let t0 := {| index := index block; running_coros := 0;
                     callstack := {| stack_items := [];
                                     stack_size := _callstack_size rt0 |} |} in
        let rt1 := store_task rt0 task t0 in
        let '(table, idx) := caiotask_array_append (_tasks rt1) task in
        let rt2 := set_tasks rt1 table in
        if idx =? -1
        then rt' ← _caio_task_dispose task rt2; Ok (rt', -1)
        else
          let rt3 := store_task rt2 task
                       {| index := idx; running_coros := 0;
                          callstack := callstack t0 |} in
          '(rt4, failed) ← caio_call_new mc task c s rt3;
          if failed =? 0
          then Ok (rt4, 0)
          else rt' ← _caio_task_dispose task rt4; Ok (rt', -1)
  end.

(** The body of [if (status == ccs_done)] in [caio_task_step]:
    [caiocall_stack_pop(&task->callstack); free(call);
    task->running_coros--]. *)
Definition pop_and_free (task call : ptr) (rt : runtime) : result runtime :=
  t ← load_task rt task;
  let rt1 := store_task rt task
               {| index := index t; running_coros := running_coros t;
                  callstack := (caiocall_stack_pop (callstack t)).1 |} in
  rt2 ← free_call rt1 call;
  t' ← load_task rt2 task;
  Ok (store_task rt2 task
        {| index := index t';
           running_coros := int_wrap (running_coros t' - 1);
           callstack := callstack t' |}).

Definition EXIT_SUCCESS : Z := 0.

(** The number of occupied slots of the table. *)
Definition occupied (a : caiotask_array) : nat :=
  length (filter (λ slot : option ptr, slot ≠ None) (array a)).

(** The table as [caio_task_new] and [_caio_task_dispose] keep it: a
    registered task is live and its [index] is the slot it sits in, and
    [count] is the number of occupied slots. *)
Definition table_inv (rt : runtime) : Prop :=
  (∀ (i : nat) (p : ptr),
      caiotask_array_get (_tasks rt) i = Some p →
      ∃ t, task_heap rt !! p = Some t ∧ index t = Z.of_nat i)
  ∧ arr_count (_tasks rt) = Z.of_nat (occupied (_tasks rt))
  ∧ Z.of_nat (arr_size (_tasks rt)) ≤ SIZE_MAX.

Section Scheduler.
(** One invocation [call->coro(task, call->state)] of a coroutine
    body: application code, which may itself call into the runtime. *)
Variable run_coro :
  nat -> ptr -> nat -> runtime -> result (runtime * caiocoro_status).

(** The contract of application code towards the table, which is
    [static] in [caio.c]: a body reaches it through the runtime's own
    functions only, so it keeps [table_inv] and the size of the table,
    and it unregisters no task. *)
Definition well_behaved : Prop :=
  ∀ (c : nat) (task : ptr) (s : nat) (rt rt' : runtime)
    (st : caiocoro_status),
    run_coro c task s rt = Ok (rt', st) →
    table_inv rt →
    table_inv rt'
    ∧ arr_size (_tasks rt') = arr_size (_tasks rt)
    ∧ (∀ (i : nat) (p : ptr),
          caiotask_array_get (_tasks rt) i = Some p →
          caiotask_array_get (_tasks rt') i = Some p).

(** [caio_task_step(task)]. *)
Definition caio_task_step (task : ptr) (rt : runtime)
  : result (runtime * Z) :=
  t ← load_task rt task;
  match caiocall_stack_last (callstack t) with
  | None => Fault NullDeref
  | Some call =>
      frame ← load_call rt call;
      '(rt1, st) ← run_coro (coro frame) task (state frame) rt;
      rt2 ← (if is_done st then pop_and_free task call rt1 else Ok rt1);
      t2 ← load_task rt2 task;
      if running_coros t2 =? 0
      then rt3 ← _caio_task_dispose task rt2; Ok (rt3, 0)
      else Ok (rt2, 0)
  end.

(** The [for] loop of [caio_forever] from [taskindex] on.  Besides the
    state it answers the log of the sweep: each index it visited with
    what [caiotask_array_get] found there; a task found is stepped. *)
Fixpoint sweep (fuel : nat) (taskindex : nat) (rt : runtime)
  : result (runtime * list (nat * option ptr)) :=
  if decide (taskindex < arr_size (_tasks rt))%nat
  then
    match fuel with
    | O => Timeout
    | S fuel' =>
        let task := caiotask_array_get (_tasks rt) taskindex in
        rt1 ← match task with
              | None => Ok rt
              | Some p => '(rt', _) ← caio_task_step p rt; Ok rt'
              end;
        '(rt2, log) ← sweep fuel' (S taskindex) rt1;
        Ok (rt2, (taskindex, task) :: log)
    end
  else Ok (rt, []).

(** [caio_forever()], with the logs of its sweeps. *)
Fixpoint caio_forever (fuel : nat) (rt : runtime)
  : result (runtime * Z * list (list (nat * option ptr))) :=
  match fuel with
  | O => Timeout
  | S fuel' =>
      if arr_count (_tasks rt) =? 0
      then Ok (rt, EXIT_SUCCESS, [])
      else
        '(rt1, log) ← sweep (arr_size (_tasks rt)) 0 rt;
        '(rt2, r, logs) ← caio_forever fuel' rt1;
        Ok (rt2, r, log :: logs)
  end.

(** The sweep in the words of the spec: the slots are visited in the
    order given; the task found in a slot is stepped, once, and a free
    slot is passed.  The log is that of [sweep]. *)
Definition step_slot (taskindex : nat) (rt : runtime)
  : result (runtime * option ptr) :=
  match caiotask_array_get (_tasks rt) taskindex with
  | None => Ok (rt, None)
  | Some p => '(rt', _) ← caio_task_step p rt; Ok (rt', Some p)
  end.

Fixpoint round_robin_pass (indices : list nat) (rt : runtime)
  : result (runtime * list (nat * option ptr)) :=
  match indices with
  | [] => Ok (rt, [])
  | taskindex :: rest =>
      '(rt1, found) ← step_slot taskindex rt;
      '(rt2, log) ← round_robin_pass rest rt1;
      Ok (rt2, (taskindex, found) :: log)
  end.
End Scheduler.

(** *** The step over any implementation of the stack *)

Section StackFunctions.
(** [caio.c] includes [generic_stack.c], which is not among the sources.
    Here [caiocall_stack_last] and [caiocall_stack_pop] are parameters,
    so that what is shown of the step holds whatever they do, on an
    empty stack in particular. *)
Variable stack_last : caiocall_stack -> option ptr.
Variable stack_pop : caiocall_stack -> caiocall_stack * option ptr.
Variable run_coro :
  nat -> ptr -> nat -> runtime -> result (runtime * caiocoro_status).

(** The body of [if (status == ccs_done)] in [caio_task_step]. *)
Definition pop_and_free_over (task call : ptr) (rt : runtime)
  : result runtime :=
  t ← load_task rt task;
  let rt1 := store_task rt task
               {| index := index t; running_coros := running_coros t;
                  callstack := (stack_pop (callstack t)).1 |} in
  rt2 ← free_call rt1 call;
  t' ← load_task rt2 task;
  Ok (store_task rt2 task
        {| index := index t';
           running_coros := int_wrap (running_coros t' - 1);
           callstack := callstack t' |}).

(** [caio_task_step(task)]. *)
Definition caio_task_step_over (task : ptr) (rt : runtime)
  : result (runtime * Z) :=
  t ← load_task rt task;
  match stack_last (callstack t) with
  | None => Fault NullDeref
  | Some call =>
      frame ← load_call rt call;
      '(rt1, st) ← run_coro (coro frame) task (state frame) rt;
      rt2 ← (if is_done st then pop_and_free_over task call rt1
             else Ok rt1);
      t2 ← load_task rt2 task;
      if running_coros t2 =? 0
      then rt3 ← _caio_task_dispose task rt2; Ok (rt3, 0)
      else Ok (rt2, 0)
  end.
End StackFunctions.

(** *** The state the scheduler relies on *)

(** A task's call stack is in order: its frames are distinct and
    allocated, [running_coros] is its depth, and the depth is within the
    bound of the stack, which an [int] can count. *)
Definition task_ok (rt : runtime) (t : caiotask) : Prop :=
  NoDup (stack_items (callstack t))
  ∧ (∀ c, c ∈ stack_items (callstack t) → is_Some (call_heap rt !! c))
  ∧ running_coros t = Z.of_nat (length (stack_items (callstack t)))
  ∧ (length (stack_items (callstack t)) ≤ stack_size (callstack t))%nat
  ∧ Z.of_nat (stack_size (callstack t)) ≤ INT_MAX.

(** Every allocated task is in order and no frame sits on two stacks. *)
Definition frames_inv (rt : runtime) : Prop :=
  (∀ p t, task_heap rt !! p = Some t → task_ok rt t)
  ∧ (∀ p p' t t' c,
        p ≠ p' →
        task_heap rt !! p = Some t → task_heap rt !! p' = Some t' →
        c ∈ stack_items (callstack t) → c ∉ stack_items (callstack t')).

(** Every registered task has a frame to run. *)
Definition runnable (rt : runtime) : Prop :=
  ∀ (i : nat) p t,
    caiotask_array_get (_tasks rt) i = Some p →
    task_heap rt !! p = Some t →
    stack_items (callstack t) ≠ [].

(** The state between two steps of the scheduler. *)
Definition runtime_inv (rt : runtime) : Prop :=
  table_inv rt ∧ frames_inv rt ∧ runnable rt
  ∧ Z.of_nat (_callstack_size rt) ≤ INT_MAX.

Section Safety.
Variable run_coro :
  nat -> ptr -> nat -> runtime -> result (runtime * caiocoro_status).

(** The contract of application code towards the whole state: invoked on
    a registered task in a state that is in order, a body returns, leaves
    the state in order, unregisters nothing, and when it answers "done"
    it has left its own frame innermost. *)
Definition safe_bodies : Prop :=
  ∀ (c : nat) (p : ptr) (s : nat) (rt : runtime) (i : nat)
    (t : caiotask) (call : ptr),
    runtime_inv rt →
    caiotask_array_get (_tasks rt) i = Some p →
    task_heap rt !! p = Some t →
    caiocall_stack_last (callstack t) = Some call →
    ∃ rt1 st,
      run_coro c p s rt = Ok (rt1, st)
      ∧ runtime_inv rt1
      ∧ arr_size (_tasks rt1) = arr_size (_tasks rt)
      ∧ (∀ (j : nat) (q : ptr),
            caiotask_array_get (_tasks rt) j = Some q →
            caiotask_array_get (_tasks rt1) j = Some q)
      ∧ (st = ccs_done →
         ∃ t1, task_heap rt1 !! p = Some t1
               ∧ caiocall_stack_last (callstack t1) = Some call).
End Safety.

(** No registered task has more than [d] frames on its stack. *)
Definition depth_le (d : nat) (rt : runtime) : Prop :=
  ∀ (i : nat) (p : ptr) (t : caiotask),
    caiotask_array_get (_tasks rt) i = Some p →
    task_heap rt !! p = Some t →
    (length (stack_items (callstack t)) ≤ d)%nat.

(** Bodies that run to their end when first invoked and call nothing. *)
Definition finish_at_once
    (run_coro : nat -> ptr -> nat -> runtime
                -> result (runtime * caiocoro_status)) : Prop :=
  ∀ (c : nat) (p : ptr) (s : nat) (rt : runtime),
    run_coro c p s rt = Ok (rt, ccs_done).

(** *** Sample states *)

(** A body that finishes at once and calls nothing. *)
Definition returns_done (c : nat) (task : ptr) (s : nat) (rt : runtime)
  : result (runtime * caiocoro_status) :=
  Ok (rt, ccs_done).

Definition sample_frame : caiocall :=
  {| line := 0; coro := 0; state := 0 |}.

(** A task registered in slot [i] with the single frame [call]. *)
Definition one_frame_task (i : Z) (call : ptr) : caiotask :=
  {| index := i; running_coros := 1;
     callstack := {| stack_items := [call]; stack_size := 4 |} |}.

(** Nothing allocated, no table yet. *)
Definition no_runtime : runtime :=
  {| task_heap := ∅; call_heap := ∅;
     _tasks := {| array := []; arr_count := 0 |}; _callstack_size := 0 |}.

(** Three slots, two of them taken by single-frame tasks. *)
Definition two_tasks : runtime :=
  {| task_heap := {[ 0%nat := one_frame_task 0 0%nat;
                     1%nat := one_frame_task 2 1%nat ]};
     call_heap := {[ 0%nat := sample_frame; 1%nat := sample_frame ]};
     _tasks := {| array := [Some 0%nat; None; Some 1%nat];
                  arr_count := 2 |};
     _callstack_size := 4 |}.

(** A registered task whose call stack is empty. *)
Definition stackless_task : runtime :=
  {| task_heap := {[ 0%nat := {| index := 0; running_coros := 0;
                                 callstack := {| stack_items := [];
                                                 stack_size := 4 |} |} ]};
     call_heap := ∅;
     _tasks := {| array := [Some 0%nat]; arr_count := 1 |};
     _callstack_size := 4 |}.

(** A registered task whose call stack, of depth 1, is full. *)
Definition full_task : caiotask :=
  {| index := 0; running_coros := 1;
     callstack := {| stack_items := [0%nat]; stack_size := 1 |} |}.
Definition full_stack_task : runtime :=
  {| task_heap := {[ 0%nat := full_task ]};
     call_heap := {[ 0%nat := sample_frame ]};
     _tasks := {| array := [Some 0%nat]; arr_count := 1 |};
     _callstack_size := 1 |}.

(** A body that pushes a call on its task, as [CORO_WAIT] of [caio.h]
    does, but answers "done" instead of returning to be resumed. *)
Definition calls_then_done (c : nat) (task : ptr) (s : nat) (rt : runtime)
  : result (runtime * caiocoro_status) :=
  '(rt', _) ← caio_call_new (Some sample_frame) task c s rt;
  Ok (rt', ccs_done).

(** A body that does not return. *)
Definition never_returns (c : nat) (task : ptr) (s : nat) (rt : runtime)
  : result (runtime * caiocoro_status) :=
  Timeout.

(** A table of two slots, both taken. *)
Definition full_table : runtime :=
  {| task_heap := {[ 0%nat := one_frame_task 0 0%nat;
                     1%nat := one_frame_task 1 1%nat ]};
     call_heap := {[ 0%nat := sample_frame; 1%nat := sample_frame ]};
     _tasks := {| array := [Some 0%nat; Some 1%nat]; arr_count := 2 |};
     _callstack_size := 4 |}.

(** A block of [malloc] whose bytes at [index] hold 1. *)
Definition stale_task_block : caiotask :=
  {| index := 1; running_coros := 9;
     callstack := {| stack_items := []; stack_size := 0 |} |}.

(** A body that starts one more task with [caio_task_new], for which
    [malloc] hands out [stale_task_block], and then finishes. *)
Definition spawns_then_done (c : nat) (task : ptr) (s : nat) (rt : runtime)
  : result (runtime * caiocoro_status) :=
  '(rt', _) ← caio_task_new (Some stale_task_block) true
                (Some sample_frame) c s rt;
  Ok (rt', ccs_done).

(** What [malloc] may hand out: blocks with left-over bytes. *)
Definition dirty_task_block : caiotask :=
  {| index := 0; running_coros := 9;
     callstack := {| stack_items := [3%nat]; stack_size := 1 |} |}.
Definition dirty_call_block : caiocall :=
  {| line := 7; coro := 5; state := 5 |}.

End Runtime.

(** ** [src/caio/io_uring.c] *)

Module IoUring.

(** Constants of [<linux/io_uring.h>] and the sizes of its structures. *)
Definition IORING_FEAT_SINGLE_MMAP : Z := 1.
Definition IORING_OFF_SQ_RING : Z := 0.
Definition IORING_OFF_CQ_RING : Z := 134217728.
Definition IORING_OFF_SQES : Z := 268435456.
Definition sizeof_u32 : Z := 4.
Definition sizeof_io_uring_cqe : Z := 16.
Definition sizeof_io_uring_sqe : Z := 64.

Definition unsigned_wrap (z : Z) : Z := z mod 2 ^ 32.

(** The fields of [struct io_uring_params] that [caio_io_uring_init]
    reads after the kernel has filled them; all are [__u32]. *)
Record io_uring_params : Type := mk_params {
  sq_entries : Z;
  cq_entries : Z;
  features : Z;
  sq_off_array : Z;
  cq_off_cqes : Z
}.

(** The kernel as seen by this function: what [io_uring_setup] answers
    for a number of entries (the descriptor or a negative value, and the
    parameters), and what [mmap] answers for a length, a descriptor and
    an offset ([None] is [MAP_FAILED]). *)
Record kernel : Type := mk_kernel {
  io_uring_setup : Z -> Z * io_uring_params;
  mmap : Z -> Z -> Z -> option nat
}.

(** The fields of [struct caio_io_uring] written here. *)
Record caio_io_uring : Type := mk_uring {
  ringfd : Z;
  sqes : option nat
}.

(** [caio_io_uring_init(u, maxtasks)]. *)
Definition caio_io_uring_init (k : kernel) (u : caio_io_uring)
    (maxtasks : Z) : caio_io_uring * Z :=
  let '(fd, p) := io_uring_setup k (unsigned_wrap maxtasks) in
  let u1 := {| ringfd := fd; sqes := sqes u |} in
  if fd <? 0 then (u1, -1)
  else
    let sqringlen :=
      int_wrap (sq_off_array p + sq_entries p * sizeof_u32) in
    let cqringlen :=
      int_wrap (cq_off_cqes p + cq_entries p * sizeof_io_uring_cqe) in
    let single := negb (Z.land (features p) IORING_FEAT_SINGLE_MMAP =? 0) in
    let sqringlen :=
      if single then (if cqringlen >? sqringlen then cqringlen else sqringlen)
      else sqringlen in
    let cqringlen := if single then sqringlen else cqringlen in
    match mmap k (size_t_wrap sqringlen) fd IORING_OFF_SQ_RING with
    | None => (u1, -1)
    | Some sq =>
        let cq :=
          if single then Some sq
          else mmap k (size_t_wrap cqringlen) fd IORING_OFF_CQ_RING in
        match cq with
        | None => (u1, 1)
        | Some _ =>
            let m := mmap k (size_t_wrap (sq_entries p * sizeof_io_uring_sqe))
                       fd IORING_OFF_SQES in
            let u2 := {| ringfd := fd; sqes := m |} in
            match m with
            | None => (u2, 1)
            | Some _ => (u2, 0)
            end
        end
    end.

(** What the specification asks of the set-up, step by step: the ring is
    set up, the submission ring is mapped, the completion ring is mapped
    (by the same mapping when the kernel offers it), the entry array is
    mapped. *)
Definition all_steps_succeed (k : kernel) (maxtasks : Z) : bool :=
  let '(fd, p) := io_uring_setup k (unsigned_wrap maxtasks) in
  let sqlen := int_wrap (sq_off_array p + sq_entries p * sizeof_u32) in
  let cqlen := int_wrap (cq_off_cqes p + cq_entries p * sizeof_io_uring_cqe) in
  let single := negb (Z.land (features p) IORING_FEAT_SINGLE_MMAP =? 0) in
  negb (fd <? 0)
  && (if single
      then bool_decide (is_Some (mmap k (size_t_wrap (Z.max sqlen cqlen)) fd
                                   IORING_OFF_SQ_RING))
      else bool_decide (is_Some (mmap k (size_t_wrap sqlen) fd
                                   IORING_OFF_SQ_RING))
           && bool_decide (is_Some (mmap k (size_t_wrap cqlen) fd
                                      IORING_OFF_CQ_RING)))
  && bool_decide (is_Some (mmap k (size_t_wrap (sq_entries p * sizeof_io_uring_sqe))
                             fd IORING_OFF_SQES)).

End IoUring.

(** * Properties *)

(** ** The task pool *)

Section TaskPoolFacts.
Import TaskPool.

Implicit Types (pool : caio_taskpool) (ts : list caio_task).

Lemma scan_first_fit ts statuses n i k t :
  (i ≤ k < i + n)%nat →
  ts !! k = Some t → matches statuses t →
  (∀ j u, (i ≤ j < k)%nat → ts !! j = Some u → ¬ matches statuses u) →
  scan ts statuses i n = Ok (Some k).
Proof.
  revert i. induction n as [|n IH]; intros i Hk Ht Hm Hbefore; [lia|].
  simpl. destruct (decide (i = k)) as [->|Hne].
  - rewrite Ht. unfold matches in Hm.
    destruct (Z.eqb_spec (Z.land (status t) statuses) 0); [done|done].
  - assert (Hlt : (i < k)%nat) by lia.
    destruct (lookup_lt_is_Some_2 ts i) as [u Hu].
    { apply lookup_lt_Some in Ht. lia. }
    rewrite Hu.
    destruct (Z.eqb_spec (Z.land (status u) statuses) 0) as [_|Hnz].
    + apply IH; [lia|done|done|].
      intros j v Hj. apply Hbefore. lia.
    + exfalso. apply (Hbefore i u); [lia|done|done].
Qed.

Lemma scan_found ts statuses n i k :
  scan ts statuses i n = Ok (Some k) →
  (i ≤ k < i + n)%nat
  ∧ (∃ t, ts !! k = Some t ∧ matches statuses t)
  ∧ (∀ j, (i ≤ j < k)%nat →
          ∃ u, ts !! j = Some u ∧ ¬ matches statuses u).
Proof.
  revert i. induction n as [|n IH]; intros i; simpl; [done|].
  destruct (ts !! i) as [t|] eqn:Ht; [|done].
  destruct (Z.eqb_spec (Z.land (status t) statuses) 0) as [Hz|Hnz].
  - intros H. apply IH in H as (Hk & Hm & Hbefore).
    split; [lia|]. split; [done|].
    intros j Hj. destruct (decide (j = i)) as [->|Hne].
    + exists t. split; [done|]. unfold matches. by intros Hc.
    + apply Hbefore. lia.
  - intros [= <-]. split; [lia|]. split.
    + by exists t.
    + intros j Hj. lia.
Qed.

Lemma scan_none ts statuses n i :
  scan ts statuses i n = Ok None →
  ∀ j, (i ≤ j < i + n)%nat → ∃ u, ts !! j = Some u ∧ ¬ matches statuses u.
Proof.
  revert i. induction n as [|n IH]; intros i; simpl; [intros _ j; lia|].
  destruct (ts !! i) as [t|] eqn:Ht; [|done].
  destruct (Z.eqb_spec (Z.land (status t) statuses) 0) as [Hz|Hnz]; [|done].
  intros H j Hj. destruct (decide (j = i)) as [->|Hne].
  - exists t. split; [done|]. unfold matches. by intros Hc.
  - apply (IH _ H). lia.
Qed.

Lemma scan_past_end ts statuses n i :
  (i ≤ length ts < i + n)%nat →
  none_from ts statuses i →
  scan ts statuses i n = Fault (OutOfBounds (length ts)).
Proof.
  revert i. induction n as [|n IH]; intros i Hi Hnone; [lia|].
  simpl. destruct (ts !! i) as [t|] eqn:Ht.
  - pose proof (lookup_lt_Some _ _ _ Ht) as Hlt.
    destruct (Z.eqb_spec (Z.land (status t) statuses) 0) as [_|Hnz].
    + apply IH; [lia|]. intros j u Hj. apply Hnone. lia.
    + exfalso. by apply (Hnone i t).
  - apply lookup_ge_None in Ht. by replace i with (length ts) by lia.
Qed.

Lemma none_from_zeroed statuses sz i :
  none_from (replicate sz zero_task) statuses i.
Proof.
  intros j t _ Ht. apply lookup_replicate in Ht as [-> _].
  unfold matches. simpl. intros H. by apply H.
Qed.

Lemma next_zeroed_pool statuses sz :
  caio_taskpool_next (zeroed_pool sz) None statuses
  = Fault (OutOfBounds sz).
Proof.
  unfold caio_taskpool_next, zeroed_pool. cbn [tasks last].
  pose proof (scan_past_end (replicate sz zero_task) statuses
                (S sz - 0) 0) as H.
  rewrite length_replicate in H.
  apply H; [lia|apply none_from_zeroed].
Qed.

(** C1: a pool fresh from [caio_taskpool_init] has no slot a lease can
    take.  The slots are zero-filled (status 0, no flag set), the reset
    loop of the initialisation looks for non-idle flags only and so never
    marks one [CAIO_IDLE], and every scan that finds nothing in the
    [size] slots goes on to read slot [size], one past the allocation.
    Whatever [CAIO_WAITINGIO] is, the initialisation ends in that access,
    and so does the first lease on the zero-filled pool: it does not
    succeed. *)
Theorem lease_from_fresh_pool_does_not_succeed :
  ∀ (CAIO_WAITINGIO : Z) (old : caio_taskpool) (sz : nat),
    caio_taskpool_init CAIO_WAITINGIO true (Some old) sz
      = Fault (OutOfBounds sz)
    ∧ caio_taskpool_lease (zeroed_pool sz) = Fault (OutOfBounds sz)
    ∧ idle_slots (zeroed_pool sz) = 0%nat.
Proof.
  intros w old sz. split; [|split].
  - unfold caio_taskpool_init. cbn [init_loop].
    by rewrite next_zeroed_pool.
  - unfold caio_taskpool_lease. by rewrite next_zeroed_pool.
  - unfold idle_slots. simpl. induction sz as [|sz IH]; [done|].
    simpl. rewrite filter_cons_False; [done|].
    intros H. apply H. reflexivity.
Qed.

(** Had the slots been idle, the leases would come in ascending order:
    with [k < c] slots leased, the next lease takes slot [k]. *)
Lemma lease_from_idle_pool (k c : nat) :
  (k < c)%nat → Z.of_nat c ≤ SIZE_MAX →
  caio_taskpool_lease (leased_pool k c) = Ok (leased_pool (S k) c, Some k).
Proof.
  intros Hk Hc.
  assert (Hslot : tasks (leased_pool k c) !! k = Some idle_task).
  { unfold leased_pool. cbn [tasks].
    rewrite lookup_app_r by by rewrite length_replicate.
    rewrite length_replicate, Nat.sub_diag.
    apply lookup_replicate_2. lia. }
  unfold caio_taskpool_lease, caio_taskpool_next.
  change (last (leased_pool k c)) with c.
  rewrite (scan_first_fit _ _ _ _ k idle_task); [|lia|done| |].
  - cbn [mbind result_bind]. unfold reset_slot. rewrite Hslot.
    cbn [mbind result_bind]. f_equal. f_equal.
    unfold leased_pool, set_count, set_tasks. cbn [tasks last count size].
    f_equal.
    + replace (c - k)%nat with (S (c - S k)) by lia.
      rewrite insert_app_r_alt by by rewrite length_replicate.
      rewrite length_replicate, Nat.sub_diag. simpl.
      change (TASK_RESET idle_task CAIO_RUNNING) with running_task.
      by rewrite app_comm_cons, replicate_cons_app, <- app_assoc.
    + unfold size_t_wrap, SIZE_MAX, SIZE_WIDTH in *.
      rewrite Z.mod_small by lia. lia.
  - intros H. vm_compute in H. discriminate H.
  - intros j u Hj Hu. unfold leased_pool in Hu. cbn [tasks] in Hu.
    rewrite lookup_app_l in Hu by (rewrite length_replicate; lia).
    apply lookup_replicate in Hu as [-> _]. intros H. by apply H.
Qed.

(** With every slot leased the next lease does not answer [NULL]: the
    scan runs past the last slot. *)
Lemma lease_from_full_pool (c : nat) :
  caio_taskpool_lease (leased_pool c c) = Fault (OutOfBounds c).
Proof.
  unfold caio_taskpool_lease, caio_taskpool_next.
  pose proof (scan_past_end (tasks (leased_pool c c)) CAIO_IDLE
                (S (last (leased_pool c c)) - 0) 0) as H.
  unfold leased_pool in *. cbn [tasks last] in *.
  rewrite Nat.sub_diag in *. simpl replicate in *.
  rewrite app_nil_r, length_replicate in *.
  rewrite H; [done|lia|].
  intros j u _ Hu. apply lookup_replicate in Hu as [-> _].
  intros Hm. by apply Hm.
Qed.

(** C7: first part, kept by the code: a slot answered by the scan is the
    first one at or after the cursor, in ascending order, whose status
    meets the mask, and it is one of the pool's own slots. *)
Lemma caio_taskpool_next_first_fit pool task statuses k :
  caio_taskpool_next pool task statuses = Ok (Some k) →
  (default 0%nat task ≤ k ≤ last pool)%nat
  ∧ (∃ t, tasks pool !! k = Some t ∧ matches statuses t)
  ∧ (∀ j, (default 0%nat task ≤ j < k)%nat →
          ∃ u, tasks pool !! j = Some u ∧ ¬ matches statuses u).
Proof.
  unfold caio_taskpool_next. intros H.
  apply scan_found in H as (Hk & Hm & Hb).
  destruct task as [c|]; simpl in *; (split; [lia|done]).
Qed.

(** X4: The scan can be taken up again at the slot it answered. *)
Lemma caio_taskpool_next_restart pool task statuses k :
  caio_taskpool_next pool task statuses = Ok (Some k) →
  caio_taskpool_next pool (Some k) statuses = Ok (Some k).
Proof.
  intros H. apply caio_taskpool_next_first_fit in H as (Hk & (t & Ht & Hm) & _).
  unfold caio_taskpool_next.
  apply (scan_first_fit _ _ _ _ _ t); [lia|done|done|]. intros j u Hj. lia.
Qed.

(** C7: the scan is bounded by [task <= pool->last] and the
    initialisation sets [last = tasks + size], so a scan that finds no
    match among the remaining slots of the pool does not answer [NULL]:
    it reads slot [size], which is not one of the [size] allocated
    slots. *)
Theorem caio_taskpool_next_reads_past_end :
  ∀ pool (task : option nat) (statuses : Z),
    last pool = length (tasks pool) →
    (default 0%nat task ≤ length (tasks pool))%nat →
    none_from (tasks pool) statuses (default 0%nat task) →
    caio_taskpool_next pool task statuses
      = Fault (OutOfBounds (length (tasks pool))).
Proof.
  intros pool task statuses Hlast Hcur Hnone.
  unfold caio_taskpool_next.
  replace (match task with Some i => i | None => 0%nat end)
    with (default 0%nat task) by by destruct task.
  apply scan_past_end; [lia|done].
Qed.

Lemma caio_taskpool_next_reads_past_end_witness :
  caio_taskpool_next
    {| tasks := [ {| caio := None; current := None;
                     status := CAIO_RUNNING; eno := 0 |} ];
       last := 1; count := 1; size := 1 |} None CAIO_IDLE
  = Fault (OutOfBounds 1).
Proof.
  apply (caio_taskpool_next_reads_past_end
           {| tasks := [ {| caio := None; current := None;
                            status := CAIO_RUNNING; eno := 0 |} ];
              last := 1; count := 1; size := 1 |} None CAIO_IDLE).
  - reflexivity.
  - simpl. lia.
  - intros j t Hj Ht. destruct j as [|j]; simpl in Ht.
    + injection Ht as <-. intros H. apply H. reflexivity.
    + by destruct j.
Defined.

Lemma size_t_wrap_succ_pred c :
  0 ≤ c ≤ SIZE_MAX → size_t_wrap (size_t_wrap (c + 1) - 1) = c.
Proof.
  unfold size_t_wrap, SIZE_MAX, SIZE_WIDTH. intros Hc.
  destruct (decide (c = 2 ^ 64 - 1)) as [->|Hne]; [reflexivity|].
  rewrite (Z.mod_small (c + 1)) by lia.
  rewrite Z.mod_small by lia. lia.
Qed.

Lemma TASK_RESET_twice t s s' :
  TASK_RESET (TASK_RESET t s) s' = TASK_RESET t s'.
Proof. reflexivity. Qed.

Lemma idle_filter_insert ts i t t' :
  ts !! i = Some t →
  (matches CAIO_IDLE t ↔ matches CAIO_IDLE t') →
  length (filter (λ u, Z.land (status u) CAIO_IDLE ≠ 0) (<[i := t']> ts))
  = length (filter (λ u, Z.land (status u) CAIO_IDLE ≠ 0) ts).
Proof.
  revert i. induction ts as [|u ts IH]; intros i Hi Hiff; [done|].
  destruct i as [|i]; simpl in *.
  - injection Hi as ->. rewrite !filter_cons.
    unfold matches in Hiff.
    destruct (decide (Z.land (status t') CAIO_IDLE ≠ 0)),
             (decide (Z.land (status t) CAIO_IDLE ≠ 0)); simpl; tauto.
  - rewrite !filter_cons.
    destruct (decide (Z.land (status u) CAIO_IDLE ≠ 0)); simpl;
      rewrite (IH i); done.
Qed.

Lemma lease_inv pool pool1 i :
  caio_taskpool_lease pool = Ok (pool1, Some i) →
  ∃ t, tasks pool !! i = Some t ∧ matches CAIO_IDLE t
       ∧ (∀ j, (j < i)%nat →
               ∃ u, tasks pool !! j = Some u ∧ ¬ matches CAIO_IDLE u)
       ∧ pool1 = set_count
                   (set_tasks pool
                      (<[i := TASK_RESET t CAIO_RUNNING]> (tasks pool)))
                   (size_t_wrap (count pool + 1)).
Proof.
  unfold caio_taskpool_lease. intros H.
  destruct (caio_taskpool_next pool None CAIO_IDLE) as [[k|]| |] eqn:Hn;
    simpl in H; try done.
  apply caio_taskpool_next_first_fit in Hn as (_ & (t & Ht & Hm) & Hb).
  unfold reset_slot in H. rewrite Ht in H. simpl in H.
  injection H as <- <-. exists t. repeat split; try done.
  intros j Hj. apply Hb. simpl. lia.
Qed.

(** C4, as the code has it: releasing a task just leased answers 0,
    brings [count] (and with it the number of free slots) back to what
    it was before the lease and leaves the slot [CAIO_IDLE] with a
    cleared error and no frame.  A second release of the same task
    leaves every slot as it is, but it is not a no-op: there is no check
    of the slot's status, so [count] is lowered once more, modulo
    [2 ^ 64]. *)
Theorem release_after_lease :
  ∀ pool (i : nat) pool1,
    0 ≤ count pool ≤ SIZE_MAX →
    caio_taskpool_lease pool = Ok (pool1, Some i) →
    ∃ t pool2 pool3,
      tasks pool !! i = Some t
      ∧ caio_taskpool_release (Some pool1) (Some i) = Ok (Some pool2, 0)
      ∧ count pool2 = count pool
      ∧ size pool2 = size pool
      ∧ tasks pool2 = <[i := TASK_RESET t CAIO_IDLE]> (tasks pool)
      ∧ idle_slots pool2 = idle_slots pool
      ∧ caio_taskpool_release (Some pool2) (Some i) = Ok (Some pool3, 0)
      ∧ tasks pool3 = tasks pool2
      ∧ count pool3 = size_t_wrap (count pool2 - 1).
Proof.
  intros pool i pool1 Hc Hlease.
  apply lease_inv in Hlease as (t & Ht & Hm & _ & ->).
  pose proof (lookup_lt_Some _ _ _ Ht) as Hlt.
  set (ts2 := <[i := TASK_RESET t CAIO_IDLE]> (tasks pool)).
  exists t,
    {| tasks := ts2; last := last pool; count := count pool;
       size := size pool |},
    {| tasks := ts2; last := last pool;
       count := size_t_wrap (count pool - 1); size := size pool |}.
  split; [done|]. split.
  { unfold caio_taskpool_release, reset_slot. cbn [tasks set_count set_tasks].
    rewrite list_lookup_insert_eq by done. simpl.
    rewrite list_insert_insert_eq, TASK_RESET_twice.
    by rewrite size_t_wrap_succ_pred. }
  split; [done|]. split; [done|]. split; [done|]. split.
  { unfold idle_slots. cbn [tasks]. subst ts2.
    apply idle_filter_insert with (t := t); [done|].
    split; [intros _; unfold matches; by simpl|done]. }
  split; [|done].
  unfold caio_taskpool_release, reset_slot. cbn [tasks]. subst ts2.
  rewrite list_lookup_insert_eq by done. simpl.
  by rewrite list_insert_insert_eq, TASK_RESET_twice.
Qed.

Lemma release_after_lease_witness :
  ∃ t pool2 pool3,
    [ {| caio := None; current := None; status := CAIO_IDLE; eno := 0 |} ]
      !! 0%nat = Some t
    ∧ caio_taskpool_release
        (Some {| tasks := [ {| caio := None; current := None;
                               status := CAIO_RUNNING; eno := 0 |} ];
                 last := 1; count := 4; size := 1 |}) (Some 0%nat)
      = Ok (Some pool2, 0)
    ∧ count pool2 = 3
    ∧ size pool2 = 1%nat
    ∧ tasks pool2 = [ TASK_RESET t CAIO_IDLE ]
    ∧ idle_slots pool2 = 1%nat
    ∧ caio_taskpool_release (Some pool2) (Some 0%nat) = Ok (Some pool3, 0)
    ∧ tasks pool3 = tasks pool2
    ∧ count pool3 = size_t_wrap (count pool2 - 1).
Proof.
  apply (release_after_lease
           {| tasks := [ {| caio := None; current := None;
                            status := CAIO_IDLE; eno := 0 |} ];
              last := 1; count := 3; size := 1 |} 0%nat).
  - unfold SIZE_MAX, SIZE_WIDTH. simpl. lia.
  - reflexivity.
Defined.

(** C4, the claim as written fails: after a lease and its release, a
    second release of the same task changes the pool, taking [count]
    from 0 to [SIZE_MAX]. *)
Lemma release_twice_changes_count :
  ∃ pool1 pool2 pool3,
    caio_taskpool_lease
      {| tasks := [ {| caio := None; current := None;
                       status := CAIO_IDLE; eno := 0 |} ];
         last := 0; count := 0; size := 1 |} = Ok (pool1, Some 0%nat)
    ∧ caio_taskpool_release (Some pool1) (Some 0%nat) = Ok (Some pool2, 0)
    ∧ caio_taskpool_release (Some pool2) (Some 0%nat) = Ok (Some pool3, 0)
    ∧ count pool2 = 0
    ∧ count pool3 = SIZE_MAX
    ∧ pool3 ≠ pool2.
Proof.
  eexists _, _, _.
  split; [reflexivity|]. split; [reflexivity|]. split; [reflexivity|].
  split; [reflexivity|]. split; [reflexivity|].
  intros H. apply (f_equal count) in H. vm_compute in H. discriminate H.
Qed.

End TaskPoolFacts.

(** ** The control-flow macros of [caio/caio.h] *)

Section ErrorField.

Lemma int_wrap_id n : INT_MIN ≤ n ≤ INT_MAX → int_wrap n = n.
Proof.
  unfold INT_MIN, INT_MAX, int_wrap. intros Hn.
  rewrite Z.mod_small by lia. lia.
Qed.

(** An operand of an unsigned type is compared after conversion:
    [eno = -1] is the error [4294967295U], and no error of type [int]
    but [-1]. *)
Lemma CAIO_ISERROR_unsigned_operand (task : caio_task) :
  eno task = -1 →
  CAIO_ISERROR_as c_unsigned task 4294967295 = true
  ∧ CAIO_ISERROR task 4294967295 = false
  ∧ CAIO_ISERROR task (-1) = true.
Proof.
  intros H. unfold CAIO_ISERROR, CAIO_ISERROR_as, CAIO_HASERROR, int_eq.
  rewrite H. split; [reflexivity|]. split; reflexivity.
Qed.

(** C10: [CAIO_RETURN] leaves [eno = 0] and [CAIO_TERMINATING];
    [CAIO_THROW(task, n)] leaves [eno = n] (for [n] an [int]) and
    [CAIO_TERMINATING]; [CAIO_RETHROW] leaves [CAIO_TERMINATING] and
    [eno] as it was; all three return from the coroutine and touch no
    other field.  For an error code [e] of type [int],
    [CAIO_ISERROR(task, e)] holds exactly when [eno] is non-zero and
    equal to [e], and [CAIO_HASERROR] is false after a [CAIO_RETURN]. *)
Theorem error_field_protocol :
  ∀ (task : caio_task) (n e : Z),
    INT_MIN ≤ n ≤ INT_MAX →
    c_in_range c_int e →
    CAIO_RETURN task
      = ({| caio := caio task; current := current task;
            status := CAIO_TERMINATING; eno := 0 |}, Returned)
    ∧ CAIO_THROW task n
      = ({| caio := caio task; current := current task;
            status := CAIO_TERMINATING; eno := n |}, Returned)
    ∧ CAIO_RETHROW task
      = ({| caio := caio task; current := current task;
            status := CAIO_TERMINATING; eno := eno task |}, Returned)
    ∧ (CAIO_ISERROR task e = true ↔ eno task ≠ 0 ∧ eno task = e)
    ∧ CAIO_HASERROR (CAIO_RETURN task).1 = false.
Proof.
  intros task n e Hn He. split; [done|]. split.
  { unfold CAIO_THROW, set_status, set_eno. simpl. by rewrite int_wrap_id. }
  split; [done|]. split; [|done].
  unfold CAIO_ISERROR, CAIO_ISERROR_as, CAIO_HASERROR, int_eq.
  rewrite andb_true_iff, negb_true_iff, Z.eqb_neq, Z.eqb_eq. done.
Qed.

Lemma error_field_protocol_witness :
  CAIO_THROW {| caio := None; current := Some 7%nat;
                status := CAIO_RUNNING; eno := 0 |} 5
  = ({| caio := None; current := Some 7%nat;
        status := CAIO_TERMINATING; eno := 5 |}, Returned)
  ∧ (CAIO_ISERROR {| caio := None; current := Some 7%nat;
                     status := CAIO_RUNNING; eno := 0 |} (-1) = true
     ↔ 0 ≠ 0 ∧ 0 = -1).
Proof.
  destruct (error_field_protocol
              {| caio := None; current := Some 7%nat;
                 status := CAIO_RUNNING; eno := 0 |} 5 (-1))
    as (_ & Hthrow & _ & Hiserror & _).
  - unfold INT_MIN, INT_MAX. lia.
  - unfold c_in_range, INT_MIN, INT_MAX. lia.
  - split; [exact Hthrow|exact Hiserror].
Defined.

End ErrorField.

(** ** The ring set-up *)

Section IoUringFacts.
Import IoUring.

(** X12: The result is 0 exactly when every step succeeded. *)
Lemma caio_io_uring_init_zero_iff k u maxtasks :
  (caio_io_uring_init k u maxtasks).2 = 0
  ↔ all_steps_succeed k maxtasks = true.
Proof.
  unfold caio_io_uring_init, all_steps_succeed.
  destruct (io_uring_setup k (unsigned_wrap maxtasks)) as [fd p].
  destruct (fd <? 0); simpl; [done|].
  destruct (Z.land (features p) IORING_FEAT_SINGLE_MMAP =? 0); simpl.
  - destruct (mmap k _ fd IORING_OFF_SQ_RING) as [sq|]; simpl; [|done].
    destruct (mmap k _ fd IORING_OFF_CQ_RING) as [cq|]; simpl; [|done].
    destruct (mmap k _ fd IORING_OFF_SQES) as [m|]; simpl; done.
  - rewrite Z.gtb_ltb.
    replace (if _ <? _ then _ else _)
      with (Z.max (int_wrap (sq_off_array p + sq_entries p * sizeof_u32))
              (int_wrap (cq_off_cqes p
                         + cq_entries p * sizeof_io_uring_cqe))).
    2:{ destruct (Z.ltb_spec
                    (int_wrap (sq_off_array p + sq_entries p * sizeof_u32))
                    (int_wrap (cq_off_cqes p
                               + cq_entries p * sizeof_io_uring_cqe))); lia. }
    destruct (mmap k _ fd IORING_OFF_SQ_RING) as [sq|]; simpl; [|done].
    destruct (mmap k _ fd IORING_OFF_SQES) as [m|]; simpl; done.
Qed.

(** C9: when the ring is set up and the submission ring is mapped, but
    the kernel has no single mapping and the separate mapping of the
    completion ring fails, the function answers 1, which is not a
    negative result. *)
Theorem caio_io_uring_init_cq_failure_answers_1 :
  ∀ (k : kernel) (u : caio_io_uring) (maxtasks fd : Z)
    (p : io_uring_params) (sq : nat),
    io_uring_setup k (unsigned_wrap maxtasks) = (fd, p) →
    0 ≤ fd →
    Z.land (features p) IORING_FEAT_SINGLE_MMAP = 0 →
    mmap k (size_t_wrap
              (int_wrap (sq_off_array p + sq_entries p * sizeof_u32)))
      fd IORING_OFF_SQ_RING = Some sq →
    mmap k (size_t_wrap
              (int_wrap (cq_off_cqes p
                         + cq_entries p * sizeof_io_uring_cqe)))
      fd IORING_OFF_CQ_RING = None →
    (caio_io_uring_init k u maxtasks).2 = 1.
Proof.
  intros k u maxtasks fd p sq Hsetup Hfd Hfeat Hsq Hcq.
  unfold caio_io_uring_init. rewrite Hsetup.
  destruct (Z.ltb_spec fd 0); [lia|].
  rewrite Hfeat. simpl. by rewrite Hsq, Hcq.
Qed.

Lemma caio_io_uring_init_cq_failure_answers_1_witness :
  (caio_io_uring_init
     {| io_uring_setup := λ entries,
          (3, {| sq_entries := entries; cq_entries := 2 * entries;
                 features := 0; sq_off_array := 64; cq_off_cqes := 64 |});
        mmap := λ len fd off,
          if off =? IORING_OFF_CQ_RING then None else Some 4096%nat |}
     {| ringfd := 0; sqes := None |} 8).2 = 1.
Proof.
  apply (caio_io_uring_init_cq_failure_answers_1 _ _ 8 3
           {| sq_entries := 8; cq_entries := 16;
              features := 0; sq_off_array := 64; cq_off_cqes := 64 |}
           4096%nat).
  - reflexivity.
  - lia.
  - reflexivity.
  - reflexivity.
  - reflexivity.
Defined.

(** The same slip on the last mapping: a failed mapping of the
    submission-entry array answers 1 as well. *)
Lemma caio_io_uring_init_sqes_failure_answers_1 :
  (caio_io_uring_init
     {| io_uring_setup := λ entries,
          (3, {| sq_entries := entries; cq_entries := 2 * entries;
                 features := IORING_FEAT_SINGLE_MMAP;
                 sq_off_array := 64; cq_off_cqes := 64 |});
        mmap := λ len fd off,
          if off =? IORING_OFF_SQES then None else Some 4096%nat |}
     {| ringfd := 0; sqes := None |} 8).2 = 1.
Proof. reflexivity. Qed.

End IoUringFacts.

(** ** Tasks, frames and the scheduler *)

Ltac rt_simpl :=
  unfold Runtime.store_task, Runtime.set_task_heap, Runtime.set_call_heap,
    Runtime.set_tasks;
  cbn [Runtime.task_heap Runtime.call_heap Runtime._tasks
       Runtime._callstack_size mbind result_bind].

Section TableFacts.
Import Runtime.

Implicit Types (rt : runtime) (task call p q : ptr) (a : caiotask_array).

Lemma fresh_task_not_live rt :
  task_heap rt !! (fresh (dom (task_heap rt)) : ptr) = None.
Proof. apply not_elem_of_dom, is_fresh. Qed.

Lemma fresh_call_not_live rt :
  call_heap rt !! (fresh (dom (call_heap rt)) : ptr) = None.
Proof. apply not_elem_of_dom, is_fresh. Qed.

Lemma free_frames_frame frames rt rt' :
  free_frames frames rt = Ok rt' →
  task_heap rt' = task_heap rt ∧ _tasks rt' = _tasks rt
  ∧ _callstack_size rt' = _callstack_size rt.
Proof.
  revert rt. induction frames as [|call frames IH]; intros rt; simpl.
  - by intros [= <-].
  - unfold free_call. destruct (call_heap rt !! call); simpl; [|done].
    intros H. apply IH in H as (-> & -> & ->). done.
Qed.

Lemma dispose_inv task rt rt' :
  _caio_task_dispose task rt = Ok rt' →
  ∃ t, task_heap rt !! task = Some t
       ∧ task_heap rt' = delete task (task_heap rt)
       ∧ _tasks rt' = caiotask_array_del (_tasks rt) (index t)
       ∧ _callstack_size rt' = _callstack_size rt.
Proof.
  unfold _caio_task_dispose, load_task.
  destruct (task_heap rt !! task) as [t|] eqn:Ht; simpl; [|done].
  destruct (free_frames _ rt) as [rt1| |] eqn:Hf; simpl; try done.
  apply free_frames_frame in Hf as (Hh & Ha & Hc).
  unfold free_task. rt_simpl. rewrite !Hh, Ht.
  intros [= <-]. exists t. rt_simpl. by rewrite Ha, Hc.
Qed.

Lemma pop_and_free_inv task call rt rt' :
  pop_and_free task call rt = Ok rt' →
  ∃ t t', task_heap rt !! task = Some t
          ∧ index t' = index t
          ∧ task_heap rt' = <[task := t']> (task_heap rt)
          ∧ _tasks rt' = _tasks rt
          ∧ _callstack_size rt' = _callstack_size rt.
Proof.
  unfold pop_and_free, load_task.
  destruct (task_heap rt !! task) as [t|] eqn:Ht; simpl; [|done].
  unfold free_call. rt_simpl.
  destruct (call_heap rt !! call); rt_simpl; [|done].
  rewrite lookup_insert_eq. rt_simpl.
  intros [= <-].
  exists t, {| index := index t;
               running_coros := int_wrap (running_coros t - 1);
               callstack := (caiocall_stack_pop (callstack t)).1 |}.
  rt_simpl. split; [done|]. split; [done|].
  by rewrite insert_insert_eq.
Qed.

Lemma get_lt a (i : nat) p :
  caiotask_array_get a i = Some p → (i < arr_size a)%nat.
Proof.
  unfold caiotask_array_get, arr_size.
  destruct (array a !! i) eqn:H; [|done].
  intros _. by eapply lookup_lt_Some.
Qed.

Lemma get_Some a (i : nat) p :
  caiotask_array_get a i = Some p ↔ array a !! i = Some (Some p).
Proof.
  unfold caiotask_array_get.
  destruct (array a !! i) as [[q|]|]; simpl; naive_solver.
Qed.

Lemma occupied_clear (l : list (option ptr)) (i : nat) p :
  l !! i = Some (Some p) →
  length (filter (λ slot : option ptr, slot ≠ None) l)
  = S (length (filter (λ slot : option ptr, slot ≠ None) (<[i := None]> l))).
Proof.
  revert i. induction l as [|x l IH]; intros i; [done|].
  destruct i as [|i]; simpl.
  - intros [= ->]. rewrite filter_cons_True by done.
    rewrite filter_cons_False by (intros H; by apply H). done.
  - intros H. rewrite !filter_cons.
    destruct (decide (x ≠ None)); simpl; by rewrite (IH i H).
Qed.

Lemma del_get a (i j : nat) :
  (i < arr_size a)%nat →
  caiotask_array_get (caiotask_array_del a (Z.of_nat i)) j
  = if decide (j = i) then None else caiotask_array_get a j.
Proof.
  intros Hi. unfold caiotask_array_del.
  rewrite decide_True by lia. unfold caiotask_array_get. simpl.
  rewrite Nat2Z.id. destruct (decide (j = i)) as [->|Hne].
  - by rewrite list_lookup_insert_eq.
  - by rewrite list_lookup_insert_ne.
Qed.

Lemma del_size a (i : Z) :
  arr_size (caiotask_array_del a i) = arr_size a.
Proof.
  unfold caiotask_array_del, arr_size.
  destruct (decide _); simpl; [|done]. by rewrite length_insert.
Qed.

Lemma del_count a (i : nat) p :
  caiotask_array_get a i = Some p →
  arr_count a = Z.of_nat (occupied a) →
  Z.of_nat (arr_size a) ≤ SIZE_MAX →
  arr_count (caiotask_array_del a (Z.of_nat i))
  = Z.of_nat (occupied (caiotask_array_del a (Z.of_nat i))).
Proof.
  intros Hget Hc Hsz. pose proof (get_lt _ _ _ Hget) as Hlt.
  apply get_Some in Hget.
  unfold caiotask_array_del. rewrite decide_True by lia.
  unfold occupied in *. simpl. rewrite Nat2Z.id, Hc.
  rewrite (occupied_clear _ _ _ Hget).
  pose proof (length_filter (λ slot : option ptr, slot ≠ None)
                (<[i := None]> (array a))) as Hle.
  rewrite length_insert in Hle.
  unfold size_t_wrap, SIZE_MAX, SIZE_WIDTH, arr_size in *.
  rewrite Z.mod_small by lia. lia.
Qed.

Lemma table_inv_update rt rt' task t t' :
  table_inv rt →
  task_heap rt !! task = Some t →
  index t' = index t →
  task_heap rt' = <[task := t']> (task_heap rt) →
  _tasks rt' = _tasks rt →
  table_inv rt'.
Proof.
  intros (Hreg & Hc & Hsz) Ht Hidx Hh Ha.
  unfold table_inv. rewrite Ha, Hh. split; [|done].
  intros i p Hget. destruct (Hreg i p Hget) as (u & Hu & Hui).
  destruct (decide (p = task)) as [->|Hne].
  - exists t'. rewrite lookup_insert_eq. split; [done|]. congruence.
  - exists u. by rewrite lookup_insert_ne.
Qed.

Lemma table_inv_dispose rt rt' (i : nat) p :
  table_inv rt →
  caiotask_array_get (_tasks rt) i = Some p →
  _caio_task_dispose p rt = Ok rt' →
  table_inv rt'
  ∧ arr_size (_tasks rt') = arr_size (_tasks rt)
  ∧ (∀ (j : nat) q, j ≠ i →
        caiotask_array_get (_tasks rt) j = Some q →
        caiotask_array_get (_tasks rt') j = Some q).
Proof.
  intros (Hreg & Hc & Hsz) Hget Hd.
  apply dispose_inv in Hd as (t & Ht & Hh & Ha & _).
  destruct (Hreg i p Hget) as (t0 & Ht0 & Hidx).
  assert (t0 = t) as -> by congruence.
  pose proof (get_lt _ _ _ Hget) as Hlt.
  rewrite Hidx in Ha.
  split; [|split].
  - unfold table_inv. rewrite Ha, Hh, del_size. split; [|split].
    + intros j q. rewrite del_get by done.
      destruct (decide (j = i)) as [->|Hne]; [done|].
      intros Hj. destruct (Hreg j q Hj) as (u & Hu & Hui).
      exists u. split; [|done]. rewrite lookup_delete_ne; [done|].
      intros <-. rewrite Ht in Hu. injection Hu as <-. lia.
    + by eapply del_count.
    + done.
  - by rewrite Ha, del_size.
  - intros j q Hne Hj. rewrite Ha, del_get by done.
    by rewrite decide_False.
Qed.

Lemma occupied_replicate_None (n : nat) :
  filter (λ slot : option ptr, slot ≠ None) (replicate n None) = [].
Proof.
  induction n as [|n IH]; [done|]. simpl.
  rewrite filter_cons_False; [done|]. intros H. by apply H.
Qed.

(** [caio_init] sets up a well-formed, empty table. *)
Lemma caio_init_table_inv (maxtasks callstack_size : nat) rt :
  Z.of_nat maxtasks ≤ SIZE_MAX →
  table_inv (caio_init true maxtasks callstack_size rt).1.
Proof.
  intros Hmax. unfold caio_init, table_inv, caiotask_array_get, occupied,
    arr_size. simpl. split; [|split].
  - intros i p. destruct (replicate maxtasks None !! i) as [slot|] eqn:Hi;
      [|done].
    apply lookup_replicate in Hi as [-> _]. done.
  - by rewrite occupied_replicate_None.
  - by rewrite length_replicate.
Qed.

Lemma occupied_fill (l : list (option ptr)) (i : nat) p :
  l !! i = Some None →
  length (filter (λ slot : option ptr, slot ≠ None) (<[i := Some p]> l))
  = S (length (filter (λ slot : option ptr, slot ≠ None) l)).
Proof.
  revert i. induction l as [|x l IH]; intros i; [done|].
  destruct i as [|i]; simpl.
  - intros [= ->]. rewrite !filter_cons.
    repeat case_decide; simpl; try done; exfalso; naive_solver.
  - intros H. rewrite !filter_cons.
    destruct (decide (x ≠ None)); simpl; by rewrite (IH i H).
Qed.

Lemma occupied_lt_size (l : list (option ptr)) (i : nat) :
  l !! i = Some None →
  (length (filter (λ slot : option ptr, slot ≠ None) l) < length l)%nat.
Proof.
  intros Hi. apply (length_filter_lt _ _ None).
  - by eapply list_elem_of_lookup_2.
  - intros H. by apply H.
Qed.

(** A successful [caio_call_new] leaves the table alone and keeps it
    well formed. *)
Lemma caio_call_new_table m task c s rt rt' :
  table_inv rt →
  caio_call_new m task c s rt = Ok (rt', 0) →
  table_inv rt' ∧ _tasks rt' = _tasks rt.
Proof.
  intros Hinv. unfold caio_call_new.
  destruct m as [block|].
  - unfold load_task. rt_simpl.
    destruct (task_heap rt !! task) as [t|] eqn:Ht; rt_simpl; [|done].
    destruct (caiocall_stack_push (callstack t) _) as [stack'|].
    + intros [= <-]. split; [|done].
      eapply (table_inv_update rt); [done|done| |reflexivity|reflexivity].
      reflexivity.
    + destruct (_caio_task_dispose task _); simpl; try done.
  - destruct (_caio_task_dispose task rt); simpl; done.
Qed.

(** A successful [caio_task_new] registers the new task in a slot that
    was free, keeps every registered task where it is and keeps the table
    well formed. *)
Lemma caio_task_new_table mt stack_ok mc c s rt rt' :
  table_inv rt →
  caio_task_new mt stack_ok mc c s rt = Ok (rt', 0) →
  table_inv rt'
  ∧ arr_size (_tasks rt') = arr_size (_tasks rt)
  ∧ (∀ (i : nat) p, caiotask_array_get (_tasks rt) i = Some p →
                    caiotask_array_get (_tasks rt') i = Some p).
Proof.
  intros Hinv. unfold caio_task_new.
  destruct mt as [block|]; [|done].
  set (task := fresh (dom (task_heap rt)) : ptr).
  destruct stack_ok; cbn [negb].
  2:{ destruct (free_task _ task); simpl; done. }
  unfold caiotask_array_append. rt_simpl.
  destruct (list_find (λ slot, slot = None) (array (_tasks rt)))
    as [[k x]|] eqn:Hfind.
  2:{ simpl. destruct (_caio_task_dispose task _); simpl; done. }
  apply list_find_Some in Hfind as (Hk & -> & _).
  destruct (Z.eqb_spec (Z.of_nat k) (-1)) as [?|_]; [lia|].
  rewrite insert_insert_eq. cbn [callstack].
  match goal with
  | |- context [caio_call_new mc task c s ?r] => set (rt3 := r)
  end.
  assert (Hinv3 : table_inv rt3).
  { destruct Hinv as (Hreg & Hc & Hsz). subst rt3.
    unfold table_inv. rt_simpl. split; [|split].
    - intros j q Hj. apply get_Some in Hj. simpl in Hj.
      destruct (decide (j = k)) as [->|Hne].
      + rewrite list_lookup_insert_eq in Hj by by eapply lookup_lt_Some.
        injection Hj as <-. eexists. rewrite lookup_insert_eq.
        split; [reflexivity|reflexivity].
      + rewrite list_lookup_insert_ne in Hj by done.
        apply get_Some in Hj. destruct (Hreg j q Hj) as (u & Hu & Hui).
        assert (task ≠ q) as Hfresh.
        { intros <-. subst task. by rewrite fresh_task_not_live in Hu. }
        exists u. split; [|done]. by rewrite !lookup_insert_ne.
    - unfold occupied. simpl. rewrite (occupied_fill _ _ _ Hk), Hc.
      pose proof (occupied_lt_size _ _ Hk) as Hlt.
      unfold occupied, arr_size, size_t_wrap, SIZE_MAX, SIZE_WIDTH in *.
      rewrite Z.mod_small by lia. lia.
    - unfold arr_size in *. simpl. by rewrite length_insert. }
  destruct (caio_call_new mc task c s rt3) as [[rt4 failed]| |] eqn:Hcall;
    simpl; try done.
  destruct (Z.eqb_spec failed 0) as [->|Hne].
  2:{ destruct (_caio_task_dispose task rt4); simpl; done. }
  intros [= <-].
  destruct (caio_call_new_table _ _ _ _ _ _ Hinv3 Hcall) as (Hinv4 & Ha4).
  split; [done|]. rewrite Ha4. subst rt3. rt_simpl.
  split.
  - unfold arr_size. simpl. by rewrite length_insert.
  - intros i p Hi. apply get_Some in Hi. apply get_Some. simpl.
    rewrite list_lookup_insert_ne; [done|]. intros <-. congruence.
Qed.
End TableFacts.

Section RuntimeFacts.
Import Runtime.

Implicit Types (rt : runtime) (task call : ptr).

Lemma append_free_slot (a : caiotask_array) task (i : nat) :
  array a !! i = Some None →
  ∃ k : nat, (k ≤ i)%nat ∧ array a !! k = Some None
    ∧ (∀ j, (j < k)%nat → mjoin (array a !! j) ≠ None ∨ (length (array a) ≤ j)%nat)
    ∧ caiotask_array_append a task
      = ({| array := <[k := Some task]> (array a);
            arr_count := size_t_wrap (arr_count a + 1) |}, Z.of_nat k).
Proof.
  intros Hi. unfold caiotask_array_append.
  destruct (list_find (λ s, s = None) (array a)) as [[k x]|] eqn:Hf.
  - apply list_find_Some in Hf as (Hk & -> & Hbefore).
    exists k. split.
    { destruct (decide (k ≤ i)%nat); [done|].
      exfalso. apply (Hbefore i None); [done|lia|done]. }
    split; [done|]. split; [|done].
    intros j Hj. left. destruct (array a !! j) as [y|] eqn:Hy.
    + simpl. intros ->. by apply (Hbefore j None).
    + apply lookup_ge_None in Hy. apply lookup_lt_Some in Hk. lia.
  - apply list_find_None in Hf.
    rewrite Forall_forall in Hf. exfalso.
    apply (Hf None); [|done]. by eapply list_elem_of_lookup_2.
Qed.

Lemma dispose_empty_stack rt task t :
  task_heap rt !! task = Some t →
  stack_items (callstack t) = [] →
  _caio_task_dispose task rt
  = Ok {| task_heap := delete task (task_heap rt);
          call_heap := call_heap rt;
          _tasks := caiotask_array_del (_tasks rt) (index t);
          _callstack_size := _callstack_size rt |}.
Proof.
  intros Ht Hs. unfold _caio_task_dispose, load_task. rewrite Ht. simpl.
  rewrite Hs. simpl. unfold free_task. simpl. by rewrite Ht.
Qed.

Lemma dispose_not_live rt task :
  task_heap rt !! task = None →
  _caio_task_dispose task rt = Fault (InvalidAccess task).
Proof.
  intros Ht. unfold _caio_task_dispose, load_task. by rewrite Ht.
Qed.

(** A failure before the task is registered leaves the state as it
    was. *)
Lemma caio_task_new_malloc_failure_unchanged stack_ok mc c s rt :
  caio_task_new None stack_ok mc c s rt = Ok (rt, -1).
Proof. reflexivity. Qed.

Lemma caio_task_new_stack_failure_unchanged block mc c s rt :
  caio_task_new (Some block) false mc c s rt = Ok (rt, -1).
Proof.
  unfold caio_task_new, free_task. rt_simpl.
  rewrite lookup_insert_eq. rt_simpl.
  rewrite delete_insert_id by apply fresh_task_not_live.
  by destruct rt.
Qed.

(** C3: when the task has been registered and [malloc] then refuses the
    initial frame, [caio_call_new] disposes the task and answers [-1],
    upon which [caio_task_new] disposes the same task again: the second
    [_caio_task_dispose] reads the freed task.  The call does not come
    back with a failure result and an untouched state; the task is
    disposed twice, not once. *)
Theorem caio_task_new_frame_failure_disposes_twice :
  ∀ rt (block : caiotask) (c s : nat) (i : nat),
    array (_tasks rt) !! i = Some None →
    caio_task_new (Some block) true None c s rt
    = Fault (InvalidAccess (fresh (dom (task_heap rt)))).
Proof.
  intros rt block c s i Hfree.
  unfold caio_task_new. cbn [negb].
  set (task := fresh (dom (task_heap rt)) : ptr).
  cbn [store_task _tasks set_task_heap].
  destruct (append_free_slot (_tasks rt) task i Hfree) as (k & _ & _ & _ & ->).
  destruct (Z.eqb_spec (Z.of_nat k) (-1)) as [Hk|_]; [lia|].
  cbn [caio_call_new callstack].
  match goal with
  | |- context [_caio_task_dispose task ?r] => set (rt3 := r)
  end.
  assert (H3 : task_heap rt3 !! task
               = Some {| index := Z.of_nat k; running_coros := 0;
                         callstack := {| stack_items := [];
                                         stack_size := _callstack_size rt |} |}).
  { subst rt3. simpl. apply lookup_insert_eq. }
  rewrite (dispose_empty_stack rt3 task _ H3 eq_refl).
  cbn [mbind result_bind Z.eqb]. clearbody rt3.
  rewrite dispose_not_live; [done|]. simpl. apply lookup_delete_eq.
Qed.

Lemma caio_task_new_frame_failure_disposes_twice_witness :
  caio_task_new (Some dirty_task_block) true None 1 2
    (caio_init true 2 4 no_runtime).1
  = Fault (InvalidAccess 0).
Proof.
  apply (caio_task_new_frame_failure_disposes_twice
           (caio_init true 2 4 no_runtime).1 dirty_task_block 1 2 0).
  reflexivity.
Defined.

(** The other slip of the roll-back: when the table is full, the task
    is disposed before [task->index] has been written, and
    [caiotask_array_del] gets whatever the block held.  Here that is 0,
    the slot of a live task, which is unregistered although it stays
    allocated. *)
Lemma caio_task_new_full_table_unregisters_other :
  ∃ rt',
    caio_task_new (Some dirty_task_block) true (Some dirty_call_block) 1 2
      stackless_task = Ok (rt', -1)
    ∧ caiotask_array_get (_tasks stackless_task) 0 = Some 0%nat
    ∧ caiotask_array_get (_tasks rt') 0 = None
    ∧ is_Some (task_heap rt' !! 0%nat).
Proof.
  eexists. split; [vm_compute; reflexivity|].
  split; [reflexivity|]. split; [reflexivity|]. by eexists.
Qed.

(** C8: [caio_call_new] writes [coro] and [state] of the frame it
    pushes and nothing else: the resume position of the new frame is
    whatever the block [malloc] returned holds, not necessarily 0. *)
Theorem caio_call_new_keeps_allocated_line :
  ∀ rt task (t : caiotask) (block : caiocall) (c s : nat),
    task_heap rt !! task = Some t →
    (length (stack_items (callstack t)) < stack_size (callstack t))%nat →
    ∃ rt' t',
      caio_call_new (Some block) task c s rt = Ok (rt', 0)
      ∧ task_heap rt' !! task = Some t'
      ∧ caiocall_stack_last (callstack t')
        = Some (fresh (dom (call_heap rt)))
      ∧ call_heap rt' !! (fresh (dom (call_heap rt)) : ptr)
        = Some {| line := line block; coro := c; state := s |}.
Proof.
  intros rt task t block c s Ht Hroom.
  unfold caio_call_new, load_task. cbn [task_heap set_call_heap].
  rewrite Ht. cbn [mbind result_bind].
  unfold caiocall_stack_push. rewrite decide_True by done.
  eexists _, _. split; [reflexivity|].
  cbn [store_task set_task_heap set_call_heap task_heap call_heap].
  split; [apply lookup_insert_eq|]. split.
  - unfold caiocall_stack_last. cbn [callstack stack_items].
    apply last_snoc.
  - apply lookup_insert_eq.
Qed.

Lemma caio_call_new_keeps_allocated_line_witness :
  ∃ rt' t',
    caio_call_new (Some dirty_call_block) 0%nat 1 2 stackless_task
      = Ok (rt', 0)
    ∧ task_heap rt' !! 0%nat = Some t'
    ∧ caiocall_stack_last (callstack t') = Some 0%nat
    ∧ call_heap rt' !! 0%nat = Some {| line := 7; coro := 1; state := 2 |}.
Proof.
  apply (caio_call_new_keeps_allocated_line stackless_task 0%nat
           {| index := 0; running_coros := 0;
              callstack := {| stack_items := []; stack_size := 4 |} |}
           dirty_call_block 1 2).
  - reflexivity.
  - simpl. lia.
Defined.

(** The same holds for the initial frame [caio_task_new] pushes. *)
Lemma caio_task_new_initial_frame_line :
  ∃ rt',
    caio_task_new (Some dirty_task_block) true (Some dirty_call_block) 1 2
      (caio_init true 2 4 no_runtime).1 = Ok (rt', 0)
    ∧ call_heap rt' !! 0%nat = Some {| line := 7; coro := 1; state := 2 |}.
Proof. eexists. split; [vm_compute; reflexivity|reflexivity]. Qed.

(** With the stack functions as the spec has them, the step over them
    is [caio_task_step]. *)
Lemma caio_task_step_over_spec
    (run_coro : nat → ptr → nat → runtime
                → result (runtime * caiocoro_status)) task rt :
  caio_task_step_over caiocall_stack_last caiocall_stack_pop run_coro task rt
  = caio_task_step run_coro task rt.
Proof. reflexivity. Qed.

(** C6, as the code has it: [caio_task_step] does not look whether the
    call stack holds a frame.  On a live task with an empty call stack
    it takes what [caiocall_stack_last] answers as the frame to run,
    whatever [caiocall_stack_last] and [caiocall_stack_pop] are: when
    the answer is [NULL], it dereferences [NULL]; when it points to no
    allocated frame, it reads invalid memory; when it points to an
    allocated frame, it invokes the body of that frame.  With a
    [caiocall_stack_last] that answers [NULL] for an empty stack, the
    step ends in the dereference of [NULL], whatever the bodies are. *)
Theorem caio_task_step_empty_stack_unguarded :
  ∀ (stack_last : caiocall_stack → option ptr)
    (stack_pop : caiocall_stack → caiocall_stack * option ptr)
    rt task (t : caiotask),
    task_heap rt !! task = Some t →
    stack_items (callstack t) = [] →
    match stack_last (callstack t) with
    | None =>
        ∀ run, caio_task_step_over stack_last stack_pop run task rt
               = Fault NullDeref
    | Some call =>
        match call_heap rt !! call with
        | None =>
            ∀ run, caio_task_step_over stack_last stack_pop run task rt
                   = Fault (InvalidAccess call)
        | Some frame =>
            ∃ k : runtime * caiocoro_status → result (runtime * Z),
              ∀ run, caio_task_step_over stack_last stack_pop run task rt
                     = run (coro frame) task (state frame) rt ≫= k
        end
    end
    ∧ ∀ run, caio_task_step run task rt = Fault NullDeref.
Proof.
  intros stack_last stack_pop rt task t Ht Hs. split.
  - destruct (stack_last (callstack t)) as [call|] eqn:Hlast.
    + destruct (call_heap rt !! call) as [frame|] eqn:Hframe.
      * eexists. intros run. unfold caio_task_step_over, load_task, load_call.
        rewrite Ht. cbn [mbind result_bind]. rewrite Hlast, Hframe.
        cbn [mbind result_bind]. reflexivity.
      * intros run. unfold caio_task_step_over, load_task, load_call.
        rewrite Ht. cbn [mbind result_bind]. by rewrite Hlast, Hframe.
    + intros run. unfold caio_task_step_over, load_task.
      rewrite Ht. cbn [mbind result_bind]. by rewrite Hlast.
  - intros run. unfold caio_task_step, load_task.
    rewrite Ht. cbn [mbind result_bind].
    unfold caiocall_stack_last. by rewrite Hs.
Qed.

Lemma caio_task_step_empty_stack_unguarded_witness :
  (∀ run, caio_task_step_over (λ _, Some 5%nat) caiocall_stack_pop run
            0%nat stackless_task
          = Fault (InvalidAccess 5%nat))
  ∧ ∀ run, caio_task_step run 0%nat stackless_task = Fault NullDeref.
Proof.
  apply (caio_task_step_empty_stack_unguarded (λ _, Some 5%nat)
           caiocall_stack_pop stackless_task 0%nat
           {| index := 0; running_coros := 0;
              callstack := {| stack_items := []; stack_size := 4 |} |}).
  - reflexivity.
  - reflexivity.
Defined.

(** C6, the claim as written fails: whatever [caiocall_stack_last] and
    [caiocall_stack_pop] do and whatever the bodies are, stepping this
    task, whose call stack is empty, does not leave the state unchanged
    and return. *)
Lemma caio_task_step_empty_stack_not_noop :
  stack_items (callstack
                 {| index := 0; running_coros := 0;
                    callstack := {| stack_items := [];
                                    stack_size := 4 |} |}) = []
  ∧ task_heap stackless_task !! 0%nat
    = Some {| index := 0; running_coros := 0;
              callstack := {| stack_items := []; stack_size := 4 |} |}
  ∧ ¬ ∃ stack_last stack_pop run,
        caio_task_step_over stack_last stack_pop run 0%nat stackless_task
        = Ok (stackless_task, 0).
Proof.
  split; [reflexivity|]. split; [reflexivity|].
  intros (stack_last & stack_pop & run & H). revert H.
  unfold caio_task_step_over, load_task, load_call.
  change (task_heap stackless_task !! 0%nat)
    with (Some {| index := 0; running_coros := 0;
                  callstack := {| stack_items := [];
                                  stack_size := 4 |} |}).
  cbn [mbind result_bind callstack].
  destruct (stack_last _) as [call|]; [|done].
  change (call_heap stackless_task) with (∅ : gmap ptr caiocall).
  by rewrite lookup_empty.
Qed.

(** A task that has been disposed is gone from the heap: stepping it
    reads freed memory. *)
Lemma caio_task_step_disposed_task
    (run_coro : nat → ptr → nat → runtime
                → result (runtime * caiocoro_status)) rt task :
  task_heap rt !! task = None →
  caio_task_step run_coro task rt = Fault (InvalidAccess task).
Proof.
  intros Ht. unfold caio_task_step, load_task. by rewrite Ht.
Qed.

Lemma last_length_pos {A} (l : list A) x :
  last l = Some x → (1 ≤ length l)%nat.
Proof. destruct l; [done|]. simpl. lia. Qed.

Lemma removelast_nil_of_length_1 {A} (l : list A) :
  length l = 1%nat → removelast l = [].
Proof. destruct l as [|x [|y l]]; done. Qed.

(** The step depends on the coroutine bodies through one invocation
    only, that of the innermost frame. *)
Lemma caio_task_step_invokes_top_only
    (run run' : nat → ptr → nat → runtime
                → result (runtime * caiocoro_status))
    rt task (t : caiotask) call (frame : caiocall) :
  task_heap rt !! task = Some t →
  caiocall_stack_last (callstack t) = Some call →
  call_heap rt !! call = Some frame →
  run (coro frame) task (state frame) rt
    = run' (coro frame) task (state frame) rt →
  caio_task_step run task rt = caio_task_step run' task rt.
Proof.
  intros Ht Htop Hframe Hsame.
  unfold caio_task_step, load_task, load_call.
  rewrite Ht. cbn [mbind result_bind]. rewrite Htop, Hframe.
  cbn [mbind result_bind]. by rewrite Hsame.
Qed.

(** With the innermost frame in place, the step is the invocation of
    that frame's body followed by work that no body has a part in. *)
Lemma step_invocation rt task (t : caiotask) call (frame : caiocall) :
  task_heap rt !! task = Some t →
  caiocall_stack_last (callstack t) = Some call →
  call_heap rt !! call = Some frame →
  ∃ k : runtime * caiocoro_status → result (runtime * Z),
    ∀ run : nat → ptr → nat → runtime
            → result (runtime * caiocoro_status),
      caio_task_step run task rt
      = run (coro frame) task (state frame) rt ≫= k.
Proof.
  intros Ht Htop Hframe. eexists. intros run.
  unfold caio_task_step, load_task, load_call.
  rewrite Ht. cbn [mbind result_bind]. rewrite Htop, Hframe.
  cbn [mbind result_bind]. reflexivity.
Qed.

(** X24: A body that answers "not done" keeps its frame: the step pops
    nothing, and with frames still active it leaves the state as the body
    left it. *)
Lemma caio_task_step_again
    (run_coro : nat → ptr → nat → runtime
                → result (runtime * caiocoro_status))
    rt task (t : caiotask) call (frame : caiocall) rt1 (t1 : caiotask) :
  task_heap rt !! task = Some t →
  caiocall_stack_last (callstack t) = Some call →
  call_heap rt !! call = Some frame →
  run_coro (coro frame) task (state frame) rt = Ok (rt1, ccs_again) →
  task_heap rt1 !! task = Some t1 →
  running_coros t1 ≠ 0 →
  caio_task_step run_coro task rt = Ok (rt1, 0).
Proof.
  intros Ht Htop Hframe Hrun Ht1 Hnz.
  unfold caio_task_step, load_task, load_call.
  rewrite Ht. cbn [mbind result_bind]. rewrite Htop, Hframe.
  cbn [mbind result_bind]. rewrite Hrun.
  cbn [mbind result_bind is_done]. rewrite Ht1. cbn [mbind result_bind].
  by destruct (Z.eqb_spec (running_coros t1) 0).
Qed.

(** C2, as the code has it: on a live task whose innermost frame is
    allocated, [caio_task_step] is one invocation of the body of that
    frame, on the task and with the frame's state, followed by work [k]
    that no body has a part in.  After a body that answers "not done"
    and leaves the task with active frames, [k] pops and frees nothing.
    After a body that answers "done", having left its own frame
    innermost and the active-frame count equal to the depth of the
    stack, [k] pops and frees exactly that frame and lowers the count by
    one; when the count thereby reaches zero, the task is freed and
    [caiotask_array_del] clears its slot of the table; otherwise the
    table is left as the body left it. *)
Theorem caio_task_step_innermost_frame :
  ∀ rt task (t : caiotask) call (frame : caiocall),
    task_heap rt !! task = Some t →
    caiocall_stack_last (callstack t) = Some call →
    call_heap rt !! call = Some frame →
    ∃ k : runtime * caiocoro_status → result (runtime * Z),
      (∀ run : nat → ptr → nat → runtime
               → result (runtime * caiocoro_status),
          caio_task_step run task rt
          = run (coro frame) task (state frame) rt ≫= k)
      ∧ (∀ rt1 (t1 : caiotask),
            task_heap rt1 !! task = Some t1 →
            running_coros t1 ≠ 0 →
            k (rt1, ccs_again) = Ok (rt1, 0))
      ∧ (∀ rt1 (t1 : caiotask) (frame1 : caiocall) (i : nat),
            task_heap rt1 !! task = Some t1 →
            caiocall_stack_last (callstack t1) = Some call →
            call_heap rt1 !! call = Some frame1 →
            running_coros t1
              = Z.of_nat (length (stack_items (callstack t1))) →
            running_coros t1 ≤ INT_MAX →
            caiotask_array_get (_tasks rt1) i = Some task →
            index t1 = Z.of_nat i →
            ∃ rt2,
              k (rt1, ccs_done) = Ok (rt2, 0)
              ∧ call_heap rt2 = delete call (call_heap rt1)
              ∧ _callstack_size rt2 = _callstack_size rt1
              ∧ if decide (running_coros t1 - 1 = 0)
                then task_heap rt2 = delete task (task_heap rt1)
                     ∧ _tasks rt2
                       = caiotask_array_del (_tasks rt1) (index t1)
                     ∧ caiotask_array_get (_tasks rt2) i = None
                     ∧ (∀ j : nat, j ≠ i →
                           caiotask_array_get (_tasks rt2) j
                           = caiotask_array_get (_tasks rt1) j)
                else task_heap rt2
                     = <[task := {| index := index t1;
                                    running_coros := running_coros t1 - 1;
                                    callstack :=
                                      {| stack_items :=
                                           removelast
                                             (stack_items (callstack t1));
                                         stack_size :=
                                           stack_size (callstack t1) |}
                                 |}]> (task_heap rt1)
                     ∧ _tasks rt2 = _tasks rt1).
Proof.
  intros rt task t call frame Ht Htop Hframe.
  exists (λ '(rt1, st),
            rt2 ← (if is_done st then pop_and_free task call rt1
                   else Ok rt1);
            t2 ← load_task rt2 task;
            if running_coros t2 =? 0
            then rt3 ← _caio_task_dispose task rt2; Ok (rt3, 0)
            else Ok (rt2, 0)).
  split; [|split].
  - intros run. unfold caio_task_step, load_task, load_call.
    rewrite Ht. cbn [mbind result_bind]. rewrite Htop, Hframe.
    cbn [mbind result_bind]. reflexivity.
  - intros rt1 t1 Ht1 Hnz. cbn [mbind result_bind is_done].
    unfold load_task. rewrite Ht1. cbn [mbind result_bind].
    by destruct (Z.eqb_spec (running_coros t1) 0).
  - intros rt1 t1 frame1 i Ht1 Htop1 Hframe1 Hcount Hmax Hslot Hidx.
    pose proof (last_length_pos _ _ Htop1) as Hpos.
    pose proof (get_lt _ _ _ Hslot) as Hlt.
    assert (Hwrap : int_wrap (running_coros t1 - 1) = running_coros t1 - 1).
    { unfold int_wrap. unfold INT_MAX in Hmax.
      rewrite Z.mod_small by lia. lia. }
    cbn [mbind result_bind is_done]. unfold pop_and_free, load_task.
    rewrite Ht1. cbn [mbind result_bind].
    unfold free_call. rt_simpl. rewrite Hframe1. rt_simpl.
    rewrite lookup_insert_eq. rt_simpl.
    rewrite lookup_insert_eq. rt_simpl.
    cbn [index running_coros callstack caiocall_stack_pop fst].
    rewrite insert_insert_eq, Hwrap.
    destruct (Z.eqb_spec (running_coros t1 - 1) 0) as [Hz|Hnz].
    + erewrite dispose_empty_stack; [|apply lookup_insert_eq|].
      2:{ cbn [callstack stack_items].
          apply removelast_nil_of_length_1. lia. }
      rt_simpl. cbn [index].
      eexists. split; [reflexivity|]. rt_simpl.
      rewrite decide_True by done.
      split; [done|]. split; [done|]. split; [by rewrite delete_insert_eq|].
      split; [done|]. rewrite Hidx. split.
      * rewrite del_get by done. by rewrite decide_True.
      * intros j Hne. rewrite del_get by done. by rewrite decide_False.
    + eexists. split; [reflexivity|]. rt_simpl.
      rewrite decide_False by done. done.
Qed.

Lemma caio_task_step_innermost_frame_witness :
  (∃ rt2,
      caio_task_step returns_done 1%nat two_tasks = Ok (rt2, 0)
      ∧ call_heap rt2 = delete 1%nat (call_heap two_tasks)
      ∧ _callstack_size rt2 = 4%nat
      ∧ task_heap rt2 = delete 1%nat (task_heap two_tasks)
      ∧ _tasks rt2 = caiotask_array_del (_tasks two_tasks) 2
      ∧ caiotask_array_get (_tasks rt2) 2 = None
      ∧ (∀ j : nat, j ≠ 2%nat →
            caiotask_array_get (_tasks rt2) j
            = caiotask_array_get (_tasks two_tasks) j))
  ∧ caio_task_step (λ c task s rt, Ok (rt, ccs_again)) 1%nat two_tasks
    = Ok (two_tasks, 0).
Proof.
  destruct (caio_task_step_innermost_frame two_tasks 1%nat
              (one_frame_task 2 1%nat) 1%nat sample_frame)
    as (k & Hstep & Hagain & Hdone).
  - reflexivity.
  - reflexivity.
  - reflexivity.
  - split.
    + rewrite (Hstep returns_done).
      apply (Hdone two_tasks (one_frame_task 2 1%nat) sample_frame 2%nat).
      * reflexivity.
      * reflexivity.
      * reflexivity.
      * reflexivity.
      * unfold INT_MAX. simpl. lia.
      * reflexivity.
      * reflexivity.
    + rewrite (Hstep (λ c task s rt, Ok (rt, ccs_again))).
      apply (Hagain two_tasks (one_frame_task 2 1%nat)).
      * reflexivity.
      * simpl. lia.
Defined.

(** C2, the claim as written fails: a body that pushes a call and then
    answers "done".  The step pops the frame the body pushed, which
    stays allocated, and frees the frame it invoked, which stays on the
    stack of the task. *)
Lemma caio_task_step_pops_frame_pushed_by_body :
  caiocall_stack_last (callstack (one_frame_task 0 0%nat)) = Some 0%nat
  ∧ task_heap two_tasks !! 0%nat = Some (one_frame_task 0 0%nat)
  ∧ ∃ rt2 (t2 : caiotask),
      caio_task_step calls_then_done 0%nat two_tasks = Ok (rt2, 0)
      ∧ task_heap rt2 !! 0%nat = Some t2
      ∧ stack_items (callstack t2) = [0%nat]
      ∧ running_coros t2 = 1
      ∧ call_heap rt2 !! 0%nat = None
      ∧ call_heap rt2 !! 2%nat = Some sample_frame.
Proof.
  split; [reflexivity|]. split; [reflexivity|].
  eexists _, _. split; [vm_compute; reflexivity|].
  split; [reflexivity|]. split; [reflexivity|]. split; [reflexivity|].
  split; reflexivity.
Qed.

(** In slot terms: after that step slot 2 of the table is free. *)
Lemma step_releases_slot_example :
  ∃ rt2,
    caio_task_step returns_done 1%nat two_tasks = Ok (rt2, 0)
    ∧ caiotask_array_get (_tasks two_tasks) 2 = Some 1%nat
    ∧ caiotask_array_get (_tasks rt2) 2 = None
    ∧ caiotask_array_get (_tasks rt2) 0 = Some 0%nat
    ∧ arr_count (_tasks rt2) = 1.
Proof. eexists. split; [vm_compute; reflexivity|]. done. Qed.

End RuntimeFacts.

Section SchedulerFacts.
Import Runtime.

Implicit Types (rt : runtime) (task call p q : ptr) (a : caiotask_array).

Variable run_coro :
  nat → ptr → nat → runtime → result (runtime * caiocoro_status).
Hypothesis Hwb : well_behaved run_coro.

Lemma step_table rt rt' (r : Z) (i : nat) p :
  table_inv rt →
  caiotask_array_get (_tasks rt) i = Some p →
  caio_task_step run_coro p rt = Ok (rt', r) →
  table_inv rt'
  ∧ arr_size (_tasks rt') = arr_size (_tasks rt)
  ∧ (∀ (j : nat) q, j ≠ i →
        caiotask_array_get (_tasks rt) j = Some q →
        caiotask_array_get (_tasks rt') j = Some q).
Proof.
  intros Hinv Hget. unfold caio_task_step.
  destruct (load_task rt p) as [t| |]; simpl; try done.
  destruct (caiocall_stack_last (callstack t)) as [call|]; [|done].
  destruct (load_call rt call) as [frame| |]; simpl; try done.
  destruct (run_coro _ _ _ rt) as [[rt1 st]| |] eqn:Hrun; simpl; try done.
  destruct (Hwb _ _ _ _ _ _ Hrun Hinv) as (Hinv1 & Hsz1 & Hkeep1).
  assert (∀ rt2,
    (if is_done st then pop_and_free p call rt1 else Ok rt1) = Ok rt2 →
    table_inv rt2 ∧ _tasks rt2 = _tasks rt1) as Hpop.
  { intros rt2. destruct (is_done st).
    - intros H. apply pop_and_free_inv in H as (u & u' & Hu & Hi & Hh & Ha & _).
      split; [|done]. by eapply table_inv_update.
    - by intros [= <-]. }
  destruct (if is_done st then _ else _) as [rt2| |]; simpl; try done.
  destruct (Hpop rt2 eq_refl) as (Hinv2 & Ha2).
  destruct (load_task rt2 p) as [t2| |]; simpl; try done.
  destruct (running_coros t2 =? 0).
  - destruct (_caio_task_dispose p rt2) as [rt3| |] eqn:Hd; simpl; try done.
    intros [= <- <-].
    assert (Hget2 : caiotask_array_get (_tasks rt2) i = Some p).
    { rewrite Ha2. by apply Hkeep1. }
    destruct (table_inv_dispose _ _ _ _ Hinv2 Hget2 Hd) as (Hinv3 & Hsz3 & Hk3).
    split; [done|]. split; [by rewrite Hsz3, Ha2|].
    intros j q Hne Hj. apply Hk3; [done|]. rewrite Ha2. by apply Hkeep1.
  - intros [= <- <-]. split; [done|]. rewrite Ha2. split; [done|].
    intros j q _. apply Hkeep1.
Qed.

Lemma sweep_spec fuel :
  ∀ (i : nat) rt rt' log,
    table_inv rt →
    sweep run_coro fuel i rt = Ok (rt', log) →
    table_inv rt'
    ∧ arr_size (_tasks rt') = arr_size (_tasks rt)
    ∧ log.*1 = seq i (arr_size (_tasks rt) - i)
    ∧ (∀ (j : nat) p, (i ≤ j)%nat →
          caiotask_array_get (_tasks rt) j = Some p → (j, Some p) ∈ log).
Proof.
  induction fuel as [|fuel IH]; intros i rt rt' log Hinv; simpl.
  - destruct (decide (i < arr_size (_tasks rt))%nat) as [Hlt|Hge]; [done|].
    intros [= <- <-]. split; [done|]. split; [done|]. split.
    + by replace (arr_size (_tasks rt) - i)%nat with 0%nat by lia.
    + intros j p Hj Hget. apply get_lt in Hget. lia.
  - destruct (decide (i < arr_size (_tasks rt))%nat) as [Hlt|Hge].
    + set (slot := caiotask_array_get (_tasks rt) i).
      assert (∀ rt1,
        match slot with
        | Some p => caio_task_step run_coro p rt ≫= λ '(rt0, _), Ok rt0
        | None => Ok rt
        end = Ok rt1 →
        table_inv rt1
        ∧ arr_size (_tasks rt1) = arr_size (_tasks rt)
        ∧ (∀ (j : nat) q, j ≠ i →
              caiotask_array_get (_tasks rt) j = Some q →
              caiotask_array_get (_tasks rt1) j = Some q)) as Hvisit.
      { intros rt1. destruct slot as [p|] eqn:Hslot.
        - destruct (caio_task_step run_coro p rt) as [[rt0 r]| |] eqn:Hs;
            simpl; try done.
          intros [= <-]. by eapply step_table.
        - by intros [= <-]. }
      destruct (match slot with Some _ => _ | None => _ end)
        as [rt1| |]; simpl; try done.
      destruct (Hvisit rt1 eq_refl) as (Hinv1 & Hsz1 & Hkeep1).
      destruct (sweep run_coro fuel (S i) rt1) as [[rt2 log']| |] eqn:Hrest;
        simpl; try done.
      intros [= <- <-].
      destruct (IH _ _ _ _ Hinv1 Hrest) as (Hinv2 & Hsz2 & Hidx & Hall).
      split; [done|]. split; [congruence|]. split.
      * rewrite fmap_cons, Hidx, Hsz1.
        replace (arr_size (_tasks rt) - i)%nat
          with (S (arr_size (_tasks rt) - S i)) by lia. done.
      * intros j p Hj Hget. destruct (decide (j = i)) as [->|Hne].
        -- subst slot. rewrite Hget. apply list_elem_of_here.
        -- apply list_elem_of_further. apply Hall; [lia|].
           by apply Hkeep1.
    + intros [= <- <-]. split; [done|]. split; [done|]. split.
      * by replace (arr_size (_tasks rt) - i)%nat with 0%nat by lia.
      * intros j p Hj Hget. apply get_lt in Hget. lia.
Qed.

Lemma no_live_task_iff rt :
  table_inv rt →
  arr_count (_tasks rt) = 0
  ↔ ∀ i : nat, caiotask_array_get (_tasks rt) i = None.
Proof.
  intros (_ & Hc & _). rewrite Hc. unfold occupied, caiotask_array_get.
  split.
  - intros Hz i. assert (Hnil : filter (λ slot : option ptr, slot ≠ None)
                                  (array (_tasks rt)) = []).
    { apply length_zero_iff_nil. lia. }
    destruct (array (_tasks rt) !! i) as [[p|]|] eqn:Hi; try done.
    exfalso. apply list_elem_of_lookup_2 in Hi.
    assert (Some p ∈ filter (λ slot : option ptr, slot ≠ None)
                       (array (_tasks rt))) as Hin.
    { apply list_elem_of_filter. done. }
    rewrite Hnil in Hin. by apply not_elem_of_nil in Hin.
  - intros Hall.
    assert (Hnil : filter (λ slot : option ptr, slot ≠ None)
                     (array (_tasks rt)) = []).
    { apply elem_of_nil_inv. intros x Hx.
      apply list_elem_of_filter in Hx as [Hx Hin].
      apply list_elem_of_lookup in Hin as [i Hi].
      specialize (Hall i). rewrite Hi in Hall. simpl in Hall. done. }
    by rewrite Hnil.
Qed.

Lemma caio_forever_exit fuel :
  ∀ rt rt' (r : Z) logs,
    table_inv rt →
    caio_forever run_coro fuel rt = Ok (rt', r, logs) →
    r = EXIT_SUCCESS ∧ arr_count (_tasks rt') = 0 ∧ table_inv rt'.
Proof.
  induction fuel as [|fuel IH]; intros rt rt' r logs Hinv; simpl; [done|].
  destruct (Z.eqb_spec (arr_count (_tasks rt)) 0) as [Hz|Hnz].
  - by intros [= <- <- <-].
  - destruct (sweep run_coro _ 0 rt) as [[rt1 log]| |] eqn:Hs;
      simpl; try done.
    apply sweep_spec in Hs as (Hinv1 & _); [|done].
    destruct (caio_forever run_coro fuel rt1) as [[[rt2 r2] logs2]| |] eqn:Hf;
      simpl; try done.
    intros [= <- <- <-]. by eapply IH.
Qed.


Hypothesis Hreturns : ∀ c task s rt, run_coro c task s rt ≠ Timeout.

Lemma free_frames_returns frames rt : free_frames frames rt ≠ Timeout.
Proof.
  revert rt. induction frames as [|call frames IH]; intros rt; simpl; [done|].
  unfold free_call. destruct (call_heap rt !! call); simpl; [apply IH|done].
Qed.

Lemma dispose_returns task rt : _caio_task_dispose task rt ≠ Timeout.
Proof.
  unfold _caio_task_dispose, load_task.
  destruct (task_heap rt !! task); simpl; [|done].
  pose proof (free_frames_returns
                (reverse (stack_items (callstack c))) rt) as Hf.
  destruct (free_frames _ rt) as [rt1| |]; simpl; try done.
  unfold free_task. by destruct (task_heap _ !! task).
Qed.

Lemma pop_and_free_returns task call rt :
  pop_and_free task call rt ≠ Timeout.
Proof.
  unfold pop_and_free, load_task.
  destruct (task_heap rt !! task); simpl; [|done].
  unfold free_call. rt_simpl.
  destruct (call_heap rt !! call); rt_simpl; [|done].
  by rewrite lookup_insert_eq.
Qed.

Lemma step_returns task rt : caio_task_step run_coro task rt ≠ Timeout.
Proof.
  unfold caio_task_step.
  destruct (load_task rt task) as [t| |] eqn:Hl; simpl; try done.
  { destruct (caiocall_stack_last (callstack t)) as [call|]; [|done].
    destruct (load_call rt call) as [frame| |] eqn:Hc; simpl; try done.
    - pose proof (Hreturns (coro frame) task (state frame) rt) as Hr.
      destruct (run_coro _ _ _ rt) as [[rt1 st]| |]; simpl; try done.
      assert ((if is_done st then pop_and_free task call rt1 else Ok rt1)
              ≠ Timeout) as Hp.
      { destruct (is_done st); [apply pop_and_free_returns|done]. }
      destruct (if is_done st then _ else _) as [rt2| |]; simpl; try done.
      destruct (load_task rt2 task) as [t2| |] eqn:Hl2; simpl; try done.
      + destruct (running_coros t2 =? 0); [|done].
        pose proof (dispose_returns task rt2) as Hd.
        by destruct (_caio_task_dispose task rt2).
      + unfold load_task in Hl2. by destruct (task_heap rt2 !! task).
    - unfold load_call in Hc. by destruct (call_heap rt !! call). }
  unfold load_task in Hl. by destruct (task_heap rt !! task).
Qed.

Lemma sweep_returns fuel :
  ∀ (i : nat) rt,
    table_inv rt →
    (arr_size (_tasks rt) - i ≤ fuel)%nat →
    sweep run_coro fuel i rt ≠ Timeout.
Proof.
  induction fuel as [|fuel IH]; intros i rt Hinv Hfuel; simpl.
  - rewrite decide_False by lia. done.
  - destruct (decide (i < arr_size (_tasks rt))%nat) as [Hlt|Hge]; [|done].
    destruct (caiotask_array_get (_tasks rt) i) as [p|] eqn:Hget.
    + pose proof (step_returns p rt) as Hs.
      destruct (caio_task_step run_coro p rt) as [[rt1 r]| |] eqn:Hstep;
        simpl; try done.
      destruct (step_table _ _ _ _ _ Hinv Hget Hstep) as (Hinv1 & Hsz1 & _).
      specialize (IH (S i) rt1 Hinv1). rewrite Hsz1 in IH.
      destruct (sweep run_coro fuel (S i) rt1) as [[rt2 log]| |];
        simpl; try done.
      apply IH; lia.
    + simpl. specialize (IH (S i) rt Hinv).
      destruct (sweep run_coro fuel (S i) rt) as [[rt2 log]| |];
        simpl; try done.
      apply IH; lia.
Qed.

End SchedulerFacts.

(** ** The sweep and the pass of the spec *)

Section PassFacts.
Import Runtime.

Implicit Types (rt : runtime) (task call p q : ptr) (a : caiotask_array).

Variable run_coro :
  nat → ptr → nat → runtime → result (runtime * caiocoro_status).
Hypothesis Hwb : well_behaved run_coro.

Lemma step_slot_table rt rt' (i : nat) found :
  table_inv rt →
  step_slot run_coro i rt = Ok (rt', found) →
  found = caiotask_array_get (_tasks rt) i
  ∧ table_inv rt'
  ∧ arr_size (_tasks rt') = arr_size (_tasks rt)
  ∧ (∀ (j : nat) q, j ≠ i →
        caiotask_array_get (_tasks rt) j = Some q →
        caiotask_array_get (_tasks rt') j = Some q).
Proof.
  intros Hinv. unfold step_slot.
  destruct (caiotask_array_get (_tasks rt) i) as [p|] eqn:Hget.
  - destruct (caio_task_step run_coro p rt) as [[rt0 r]| |] eqn:Hs;
      simpl; try done.
    intros [= <- <-]. split; [done|]. by eapply (step_table run_coro Hwb).
  - by intros [= <- <-].
Qed.

(** The loop of the code, which reads the size of the table at every
    turn, makes the pass of the spec over the indices of the table. *)
Lemma sweep_is_pass fuel :
  ∀ (i : nat) rt,
    table_inv rt →
    (arr_size (_tasks rt) - i ≤ fuel)%nat →
    sweep run_coro fuel i rt
    = round_robin_pass run_coro (seq i (arr_size (_tasks rt) - i)) rt.
Proof.
  induction fuel as [|fuel IH]; intros i rt Hinv Hfuel; simpl.
  - rewrite decide_False by lia.
    by replace (arr_size (_tasks rt) - i)%nat with 0%nat by lia.
  - destruct (decide (i < arr_size (_tasks rt))%nat) as [Hlt|Hge].
    2:{ by replace (arr_size (_tasks rt) - i)%nat with 0%nat by lia. }
    replace (arr_size (_tasks rt) - i)%nat
      with (S (arr_size (_tasks rt) - S i)) by lia.
    cbn [seq round_robin_pass].
    unfold step_slot.
    destruct (caiotask_array_get (_tasks rt) i) as [p|] eqn:Hget.
    + destruct (caio_task_step run_coro p rt) as [[rt1 r]| |] eqn:Hs;
        cbn [mbind result_bind]; try done.
      destruct (step_table run_coro Hwb _ _ _ _ _ Hinv Hget Hs)
        as (Hinv1 & Hsz1 & _).
      rewrite (IH (S i) rt1 Hinv1) by lia. by rewrite Hsz1.
    + cbn [mbind result_bind].
      by rewrite (IH (S i) rt Hinv) by lia.
Qed.

Lemma pass_app l1 : ∀ l2 rt,
  round_robin_pass run_coro (l1 ++ l2) rt
  = '(rt1, log1) ← round_robin_pass run_coro l1 rt;
    '(rt2, log2) ← round_robin_pass run_coro l2 rt1;
    Ok (rt2, log1 ++ log2).
Proof.
  induction l1 as [|i l1 IH]; intros l2 rt; simpl.
  - by destruct (round_robin_pass run_coro l2 rt) as [[rt2 log2]| |].
  - destruct (step_slot run_coro i rt) as [[rt1 found]| |]; simpl; try done.
    rewrite IH.
    destruct (round_robin_pass run_coro l1 rt1) as [[rt2 log1]| |];
      simpl; try done.
    by destruct (round_robin_pass run_coro l2 rt2) as [[rt3 log2]| |].
Qed.

(** A pass over the indices [i, ..., i + n - 1] keeps the table well
    formed, and every task that sits in a later slot stays there. *)
Lemma pass_keeps n :
  ∀ (i : nat) rt rt' log,
    table_inv rt →
    round_robin_pass run_coro (seq i n) rt = Ok (rt', log) →
    table_inv rt'
    ∧ arr_size (_tasks rt') = arr_size (_tasks rt)
    ∧ log.*1 = seq i n
    ∧ (∀ (j : nat) q, (i + n ≤ j)%nat →
          caiotask_array_get (_tasks rt) j = Some q →
          caiotask_array_get (_tasks rt') j = Some q).
Proof.
  induction n as [|n IH]; intros i rt rt' log Hinv; simpl.
  - by intros [= <- <-].
  - destruct (step_slot run_coro i rt) as [[rt1 found]| |] eqn:Hs;
      simpl; try done.
    destruct (step_slot_table _ _ _ _ Hinv Hs) as (_ & Hinv1 & Hsz1 & Hk1).
    destruct (round_robin_pass run_coro (seq (S i) n) rt1)
      as [[rt2 log']| |] eqn:Hrest; simpl; try done.
    intros [= <- <-].
    destruct (IH _ _ _ _ Hinv1 Hrest) as (Hinv2 & Hsz2 & Hidx & Hk2).
    split; [done|]. split; [congruence|]. split.
    + by rewrite fmap_cons, Hidx.
    + intros j q Hj Hget. apply Hk2; [lia|]. apply Hk1; [lia|done].
Qed.

(** In a pass that returns, every task registered when it starts is
    found in its slot when the pass gets there, and stepped. *)
Lemma pass_steps_registered n :
  ∀ rt rt' log (j : nat) p,
    table_inv rt →
    round_robin_pass run_coro (seq 0 n) rt = Ok (rt', log) →
    (j < n)%nat →
    caiotask_array_get (_tasks rt) j = Some p →
    ∃ rt_j log_j rt_j' (r : Z),
      round_robin_pass run_coro (seq 0 j) rt = Ok (rt_j, log_j)
      ∧ caiotask_array_get (_tasks rt_j) j = Some p
      ∧ caio_task_step run_coro p rt_j = Ok (rt_j', r)
      ∧ round_robin_pass run_coro (seq 0 (S j)) rt
        = Ok (rt_j', log_j ++ [(j, Some p)]).
Proof.
  intros rt rt' log j p Hinv Hpass Hj Hget.
  replace n with (j + S (n - S j))%nat in Hpass by lia.
  rewrite seq_app, pass_app in Hpass. cbn [seq round_robin_pass] in Hpass.
  destruct (round_robin_pass run_coro (seq 0 j) rt)
    as [[rt_j log_j]| |] eqn:Hpre; simpl in Hpass; try done.
  destruct (pass_keeps _ _ _ _ _ Hinv Hpre) as (Hinv_j & _ & _ & Hk).
  pose proof (Hk j p ltac:(lia) Hget) as Hget_j.
  revert Hpass. unfold step_slot at 1. rewrite Hget_j.
  destruct (caio_task_step run_coro p rt_j) as [[rt_j' r]| |] eqn:Hs;
    cbn [mbind result_bind]; try done.
  intros _. exists rt_j, log_j, rt_j', r.
  split; [done|]. split; [done|]. split; [done|].
  replace (S j) with (j + 1)%nat by lia.
  rewrite seq_app, pass_app, Hpre. cbn [mbind result_bind].
  cbn [seq round_robin_pass Nat.add]. unfold step_slot. rewrite Hget_j, Hs.
  reflexivity.
Qed.

End PassFacts.

Section RoundRobin.
Import Runtime.


Lemma returns_done_well_behaved : well_behaved returns_done.
Proof. intros c task s rt rt' st [= <- <-] Hinv. done. Qed.

Lemma two_tasks_table_inv : table_inv two_tasks.
Proof.
  split; [|split].
  - intros [|[|[|i]]] p; simpl; intros [= <-]; eexists;
      (split; [reflexivity|reflexivity]).
  - reflexivity.
  - vm_compute. intros H. discriminate H.
Qed.



(** The run of the loop on that state: one sweep that steps slots 0 and
    2 and passes the free slot 1, after which the table is empty and
    the loop returns. *)
Lemma caio_forever_two_tasks :
  caio_forever returns_done 2 two_tasks
  = Ok ({| task_heap := ∅; call_heap := ∅;
           _tasks := {| array := [None; None; None]; arr_count := 0 |};
           _callstack_size := 4 |},
        EXIT_SUCCESS,
        [[(0%nat, Some 0%nat); (1%nat, None); (2%nat, Some 1%nat)]]).
Proof. vm_compute. reflexivity. Qed.

End RoundRobin.

(** ** More on the task pool *)

Section StatusFlags.

Lemma flag_land (s s' : caio_taskstatus) :
  Z.land (flag s) (flag s') = if decide (s = s') then flag s else 0.
Proof. destruct s, s'; reflexivity. Qed.

Lemma flag_nonzero (s : caio_taskstatus) : flag s ≠ 0.
Proof. destruct s; discriminate. Qed.

(** X1: A status meets a mask built from enumerators exactly when it is one
    of them: the enumerators are distinct single bits. *)
Theorem status_meets_mask_iff_member :
  ∀ (s : caio_taskstatus) (l : list caio_taskstatus),
    Z.land (flag s) (mask_of l) ≠ 0 ↔ s ∈ l.
Proof.
  intros s l. induction l as [|s' l IH]; simpl.
  - rewrite Z.land_0_r. split; [done|]. intros H. by apply not_elem_of_nil in H.
  - rewrite Z.land_lor_distr_r, flag_land, elem_of_cons.
    destruct (decide (s = s')) as [->|Hne].
    + split; [by left|]. intros _ H.
      apply Z.lor_eq_0_iff in H as [H _]. by apply flag_nonzero in H.
    + rewrite Z.lor_0_l, IH. split; [by right|]. by intros [?|?].
Qed.

End StatusFlags.

Section TaskPoolMore.
Import TaskPool.

Implicit Types (pool : caio_taskpool) (ts : list caio_task).

Lemma scan_finds ts statuses n :
  ∀ (i k : nat) t,
    (i ≤ k < i + n)%nat →
    ts !! k = Some t → matches statuses t →
    ∃ k' : nat, scan ts statuses i n = Ok (Some k') ∧ (k' ≤ k)%nat.
Proof.
  induction n as [|n IH]; intros i k t Hk Ht Hm; [lia|].
  simpl. destruct (lookup_lt_is_Some_2 ts i) as [u Hu].
  { apply lookup_lt_Some in Ht. lia. }
  rewrite Hu.
  destruct (Z.eqb_spec (Z.land (status u) statuses) 0) as [Hz|Hnz].
  - destruct (decide (i = k)) as [->|Hne].
    + exfalso. apply Hm. congruence.
    + destruct (IH (S i) k t) as (k' & Hs & Hle); [lia|done|done|].
      exists k'. split; [done|lia].
  - exists i. split; [done|lia].
Qed.

(** X2: The answer of a scan, characterised: slot [k] is answered exactly
    when it lies between the cursor and [last], passes the test, and every
    slot from the cursor up to it exists and fails the test. *)
Theorem caio_taskpool_next_answers_iff :
  ∀ pool (task : option nat) (statuses : Z) (k : nat),
    caio_taskpool_next pool task statuses = Ok (Some k)
    ↔ (default 0%nat task ≤ k ≤ last pool)%nat
      ∧ (∃ t, tasks pool !! k = Some t ∧ matches statuses t)
      ∧ (∀ j : nat, (default 0%nat task ≤ j < k)%nat →
            ∃ u, tasks pool !! j = Some u ∧ ¬ matches statuses u).
Proof.
  intros pool task statuses k. split.
  - apply caio_taskpool_next_first_fit.
  - intros (Hk & (t & Ht & Hm) & Hb). unfold caio_taskpool_next.
    replace (match task with Some i => i | None => 0%nat end)
      with (default 0%nat task) by by destruct task.
    apply (scan_first_fit _ _ _ _ _ t); [lia|done|done|].
    intros j u Hj Hu. destruct (Hb j Hj) as (u' & Hu' & Hnm).
    rewrite Hu in Hu'. by injection Hu' as <-.
Qed.

(** X3: A scan does not miss: when some slot of the pool between the cursor
    and [last] passes the test, the scan answers a slot, that one or an
    earlier one; it neither answers [NULL] nor leaves the array. *)
Theorem caio_taskpool_next_finds :
  ∀ pool (task : option nat) (statuses : Z) (k : nat) (t : caio_task),
    (default 0%nat task ≤ k ≤ last pool)%nat →
    tasks pool !! k = Some t →
    matches statuses t →
    ∃ k' : nat,
      caio_taskpool_next pool task statuses = Ok (Some k') ∧ (k' ≤ k)%nat.
Proof.
  intros pool task statuses k t Hk Ht Hm. unfold caio_taskpool_next.
  replace (match task with Some i => i | None => 0%nat end)
    with (default 0%nat task) by by destruct task.
  apply (scan_finds _ _ _ _ k t); [lia|done|done].
Qed.

Lemma caio_taskpool_next_finds_witness :
  ∃ k' : nat,
    caio_taskpool_next (leased_pool 1 3) None CAIO_IDLE = Ok (Some k')
    ∧ (k' ≤ 2)%nat.
Proof.
  apply (caio_taskpool_next_finds (leased_pool 1 3) None CAIO_IDLE 2
           idle_task).
  - simpl. lia.
  - reflexivity.
  - intros H. vm_compute in H. discriminate H.
Defined.

Lemma matches_running_not_idle t :
  ¬ matches CAIO_IDLE (TASK_RESET t CAIO_RUNNING).
Proof. intros H. apply H. reflexivity. Qed.

Lemma matches_idle t : matches CAIO_IDLE (TASK_RESET t CAIO_IDLE).
Proof. intros H. vm_compute in H. discriminate H. Qed.

(** X5: What a lease does to the pool: the slot it answers is the first one
    with the idle flag; that slot becomes [CAIO_RUNNING] with [eno = 0]
    and [current = NULL], its [caio] field is kept, every other slot and
    the layout of the pool are untouched, and [count] goes up by one. *)
Theorem caio_taskpool_lease_takes_first_idle :
  ∀ pool pool1 (i : nat),
    caio_taskpool_lease pool = Ok (pool1, Some i) →
    ∃ t,
      tasks pool !! i = Some t
      ∧ matches CAIO_IDLE t
      ∧ (∀ j : nat, (j < i)%nat →
            ∃ u, tasks pool !! j = Some u ∧ ¬ matches CAIO_IDLE u)
      ∧ tasks pool1 !! i
        = Some {| caio := caio t; current := None;
                  status := CAIO_RUNNING; eno := 0 |}
      ∧ (∀ j : nat, j ≠ i → tasks pool1 !! j = tasks pool !! j)
      ∧ length (tasks pool1) = length (tasks pool)
      ∧ last pool1 = last pool
      ∧ size pool1 = size pool
      ∧ count pool1 = size_t_wrap (count pool + 1).
Proof.
  intros pool pool1 i H.
  apply lease_inv in H as (t & Ht & Hm & Hb & ->).
  exists t. cbn [tasks last size count set_count set_tasks].
  split; [done|]. split; [done|]. split; [done|]. split.
  { rewrite list_lookup_insert_eq; [done|]. by eapply lookup_lt_Some. }
  split.
  { intros j Hj. by rewrite list_lookup_insert_ne. }
  by rewrite length_insert.
Qed.

Lemma caio_taskpool_lease_takes_first_idle_witness :
  ∃ t,
    tasks (leased_pool 1 3) !! 1%nat = Some t
    ∧ matches CAIO_IDLE t
    ∧ (∀ j : nat, (j < 1)%nat →
          ∃ u, tasks (leased_pool 1 3) !! j = Some u ∧ ¬ matches CAIO_IDLE u)
    ∧ tasks (leased_pool 2 3) !! 1%nat
      = Some {| caio := caio t; current := None;
                status := CAIO_RUNNING; eno := 0 |}
    ∧ (∀ j : nat, j ≠ 1%nat →
          tasks (leased_pool 2 3) !! j = tasks (leased_pool 1 3) !! j)
    ∧ length (tasks (leased_pool 2 3)) = length (tasks (leased_pool 1 3))
    ∧ last (leased_pool 2 3) = last (leased_pool 1 3)
    ∧ size (leased_pool 2 3) = size (leased_pool 1 3)
    ∧ count (leased_pool 2 3) = size_t_wrap (count (leased_pool 1 3) + 1).
Proof.
  apply (caio_taskpool_lease_takes_first_idle (leased_pool 1 3)
           (leased_pool 2 3) 1%nat).
  reflexivity.
Defined.

(** X6: Two leases in a row never hand out the same slot. *)
Theorem caio_taskpool_lease_twice_distinct :
  ∀ pool pool1 pool2 (i j : nat),
    caio_taskpool_lease pool = Ok (pool1, Some i) →
    caio_taskpool_lease pool1 = Ok (pool2, Some j) →
    i ≠ j.
Proof.
  intros pool pool1 pool2 i j H1 H2.
  apply lease_inv in H1 as (t & Ht & _ & _ & ->).
  apply lease_inv in H2 as (u & Hu & Hm & _).
  intros <-. cbn [tasks set_count set_tasks] in Hu.
  rewrite list_lookup_insert_eq in Hu by by eapply lookup_lt_Some.
  injection Hu as <-. by apply matches_running_not_idle in Hm.
Qed.

Lemma caio_taskpool_lease_twice_distinct_witness : 0%nat ≠ 1%nat.
Proof.
  apply (caio_taskpool_lease_twice_distinct (leased_pool 0 3)
           (leased_pool 1 3) (leased_pool 2 3) 0 1).
  - reflexivity.
  - reflexivity.
Defined.

Lemma idle_filter_gain ts (i : nat) t t' :
  ts !! i = Some t →
  ¬ matches CAIO_IDLE t → matches CAIO_IDLE t' →
  length (filter (λ u, Z.land (status u) CAIO_IDLE ≠ 0) (<[i := t']> ts))
  = S (length (filter (λ u, Z.land (status u) CAIO_IDLE ≠ 0) ts)).
Proof.
  revert i. induction ts as [|u ts IH]; intros i Hi Hn Hy; [done|].
  destruct i as [|i]; simpl in *.
  - injection Hi as ->. rewrite !filter_cons. unfold matches in *.
    rewrite decide_True by done. rewrite decide_False by done. done.
  - rewrite !filter_cons.
    destruct (decide (Z.land (status u) CAIO_IDLE ≠ 0)); simpl;
      by rewrite (IH i).
Qed.

Lemma idle_filter_loss ts (i : nat) t t' :
  ts !! i = Some t →
  matches CAIO_IDLE t → ¬ matches CAIO_IDLE t' →
  length (filter (λ u, Z.land (status u) CAIO_IDLE ≠ 0) ts)
  = S (length (filter (λ u, Z.land (status u) CAIO_IDLE ≠ 0) (<[i := t']> ts))).
Proof.
  revert i. induction ts as [|u ts IH]; intros i Hi Hy Hn; [done|].
  destruct i as [|i]; simpl in *.
  - injection Hi as ->. rewrite !filter_cons. unfold matches in *.
    rewrite decide_True by done. rewrite decide_False by done. done.
  - rewrite !filter_cons.
    destruct (decide (Z.land (status u) CAIO_IDLE ≠ 0)); simpl;
      by rewrite (IH i).
Qed.

Lemma idle_slots_le pool : (idle_slots pool ≤ length (tasks pool))%nat.
Proof. apply length_filter. Qed.

(** X7: A lease keeps the books: if [count] was the number of slots that are
    not idle, it still is afterwards, one idle slot fewer, and it does not
    exceed the capacity. *)
Theorem caio_taskpool_lease_keeps_count :
  ∀ pool pool1 (i : nat),
    count_inv pool →
    caio_taskpool_lease pool = Ok (pool1, Some i) →
    count_inv pool1
    ∧ S (idle_slots pool1) = idle_slots pool
    ∧ count pool1 = count pool + 1
    ∧ count pool1 ≤ Z.of_nat (length (tasks pool1)).
Proof.
  intros pool pool1 i (Hc & Hsz) H.
  apply lease_inv in H as (t & Ht & Hm & _ & ->).
  pose proof (idle_slots_le pool) as Hle.
  assert (Hloss : idle_slots pool
                  = S (length (filter (λ u, Z.land (status u) CAIO_IDLE ≠ 0)
                                 (<[i := TASK_RESET t CAIO_RUNNING]>
                                    (tasks pool))))).
  { apply (idle_filter_loss _ _ t); [done|done|].
    apply matches_running_not_idle. }
  assert (Hwrap : size_t_wrap (count pool + 1) = count pool + 1).
  { unfold size_t_wrap, SIZE_MAX, SIZE_WIDTH in *.
    rewrite Z.mod_small; lia. }
  unfold count_inv.
  change (idle_slots (set_count (set_tasks pool
            (<[i := TASK_RESET t CAIO_RUNNING]> (tasks pool)))
            (size_t_wrap (count pool + 1))))
    with (length (filter (λ u, Z.land (status u) CAIO_IDLE ≠ 0)
                    (<[i := TASK_RESET t CAIO_RUNNING]> (tasks pool)))).
  cbn [tasks count set_count set_tasks].
  rewrite length_insert, Hwrap.
  repeat split; lia.
Qed.

Lemma caio_taskpool_lease_keeps_count_witness :
  count_inv (leased_pool 2 3)
  ∧ S (idle_slots (leased_pool 2 3)) = idle_slots (leased_pool 1 3)
  ∧ count (leased_pool 2 3) = count (leased_pool 1 3) + 1
  ∧ count (leased_pool 2 3) ≤ Z.of_nat (length (tasks (leased_pool 2 3))).
Proof.
  apply (caio_taskpool_lease_keeps_count (leased_pool 1 3)
           (leased_pool 2 3) 1%nat).
  - split; [reflexivity|]. vm_compute. intros H. discriminate H.
  - reflexivity.
Defined.

(** X8: Releasing a slot that is leased keeps the books as well: the release
    answers 0, the slot becomes idle, one more slot is idle and [count]
    is again the number of slots that are not idle. *)
Theorem caio_taskpool_release_keeps_count :
  ∀ pool (i : nat) (t : caio_task),
    count_inv pool →
    tasks pool !! i = Some t →
    ¬ matches CAIO_IDLE t →
    ∃ pool1,
      caio_taskpool_release (Some pool) (Some i) = Ok (Some pool1, 0)
      ∧ count_inv pool1
      ∧ idle_slots pool1 = S (idle_slots pool)
      ∧ count pool1 = count pool - 1
      ∧ tasks pool1 !! i
        = Some {| caio := caio t; current := None;
                  status := CAIO_IDLE; eno := 0 |}
      ∧ (∀ j : nat, j ≠ i → tasks pool1 !! j = tasks pool !! j).
Proof.
  intros pool i t (Hc & Hsz) Ht Hn.
  pose proof (lookup_lt_Some _ _ _ Ht) as Hlt.
  pose proof (idle_slots_le pool) as Hle.
  assert (Hgain : length (filter (λ u, Z.land (status u) CAIO_IDLE ≠ 0)
                            (<[i := TASK_RESET t CAIO_IDLE]> (tasks pool)))
                  = S (idle_slots pool)).
  { apply (idle_filter_gain _ _ t); [done|done|apply matches_idle]. }
  assert (Hroom : (idle_slots pool < length (tasks pool))%nat).
  { pose proof (length_filter (λ u, Z.land (status u) CAIO_IDLE ≠ 0)
                  (<[i := TASK_RESET t CAIO_IDLE]> (tasks pool))) as H.
    rewrite length_insert, Hgain in H. lia. }
  assert (Hwrap : size_t_wrap (count pool - 1) = count pool - 1).
  { unfold size_t_wrap, SIZE_MAX, SIZE_WIDTH in *.
    rewrite Z.mod_small; lia. }
  eexists. unfold caio_taskpool_release, reset_slot. rewrite Ht.
  cbn [mbind result_bind]. split; [reflexivity|].
  unfold count_inv, idle_slots.
  cbn [tasks count set_count set_tasks]. rewrite length_insert, Hgain, Hwrap.
  split; [split; [lia|done]|]. split; [done|]. split; [done|]. split.
  - by rewrite list_lookup_insert_eq.
  - intros j Hj. by rewrite list_lookup_insert_ne.
Qed.

Lemma caio_taskpool_release_keeps_count_witness :
  ∃ pool1,
    caio_taskpool_release (Some (leased_pool 2 3)) (Some 0%nat)
      = Ok (Some pool1, 0)
    ∧ count_inv pool1
    ∧ idle_slots pool1 = S (idle_slots (leased_pool 2 3))
    ∧ count pool1 = count (leased_pool 2 3) - 1
    ∧ tasks pool1 !! 0%nat
      = Some {| caio := caio running_task; current := None;
                status := CAIO_IDLE; eno := 0 |}
    ∧ (∀ j : nat, j ≠ 0%nat →
          tasks pool1 !! j = tasks (leased_pool 2 3) !! j).
Proof.
  apply (caio_taskpool_release_keeps_count (leased_pool 2 3) 0%nat
           running_task).
  - split; [reflexivity|]. vm_compute. intros H. discriminate H.
  - reflexivity.
  - intros H. apply H. reflexivity.
Defined.

(** X9: A released slot can be leased again: after a release of slot [i] the
    next lease succeeds and answers slot [i] or an idle slot before it. *)
Theorem caio_taskpool_release_then_lease :
  ∀ pool pool1 (i : nat),
    (i ≤ last pool)%nat →
    caio_taskpool_release (Some pool) (Some i) = Ok (Some pool1, 0) →
    ∃ pool2 (j : nat),
      caio_taskpool_lease pool1 = Ok (pool2, Some j) ∧ (j ≤ i)%nat.
Proof.
  intros pool pool1 i Hi. unfold caio_taskpool_release, reset_slot.
  destruct (tasks pool !! i) as [t|] eqn:Ht; [|done].
  cbn [mbind result_bind]. intros [= <-].
  pose proof (lookup_lt_Some _ _ _ Ht) as Hlt.
  set (pool1 := set_count _ _).
  assert (Hslot : tasks pool1 !! i = Some (TASK_RESET t CAIO_IDLE)).
  { subst pool1. cbn [tasks set_count set_tasks].
    by rewrite list_lookup_insert_eq. }
  destruct (scan_finds (tasks pool1) CAIO_IDLE (S (last pool1) - 0) 0 i
              (TASK_RESET t CAIO_IDLE)) as (j & Hj & Hle).
  { subst pool1. cbn [last set_count set_tasks]. lia. }
  { done. }
  { apply matches_idle. }
  unfold caio_taskpool_lease, caio_taskpool_next. rewrite Hj.
  cbn [mbind result_bind]. unfold reset_slot.
  apply scan_found in Hj as (_ & (u & Hu & _) & _). rewrite Hu.
  cbn [mbind result_bind]. by eexists _, j.
Qed.

Lemma caio_taskpool_release_then_lease_witness :
  ∃ pool2 (j : nat),
    caio_taskpool_lease
      {| tasks := [idle_task; running_task; running_task]; last := 3;
         count := 2; size := 3 |} = Ok (pool2, Some j)
    ∧ (j ≤ 0)%nat.
Proof.
  apply (caio_taskpool_release_then_lease (leased_pool 3 3) _ 0%nat).
  - simpl. lia.
  - reflexivity.
Defined.

Lemma caio_taskpool_next_restart_witness :
  caio_taskpool_next (leased_pool 1 3) (Some 1%nat) CAIO_IDLE
  = Ok (Some 1%nat).
Proof.
  apply (caio_taskpool_next_restart (leased_pool 1 3) None CAIO_IDLE 1).
  reflexivity.
Defined.

End TaskPoolMore.

(** ** More on the error macros *)

Section ErrorMacros.

(** X10: Throwing is an error only for a non-zero code: for [n] and
    [e] of type [int], after [CAIO_THROW(task, n)] the task has an error
    exactly when [n] is not 0, and [CAIO_ISERROR(task, e)] holds exactly
    for [e = n] with [n] not 0.  [CAIO_THROW(task, 0)] leaves the task as
    [CAIO_RETURN] does. *)
Theorem throw_is_error_iff_nonzero :
  ∀ (task : caio_task) (n e : Z),
    INT_MIN ≤ n ≤ INT_MAX →
    c_in_range c_int e →
    (CAIO_HASERROR (CAIO_THROW task n).1 = true ↔ n ≠ 0)
    ∧ (CAIO_ISERROR (CAIO_THROW task n).1 e = true ↔ n ≠ 0 ∧ e = n)
    ∧ (n = 0 → CAIO_THROW task n = CAIO_RETURN task).
Proof.
  intros task n e Hn He.
  unfold CAIO_ISERROR, CAIO_ISERROR_as, CAIO_HASERROR, int_eq,
    CAIO_THROW, CAIO_RETURN. simpl.
  rewrite int_wrap_id by done.
  rewrite andb_true_iff, negb_true_iff, Z.eqb_neq, Z.eqb_eq.
  split; [done|]. split; [|by intros ->].
  split; intros [? ?]; done.
Qed.

Lemma throw_is_error_iff_nonzero_witness :
  (CAIO_HASERROR (CAIO_THROW TaskPool.idle_task 5).1 = true ↔ 5 ≠ 0)
  ∧ (CAIO_ISERROR (CAIO_THROW TaskPool.idle_task 5).1 5 = true
     ↔ 5 ≠ 0 ∧ 5 = 5)
  ∧ (5 = 0 → CAIO_THROW TaskPool.idle_task 5 = CAIO_RETURN TaskPool.idle_task).
Proof.
  apply (throw_is_error_iff_nonzero TaskPool.idle_task 5 5).
  - unfold INT_MIN, INT_MAX. lia.
  - unfold c_in_range, INT_MIN, INT_MAX. lia.
Defined.

(** X11: No task is ever in error 0, and after [CAIO_CLEARERROR] no error
    code is reported at all; clearing changes nothing but [eno], and
    [CAIO_RETHROW] reports the same errors as before it. *)
Theorem clear_and_rethrow_error :
  ∀ (task : caio_task) (e : Z),
    CAIO_ISERROR task 0 = false
    ∧ CAIO_HASERROR (CAIO_CLEARERROR task).1 = false
    ∧ CAIO_ISERROR (CAIO_CLEARERROR task).1 e = false
    ∧ status (CAIO_CLEARERROR task).1 = status task
    ∧ current (CAIO_CLEARERROR task).1 = current task
    ∧ CAIO_HASERROR (CAIO_RETHROW task).1 = CAIO_HASERROR task
    ∧ CAIO_ISERROR (CAIO_RETHROW task).1 e = CAIO_ISERROR task e.
Proof.
  intros task e. split; [|done].
  unfold CAIO_ISERROR, CAIO_ISERROR_as, CAIO_HASERROR, int_eq.
  by destruct (Z.eqb_spec (eno task) 0).
Qed.

End ErrorMacros.

(** ** More on the ring set-up *)

Section IoUringMore.
Import IoUring.

(** X13: The result is one of -1, 0 and 1 and the descriptor is stored
    whatever happens; -1 is answered exactly when the set-up call fails
    or the first mapping does, and then [sqes] is left as it was. *)
Theorem caio_io_uring_init_results :
  ∀ (k : kernel) (u : caio_io_uring) (maxtasks : Z),
    let r := caio_io_uring_init k u maxtasks in
    let fd := (io_uring_setup k (unsigned_wrap maxtasks)).1 in
    let p := (io_uring_setup k (unsigned_wrap maxtasks)).2 in
    let sqlen := int_wrap (sq_off_array p + sq_entries p * sizeof_u32) in
    let cqlen :=
      int_wrap (cq_off_cqes p + cq_entries p * sizeof_io_uring_cqe) in
    let first_len :=
      if Z.land (features p) IORING_FEAT_SINGLE_MMAP =? 0
      then sqlen else Z.max sqlen cqlen in
    (r.2 = -1 ∨ r.2 = 0 ∨ r.2 = 1)
    ∧ ringfd r.1 = fd
    ∧ (r.2 = -1
       ↔ fd < 0 ∨ mmap k (size_t_wrap first_len) fd IORING_OFF_SQ_RING = None)
    ∧ (r.2 = -1 → sqes r.1 = sqes u).
Proof.
  intros k u maxtasks. cbv zeta. unfold caio_io_uring_init.
  destruct (io_uring_setup k (unsigned_wrap maxtasks)) as [fd p].
  cbn [fst snd].
  destruct (Z.ltb_spec fd 0) as [Hneg|Hpos]; cbn [fst snd ringfd sqes].
  { split; [by left|]. split; [done|]. split; [|done]. split; [by left|done]. }
  destruct (Z.land (features p) IORING_FEAT_SINGLE_MMAP =? 0); cbn [negb].
  - destruct (mmap k _ fd IORING_OFF_SQ_RING) as [sq|] eqn:Hsq;
      cbn [fst snd ringfd sqes].
    2:{ split; [by left|]. split; [done|]. split; [|done].
        split; [by right|done]. }
    destruct (mmap k _ fd IORING_OFF_CQ_RING) as [cq|];
      cbn [fst snd ringfd sqes].
    2:{ split; [by right; right|]. split; [done|].
        split; [|done]. split; [done|]. intros [?|?]; [lia|done]. }
    destruct (mmap k _ fd IORING_OFF_SQES) as [m|];
      cbn [fst snd ringfd sqes].
    + split; [by right; left|]. split; [done|].
      split; [|done]. split; [done|]. intros [?|?]; [lia|done].
    + split; [by right; right|]. split; [done|].
      split; [|done]. split; [done|]. intros [?|?]; [lia|done].
  - rewrite Z.gtb_ltb.
    replace (if _ <? _ then _ else _)
      with (Z.max (int_wrap (sq_off_array p + sq_entries p * sizeof_u32))
              (int_wrap (cq_off_cqes p
                         + cq_entries p * sizeof_io_uring_cqe))).
    2:{ destruct (Z.ltb_spec
                    (int_wrap (sq_off_array p + sq_entries p * sizeof_u32))
                    (int_wrap (cq_off_cqes p
                               + cq_entries p * sizeof_io_uring_cqe))); lia. }
    destruct (mmap k _ fd IORING_OFF_SQ_RING) as [sq|] eqn:Hsq;
      cbn [fst snd ringfd sqes].
    2:{ split; [by left|]. split; [done|]. split; [|done].
        split; [by right|done]. }
    destruct (mmap k _ fd IORING_OFF_SQES) as [m|];
      cbn [fst snd ringfd sqes].
    + split; [by right; left|]. split; [done|].
      split; [|done]. split; [done|]. intros [?|?]; [lia|done].
    + split; [by right; right|]. split; [done|].
      split; [|done]. split; [done|]. intros [?|?]; [lia|done].
Qed.

(** X14: With [IORING_FEAT_SINGLE_MMAP] the completion ring is not mapped on
    its own: the outcome does not depend on what a mapping at
    [IORING_OFF_CQ_RING] would answer. *)
Theorem caio_io_uring_init_single_mmap :
  ∀ (k k' : kernel) (u : caio_io_uring) (maxtasks : Z),
    io_uring_setup k (unsigned_wrap maxtasks)
      = io_uring_setup k' (unsigned_wrap maxtasks) →
    Z.land (features (io_uring_setup k (unsigned_wrap maxtasks)).2)
      IORING_FEAT_SINGLE_MMAP ≠ 0 →
    (∀ len fd off, off ≠ IORING_OFF_CQ_RING →
                   mmap k len fd off = mmap k' len fd off) →
    caio_io_uring_init k u maxtasks = caio_io_uring_init k' u maxtasks.
Proof.
  intros k k' u maxtasks Hsetup Hfeat Hmmap.
  unfold caio_io_uring_init. rewrite <- Hsetup.
  destruct (io_uring_setup k (unsigned_wrap maxtasks)) as [fd p].
  cbn [snd] in Hfeat.
  destruct (Z.eqb_spec (Z.land (features p) IORING_FEAT_SINGLE_MMAP) 0);
    [done|]. cbn [negb].
  rewrite <- !Hmmap by done. done.
Qed.

Lemma caio_io_uring_init_single_mmap_witness :
  caio_io_uring_init
    {| io_uring_setup := λ entries,
         (3, {| sq_entries := entries; cq_entries := 2 * entries;
                features := IORING_FEAT_SINGLE_MMAP;
                sq_off_array := 64; cq_off_cqes := 64 |});
       mmap := λ len fd off,
         if off =? IORING_OFF_CQ_RING then None else Some 4096%nat |}
    {| ringfd := 0; sqes := None |} 8
  = caio_io_uring_init
      {| io_uring_setup := λ entries,
           (3, {| sq_entries := entries; cq_entries := 2 * entries;
                  features := IORING_FEAT_SINGLE_MMAP;
                  sq_off_array := 64; cq_off_cqes := 64 |});
         mmap := λ len fd off, Some 4096%nat |}
      {| ringfd := 0; sqes := None |} 8.
Proof.
  apply caio_io_uring_init_single_mmap.
  - reflexivity.
  - discriminate.
  - intros len fd off Hoff. simpl.
    by destruct (Z.eqb_spec off IORING_OFF_CQ_RING).
Defined.

(** X15: The queue depth reaches the kernel as an [unsigned]: depths that
    differ by a multiple of [2 ^ 32] set up the same ring. *)
Theorem caio_io_uring_init_depth_truncated :
  ∀ (k : kernel) (u : caio_io_uring) (maxtasks j : Z),
    caio_io_uring_init k u (maxtasks + j * 2 ^ 32)
    = caio_io_uring_init k u maxtasks.
Proof.
  intros k u maxtasks j. unfold caio_io_uring_init, unsigned_wrap.
  by rewrite Z.mod_add.
Qed.

End IoUringMore.

(** ** More on tasks and frames *)

Section RuntimeMore.
Import Runtime.

Implicit Types (rt : runtime) (task call p q : ptr) (a : caiotask_array).

Lemma free_frames_spec frames :
  ∀ rt,
    NoDup frames →
    (∀ c, c ∈ frames → is_Some (call_heap rt !! c)) →
    ∃ rt',
      free_frames frames rt = Ok rt'
      ∧ task_heap rt' = task_heap rt
      ∧ _tasks rt' = _tasks rt
      ∧ _callstack_size rt' = _callstack_size rt
      ∧ ∀ c, call_heap rt' !! c
             = if decide (c ∈ frames) then None else call_heap rt !! c.
Proof.
  induction frames as [|call frames IH]; intros rt Hnd Hlive.
  - exists rt. split; [done|]. split; [done|]. split; [done|].
    split; [done|]. intros c. rewrite decide_False; [done|].
    apply not_elem_of_nil.
  - apply NoDup_cons in Hnd as [Hnotin Hnd].
    destruct (Hlive call) as [frame Hframe]; [apply list_elem_of_here|].
    simpl. unfold free_call. rewrite Hframe. cbn [mbind result_bind].
    destruct (IH (set_call_heap rt (delete call (call_heap rt))) Hnd)
      as (rt' & Hfree & Hh & Ha & Hc & Hlook).
    { intros c Hc. rt_simpl. rewrite lookup_delete_ne.
      - apply Hlive. by apply list_elem_of_further.
      - intros <-. done. }
    exists rt'. split; [done|]. split; [done|]. split; [done|].
    split; [done|]. intros c. rewrite Hlook. rt_simpl.
    destruct (decide (c = call)) as [->|Hne].
    + rewrite lookup_delete_eq. rewrite (decide_True (P := call ∈ call :: frames))
        by apply list_elem_of_here. by destruct (decide (call ∈ frames)).
    + rewrite lookup_delete_ne by done.
      destruct (decide (c ∈ frames)) as [Hin|Hout].
      * rewrite decide_True; [done|]. by apply list_elem_of_further.
      * rewrite decide_False; [done|]. rewrite elem_of_cons.
        by intros [?|?].
Qed.

Lemma dispose_frees :
  ∀ rt task (t : caiotask),
    task_heap rt !! task = Some t →
    NoDup (stack_items (callstack t)) →
    (∀ c, c ∈ stack_items (callstack t) → is_Some (call_heap rt !! c)) →
    ∃ rt',
      _caio_task_dispose task rt = Ok rt'
      ∧ task_heap rt' = delete task (task_heap rt)
      ∧ (∀ c, call_heap rt' !! c
              = if decide (c ∈ stack_items (callstack t)) then None
                else call_heap rt !! c)
      ∧ _tasks rt' = caiotask_array_del (_tasks rt) (index t)
      ∧ _callstack_size rt' = _callstack_size rt.
Proof.
  intros rt task t Ht Hnd Hlive.
  destruct (free_frames_spec (reverse (stack_items (callstack t))) rt)
    as (rt1 & Hfree & Hh & Ha & Hc & Hlook).
  { by rewrite reverse_Permutation. }
  { intros c Hc. apply Hlive. by apply elem_of_reverse. }
  unfold _caio_task_dispose, load_task. rewrite Ht.
  cbn [mbind result_bind]. rewrite Hfree. cbn [mbind result_bind].
  unfold free_task. rt_simpl. rewrite Hh, Ht.
  eexists. split; [reflexivity|]. rt_simpl. rewrite Ha, Hc.
  split; [done|]. split; [|done]. intros c. rewrite Hlook.
  destruct (decide (c ∈ stack_items (callstack t))) as [Hin|Hout].
  - rewrite decide_True; [done|]. by apply elem_of_reverse.
  - rewrite decide_False; [done|]. by rewrite elem_of_reverse.
Qed.

(** X17: [_caio_task_dispose] on a registered task that is in order frees
    exactly the task and the frames on its stack, clears the slot the
    task is registered in and no other, lowers the count of the table by
    one and leaves the table well formed. *)
Theorem caio_task_dispose_frees_task_and_frames :
  ∀ rt (i : nat) task (t : caiotask),
    table_inv rt →
    caiotask_array_get (_tasks rt) i = Some task →
    task_heap rt !! task = Some t →
    task_ok rt t →
    ∃ rt',
      _caio_task_dispose task rt = Ok rt'
      ∧ task_heap rt' = delete task (task_heap rt)
      ∧ (∀ c, call_heap rt' !! c
              = if decide (c ∈ stack_items (callstack t)) then None
                else call_heap rt !! c)
      ∧ (∀ j : nat,
            caiotask_array_get (_tasks rt') j
            = if decide (j = i) then None
              else caiotask_array_get (_tasks rt) j)
      ∧ arr_count (_tasks rt') = arr_count (_tasks rt) - 1
      ∧ table_inv rt'.
Proof.
  intros rt i task t Htab Hget Ht (Hnd & Hlive & _).
  destruct (dispose_frees rt task t Ht Hnd Hlive)
    as (rt' & Hd & Hh & Hlook & Ha & _).
  destruct (table_inv_dispose rt rt' i task Htab Hget Hd) as (Htab' & _).
  destruct Htab as (Hreg & Hcnt & Hsz).
  destruct (Hreg i task Hget) as (t0 & Ht0 & Hidx).
  assert (t0 = t) as -> by congruence.
  pose proof (get_lt _ _ _ Hget) as Hlt.
  exists rt'. split; [done|]. split; [done|]. split; [done|].
  rewrite Ha, Hidx. split; [|split; [|done]].
  - intros j. by apply del_get.
  - unfold caiotask_array_del. rewrite decide_True by lia.
    cbn [arr_count]. apply get_Some in Hget.
    pose proof (occupied_clear _ _ _ Hget) as Hocc.
    pose proof (length_filter (λ slot : option ptr, slot ≠ None)
                  (array (_tasks rt))) as Hle.
    unfold occupied in Hcnt. unfold arr_size in Hsz, Hlt.
    unfold size_t_wrap. apply Z.mod_small.
    unfold SIZE_MAX in Hsz. lia.
Qed.

Lemma caio_task_dispose_frees_task_and_frames_witness :
  ∃ rt',
    _caio_task_dispose 1%nat two_tasks = Ok rt'
    ∧ task_heap rt' = delete 1%nat (task_heap two_tasks)
    ∧ (∀ c, call_heap rt' !! c
            = if decide (c ∈ stack_items (callstack (one_frame_task 2 1%nat)))
              then None
              else call_heap two_tasks !! c)
    ∧ (∀ j : nat,
          caiotask_array_get (_tasks rt') j
          = if decide (j = 2%nat) then None
            else caiotask_array_get (_tasks two_tasks) j)
    ∧ arr_count (_tasks rt') = arr_count (_tasks two_tasks) - 1
    ∧ table_inv rt'.
Proof.
  apply (caio_task_dispose_frees_task_and_frames two_tasks 2%nat 1%nat
           (one_frame_task 2 1%nat)).
  - apply two_tasks_table_inv.
  - reflexivity.
  - reflexivity.
  - split; [apply NoDup_singleton|]. split.
    + intros c Hc. apply list_elem_of_singleton in Hc as ->. by eexists.
    + split; [reflexivity|]. split; [simpl; lia|]. vm_compute.
      intros H. discriminate H.
Defined.

(** X16: [caio_init] that gets its memory sets up a table of [maxtasks] free
    slots, well formed and with no live task, so that [caio_forever]
    returns at once; one that does not answers [-1] and changes nothing.
    Allocated objects are not touched either way. *)
Theorem caio_init_empty_table :
  ∀ (array_ok : bool) (maxtasks callstack_size : nat) rt,
    Z.of_nat maxtasks ≤ SIZE_MAX →
    let rt' := (caio_init array_ok maxtasks callstack_size rt).1 in
    let r := (caio_init array_ok maxtasks callstack_size rt).2 in
    task_heap rt' = task_heap rt
    ∧ call_heap rt' = call_heap rt
    ∧ (array_ok = false → r = -1 ∧ rt' = rt)
    ∧ (array_ok = true →
       r = 0
       ∧ table_inv rt'
       ∧ arr_size (_tasks rt') = maxtasks
       ∧ _callstack_size rt' = callstack_size
       ∧ (∀ i : nat, caiotask_array_get (_tasks rt') i = None)
       ∧ ∀ run_coro (fuel : nat),
           caio_forever run_coro (S fuel) rt' = Ok (rt', EXIT_SUCCESS, [])).
Proof.
  intros array_ok maxtasks callstack_size rt Hmax. cbv zeta.
  destruct array_ok.
  - split; [done|]. split; [done|]. split; [done|]. intros _.
    split; [done|]. split; [by apply caio_init_table_inv|].
    unfold caio_init, arr_size, caiotask_array_get.
    cbn [fst _tasks _callstack_size array].
    split; [by rewrite length_replicate|]. split; [done|]. split; [|done].
    intros i.
    destruct (replicate maxtasks None !! i) as [slot|] eqn:Hi; [|done].
    by apply lookup_replicate in Hi as [-> _].
  - split; [done|]. split; [done|]. split; [done|]. done.
Qed.

Lemma caio_init_empty_table_witness :
  task_heap (caio_init true 2 4 no_runtime).1 = task_heap no_runtime
  ∧ call_heap (caio_init true 2 4 no_runtime).1 = call_heap no_runtime
  ∧ (true = false →
     (caio_init true 2 4 no_runtime).2 = -1
     ∧ (caio_init true 2 4 no_runtime).1 = no_runtime)
  ∧ (true = true →
     (caio_init true 2 4 no_runtime).2 = 0
     ∧ table_inv (caio_init true 2 4 no_runtime).1
     ∧ arr_size (_tasks (caio_init true 2 4 no_runtime).1) = 2%nat
     ∧ _callstack_size (caio_init true 2 4 no_runtime).1 = 4%nat
     ∧ (∀ i : nat,
           caiotask_array_get (_tasks (caio_init true 2 4 no_runtime).1) i
           = None)
     ∧ ∀ run_coro (fuel : nat),
         caio_forever run_coro (S fuel) (caio_init true 2 4 no_runtime).1
         = Ok ((caio_init true 2 4 no_runtime).1, EXIT_SUCCESS, [])).
Proof.
  apply (caio_init_empty_table true 2 4 no_runtime).
  vm_compute. intros H. discriminate H.
Defined.

Lemma first_free_slot a (k : nat) :
  array a !! k = Some None →
  (∀ j : nat, (j < k)%nat → array a !! j ≠ Some None) →
  list_find (λ slot : option ptr, slot = None) (array a) = Some (k, None).
Proof.
  intros Hk Hbefore. apply list_find_Some. split; [done|]. split; [done|].
  intros j slot Hj Hlt ->. by apply (Hbefore j).
Qed.

(** X18: A [caio_task_new] whose allocations succeed, with a free slot in the
    table and room for a frame, answers 0.  The new task sits in the
    first free slot [k], with [index = k], one active frame and that frame
    alone on its stack, holding the coroutine and the state given; the
    other slots, tasks and frames are as before and the count is one
    higher. *)
Theorem caio_task_new_registers :
  ∀ rt (block : caiotask) (cblock : caiocall) (c s : nat) (k : nat),
    array (_tasks rt) !! k = Some None →
    (∀ j : nat, (j < k)%nat → array (_tasks rt) !! j ≠ Some None) →
    (0 < _callstack_size rt)%nat →
    let task : ptr := fresh (dom (task_heap rt)) in
    let call : ptr := fresh (dom (call_heap rt)) in
    ∃ rt',
      caio_task_new (Some block) true (Some cblock) c s rt = Ok (rt', 0)
      ∧ caiotask_array_get (_tasks rt') k = Some task
      ∧ (∀ j : nat, j ≠ k →
            caiotask_array_get (_tasks rt') j
            = caiotask_array_get (_tasks rt) j)
      ∧ arr_count (_tasks rt') = size_t_wrap (arr_count (_tasks rt) + 1)
      ∧ task_heap rt'
        = <[task := {| index := Z.of_nat k; running_coros := 1;
                       callstack := {| stack_items := [call];
                                       stack_size := _callstack_size rt |} |}]>
            (task_heap rt)
      ∧ call_heap rt'
        = <[call := {| line := line cblock; coro := c; state := s |}]>
            (call_heap rt)
      ∧ task_heap rt !! task = None
      ∧ call_heap rt !! call = None.
Proof.
  intros rt block cblock c s k Hk Hbefore Hroom. cbv zeta.
  unfold caio_task_new. cbn [negb].
  unfold caiotask_array_append. rt_simpl.
  rewrite (first_free_slot _ k Hk Hbefore).
  destruct (Z.eqb_spec (Z.of_nat k) (-1)) as [?|_]; [lia|].
  unfold caio_call_new, load_task. rt_simpl.
  rewrite lookup_insert_eq. rt_simpl.
  unfold caiocall_stack_push. cbn [callstack stack_items stack_size length].
  rewrite decide_True by lia. cbn [Z.eqb].
  eexists. split; [reflexivity|]. rt_simpl.
  cbn [index running_coros callstack stack_items stack_size app].
  unfold caiotask_array_get. cbn [array arr_count].
  split.
  { rewrite list_lookup_insert_eq; [done|]. by eapply lookup_lt_Some. }
  split.
  { intros j Hj. by rewrite list_lookup_insert_ne. }
  split; [done|]. split.
  { by rewrite !insert_insert_eq. }
  split; [done|]. split; [apply fresh_task_not_live|apply fresh_call_not_live].
Qed.

Lemma caio_task_new_registers_witness :
  ∃ rt',
    caio_task_new (Some dirty_task_block) true (Some dirty_call_block) 8 9
      two_tasks = Ok (rt', 0)
    ∧ caiotask_array_get (_tasks rt') 1 = Some 2%nat
    ∧ (∀ j : nat, j ≠ 1%nat →
          caiotask_array_get (_tasks rt') j
          = caiotask_array_get (_tasks two_tasks) j)
    ∧ arr_count (_tasks rt') = size_t_wrap (arr_count (_tasks two_tasks) + 1)
    ∧ task_heap rt'
      = <[2%nat := {| index := 1; running_coros := 1;
                      callstack := {| stack_items := [2%nat];
                                      stack_size := 4 |} |}]>
          (task_heap two_tasks)
    ∧ call_heap rt'
      = <[2%nat := {| line := 7; coro := 8; state := 9 |}]>
          (call_heap two_tasks)
    ∧ task_heap two_tasks !! 2%nat = None
    ∧ call_heap two_tasks !! 2%nat = None.
Proof.
  apply (caio_task_new_registers two_tasks dirty_task_block
           dirty_call_block 8 9 1).
  - reflexivity.
  - intros [|j] Hj; [discriminate|lia].
  - simpl. lia.
Defined.

(** X19: With a call-stack bound of 0 no task can be created: whatever the
    allocator answers, [caio_task_new] does not return 0. *)
Theorem caio_task_new_needs_stack_room :
  ∀ rt mt (stack_ok : bool) mc (c s : nat) rt',
    _callstack_size rt = 0%nat →
    caio_task_new mt stack_ok mc c s rt ≠ Ok (rt', 0).
Proof.
  intros rt mt stack_ok mc c s rt' Hzero. unfold caio_task_new.
  destruct mt as [block|]; [|done].
  destruct stack_ok; cbn [negb].
  2:{ destruct (free_task _ _); simpl; done. }
  destruct (caiotask_array_append _ _) as [table idx].
  destruct (idx =? -1).
  { destruct (_caio_task_dispose _ _); simpl; done. }
  unfold caio_call_new. destruct mc as [cblock|].
  - unfold load_task. rt_simpl. rewrite lookup_insert_eq. rt_simpl.
    unfold caiocall_stack_push. cbn [callstack stack_items stack_size length].
    rewrite Hzero. rewrite decide_False by lia.
    destruct (_caio_task_dispose _ _) as [rt1| |]; simpl; try done.
    destruct (_caio_task_dispose _ rt1); simpl; done.
  - destruct (_caio_task_dispose _ _) as [rt1| |]; simpl; try done.
    destruct (_caio_task_dispose _ rt1); simpl; done.
Qed.

Lemma caio_task_new_needs_stack_room_witness :
  caio_task_new (Some dirty_task_block) true (Some dirty_call_block) 8 9
    (caio_init true 2 0 no_runtime).1
  ≠ Ok ((caio_init true 2 0 no_runtime).1, 0).
Proof.
  apply caio_task_new_needs_stack_room. reflexivity.
Defined.

(** X20: [caio_call_new] on a task whose stack is full answers [-1] and
    disposes the task: the task and all its frames are freed and its
    [index] is cleared in the table.  The frame allocated for the call is
    not freed: it stays allocated and no stack holds it. *)
Theorem caio_call_new_full_stack :
  ∀ rt task (t : caiotask) (cblock : caiocall) (c s : nat),
    task_heap rt !! task = Some t →
    length (stack_items (callstack t)) = stack_size (callstack t) →
    NoDup (stack_items (callstack t)) →
    (∀ f, f ∈ stack_items (callstack t) → is_Some (call_heap rt !! f)) →
    let call : ptr := fresh (dom (call_heap rt)) in
    ∃ rt',
      caio_call_new (Some cblock) task c s rt = Ok (rt', -1)
      ∧ task_heap rt' = delete task (task_heap rt)
      ∧ _tasks rt' = caiotask_array_del (_tasks rt) (index t)
      ∧ (∀ f, f ∈ stack_items (callstack t) → call_heap rt' !! f = None)
      ∧ call_heap rt' !! call
        = Some {| line := line cblock; coro := c; state := s |}
      ∧ call ∉ stack_items (callstack t).
Proof.
  intros rt task t cblock c s Ht Hfull Hnd Hlive. cbv zeta.
  set (call := fresh (dom (call_heap rt)) : ptr).
  assert (Hfresh : call ∉ stack_items (callstack t)).
  { intros Hin. destruct (Hlive _ Hin) as [f Hf].
    subst call. by rewrite fresh_call_not_live in Hf. }
  unfold caio_call_new, load_task. rt_simpl. rewrite Ht. rt_simpl.
  unfold caiocall_stack_push. rewrite decide_False by lia.
  fold call.
  match goal with
  | |- context [_caio_task_dispose task ?r] => set (rt1 := r)
  end.
  destruct (dispose_frees rt1 task t)
    as (rt' & Hd & Hh & Hlook & Ha & _); [done|done| |].
  { intros f Hf. subst rt1. rt_simpl.
    rewrite lookup_insert_ne by (intros <-; done). by apply Hlive. }
  rewrite Hd. cbn [mbind result_bind]. exists rt'.
  split; [done|]. split; [done|]. split; [done|]. split.
  - intros f Hf. rewrite Hlook. by rewrite decide_True.
  - split; [|done]. rewrite Hlook, decide_False by done.
    subst rt1. rt_simpl. apply lookup_insert_eq.
Qed.

Lemma caio_call_new_full_stack_witness :
  ∃ rt',
    caio_call_new (Some dirty_call_block) 0%nat 8 9 full_stack_task
      = Ok (rt', -1)
    ∧ task_heap rt' = delete 0%nat (task_heap full_stack_task)
    ∧ _tasks rt' = caiotask_array_del (_tasks full_stack_task) (index full_task)
    ∧ (∀ f, f ∈ stack_items (callstack full_task) → call_heap rt' !! f = None)
    ∧ call_heap rt' !! (fresh (dom (call_heap full_stack_task)) : ptr)
      = Some {| line := line dirty_call_block; coro := 8; state := 9 |}
    ∧ (fresh (dom (call_heap full_stack_task)) : ptr)
      ∉ stack_items (callstack full_task).
Proof.
  apply (caio_call_new_full_stack full_stack_task 0%nat full_task
           dirty_call_block 8 9).
  - reflexivity.
  - reflexivity.
  - apply NoDup_singleton.
  - intros f Hf. apply list_elem_of_singleton in Hf as ->. by eexists.
Defined.

(** X23: A nested call runs first: after a successful [caio_call_new]
    the next [caio_task_step] of the task is one invocation of the
    coroutine just pushed, on the task and with the state given, followed
    by work that does not depend on the bodies: whatever the bodies are,
    that one is invoked and no other. *)
Theorem caio_task_step_runs_new_call :
  ∀ rt rt' task (cblock : caiocall) (c s : nat),
    caio_call_new (Some cblock) task c s rt = Ok (rt', 0) →
    ∃ k : runtime * caiocoro_status → result (runtime * Z),
      ∀ run : nat → ptr → nat → runtime
              → result (runtime * caiocoro_status),
        caio_task_step run task rt' = run c task s rt' ≫= k.
Proof.
  intros rt rt' task cblock c s Hcall.
  revert Hcall. unfold caio_call_new, load_task. rt_simpl.
  destruct (task_heap rt !! task) as [t|] eqn:Ht; rt_simpl; [|done].
  unfold caiocall_stack_push. case_decide.
  2:{ destruct (_caio_task_dispose task _); simpl; done. }
  intros [= <-].
  eapply (step_invocation _ task _ (fresh (dom (call_heap rt)))
            {| line := line cblock; coro := c; state := s |}).
  - rt_simpl. apply lookup_insert_eq.
  - unfold caiocall_stack_last. cbn [callstack stack_items]. apply last_snoc.
  - rt_simpl. apply lookup_insert_eq.
Qed.

Lemma caio_task_step_runs_new_call_witness :
  ∃ k : runtime * caiocoro_status → result (runtime * Z),
    ∀ run : nat → ptr → nat → runtime
            → result (runtime * caiocoro_status),
      caio_task_step run 0%nat
        {| task_heap :=
             {[ 0%nat := {| index := 0; running_coros := 1;
                            callstack := {| stack_items := [0%nat];
                                            stack_size := 4 |} |} ]};
           call_heap := {[ 0%nat := {| line := 7; coro := 8; state := 9 |} ]};
           _tasks := {| array := [Some 0%nat]; arr_count := 1 |};
           _callstack_size := 4 |}
      = run 8%nat 0%nat 9%nat
          {| task_heap :=
               {[ 0%nat := {| index := 0; running_coros := 1;
                              callstack := {| stack_items := [0%nat];
                                              stack_size := 4 |} |} ]};
             call_heap :=
               {[ 0%nat := {| line := 7; coro := 8; state := 9 |} ]};
             _tasks := {| array := [Some 0%nat]; arr_count := 1 |};
             _callstack_size := 4 |} ≫= k.
Proof.
  apply (caio_task_step_runs_new_call stackless_task _ 0%nat
           dirty_call_block 8 9).
  reflexivity.
Defined.

Lemma caio_task_step_again_witness :
  caio_task_step (λ c task s rt, Ok (rt, ccs_again)) 0%nat two_tasks
  = Ok (two_tasks, 0).
Proof.
  apply (caio_task_step_again (λ c task s rt, Ok (rt, ccs_again))
           two_tasks 0%nat (one_frame_task 0 0%nat) 0%nat sample_frame
           two_tasks (one_frame_task 0 0%nat)).
  - reflexivity.
  - reflexivity.
  - reflexivity.
  - reflexivity.
  - reflexivity.
  - discriminate.
Defined.

End RuntimeMore.

(** ** The scheduler touches no freed object *)

Section SafetyFacts.
Import Runtime.

Implicit Types (rt : runtime) (task call p q : ptr) (a : caiotask_array)
  (t u : caiotask).

Lemma task_ok_mono rt rt' t :
  (∀ c, c ∈ stack_items (callstack t) →
        is_Some (call_heap rt !! c) → is_Some (call_heap rt' !! c)) →
  task_ok rt t → task_ok rt' t.
Proof.
  intros Hmono (Hnd & Hlive & Hrc & Hlen & Hsz).
  split; [done|]. split; [|done]. intros c Hc. by apply Hmono, Hlive.
Qed.

Lemma int_wrap_small z : 0 ≤ z ≤ INT_MAX → int_wrap z = z.
Proof.
  intros Hz. unfold int_wrap, INT_MAX in *. rewrite Z.mod_small by lia. lia.
Qed.

(** Pushing a fresh frame on one task keeps the frames in order. *)
Lemma frames_inv_push rt task t call (frame : caiocall) :
  frames_inv rt →
  task_heap rt !! task = Some t →
  call_heap rt !! call = None →
  (length (stack_items (callstack t)) < stack_size (callstack t))%nat →
  frames_inv
    {| task_heap :=
         <[task := {| index := index t;
                      running_coros := int_wrap (running_coros t + 1);
                      callstack :=
                        {| stack_items := stack_items (callstack t) ++ [call];
                           stack_size := stack_size (callstack t) |} |}]>
           (task_heap rt);
       call_heap := <[call := frame]> (call_heap rt);
       _tasks := _tasks rt;
       _callstack_size := _callstack_size rt |}.
Proof.
  intros (Hok & Hdisj) Ht Hfresh Hroom.
  assert (Hnotin : ∀ q u, task_heap rt !! q = Some u →
                          call ∉ stack_items (callstack u)).
  { intros q u Hu Hin. destruct (Hok q u Hu) as (_ & Hlive & _).
    destruct (Hlive call Hin) as [f Hf]. congruence. }
  destruct (Hok task t Ht) as (Hnd & Hlive & Hrc & Hlen & Hsz).
  split.
  - intros q u. cbn [task_heap]. destruct (decide (q = task)) as [->|Hne].
    + rewrite lookup_insert_eq. intros [= <-].
      unfold task_ok. cbn [callstack stack_items stack_size running_coros
                           call_heap].
      split.
      { apply NoDup_app. split; [done|]. split; [|apply NoDup_singleton].
        intros c Hc Hc'. apply list_elem_of_singleton in Hc' as ->.
        by apply (Hnotin task t). }
      split.
      { intros c Hc. apply elem_of_app in Hc as [Hc|Hc].
        - rewrite lookup_insert_ne; [by apply Hlive|].
          intros <-. by apply (Hnotin task t).
        - apply list_elem_of_singleton in Hc as ->.
          rewrite lookup_insert_eq. by eexists. }
      rewrite length_app. cbn [length].
      split; [|split; [lia|done]].
      rewrite int_wrap_small; lia.
    + rewrite lookup_insert_ne by done. intros Hu.
      apply (task_ok_mono rt); [|by eapply Hok].
      intros c Hc Hl. cbn [call_heap].
      destruct (decide (c = call)) as [->|Hc'].
      * rewrite lookup_insert_eq. by eexists.
      * by rewrite lookup_insert_ne.
  - intros q q' u u' c Hne. cbn [task_heap].
    destruct (decide (q = task)) as [->|Hq];
      destruct (decide (q' = task)) as [->|Hq']; try done.
    + rewrite lookup_insert_eq, lookup_insert_ne by done.
      intros [= <-] Hu'. cbn [callstack stack_items].
      intros Hc. apply elem_of_app in Hc as [Hc|Hc].
      * by apply (Hdisj task q' t u').
      * apply list_elem_of_singleton in Hc as ->. by apply (Hnotin q' u').
    + rewrite lookup_insert_ne, lookup_insert_eq by done.
      intros Hu [= <-]. cbn [callstack stack_items].
      intros Hc Hc'. apply elem_of_app in Hc' as [Hc'|Hc'].
      * by apply (Hdisj q task u t c).
      * apply list_elem_of_singleton in Hc' as ->. by apply (Hnotin q u).
    + rewrite !lookup_insert_ne by done. by apply Hdisj.
Qed.

(** Popping and freeing the innermost frame of one task keeps the frames
    in order. *)
Lemma frames_inv_pop rt task t below call :
  frames_inv rt →
  task_heap rt !! task = Some t →
  stack_items (callstack t) = below ++ [call] →
  frames_inv
    {| task_heap :=
         <[task := {| index := index t;
                      running_coros := running_coros t - 1;
                      callstack :=
                        {| stack_items := below;
                           stack_size := stack_size (callstack t) |} |}]>
           (task_heap rt);
       call_heap := delete call (call_heap rt);
       _tasks := _tasks rt;
       _callstack_size := _callstack_size rt |}.
Proof.
  intros (Hok & Hdisj) Ht Hitems.
  destruct (Hok task t Ht) as (Hnd & Hlive & Hrc & Hlen & Hsz).
  rewrite Hitems in Hnd, Hlive, Hrc, Hlen.
  apply NoDup_app in Hnd as (Hnd & Hsep & _).
  rewrite length_app in Hrc, Hlen. cbn [length] in Hrc, Hlen.
  assert (Hother : ∀ q u, q ≠ task → task_heap rt !! q = Some u →
                          call ∉ stack_items (callstack u)).
  { intros q u Hne Hu. apply (Hdisj task q t u); [done|done|done|].
    rewrite Hitems. apply elem_of_app. right. apply list_elem_of_here. }
  split.
  - intros q u. cbn [task_heap]. destruct (decide (q = task)) as [->|Hne].
    + rewrite lookup_insert_eq. intros [= <-].
      unfold task_ok. cbn [callstack stack_items stack_size running_coros
                           call_heap].
      split; [done|]. split.
      { intros c Hc. rewrite lookup_delete_ne.
        - apply Hlive. apply elem_of_app. by left.
        - intros <-. apply (Hsep call Hc). apply list_elem_of_here. }
      split; [lia|]. split; [lia|done].
    + rewrite lookup_insert_ne by done. intros Hu.
      apply (task_ok_mono rt); [|by eapply Hok].
      intros c Hc Hl. cbn [call_heap]. rewrite lookup_delete_ne; [done|].
      intros <-. by apply (Hother q u).
  - intros q q' u u' c Hne. cbn [task_heap].
    destruct (decide (q = task)) as [->|Hq];
      destruct (decide (q' = task)) as [->|Hq']; try done.
    + rewrite lookup_insert_eq, lookup_insert_ne by done.
      intros [= <-] Hu'. cbn [callstack stack_items]. intros Hc.
      apply (Hdisj task q' t u'); [done|done|done|].
      rewrite Hitems. apply elem_of_app. by left.
    + rewrite lookup_insert_ne, lookup_insert_eq by done.
      intros Hu [= <-]. cbn [callstack stack_items]. intros Hc Hc'.
      apply (Hdisj q task u t c); [done|done|done|done|].
      rewrite Hitems. apply elem_of_app. by left.
    + rewrite !lookup_insert_ne by done. by apply Hdisj.
Qed.

(** Freeing a task together with its only frame keeps the frames in
    order. *)
Lemma frames_inv_drop rt task t call a' :
  frames_inv rt →
  task_heap rt !! task = Some t →
  stack_items (callstack t) = [call] →
  frames_inv
    {| task_heap := delete task (task_heap rt);
       call_heap := delete call (call_heap rt);
       _tasks := a';
       _callstack_size := _callstack_size rt |}.
Proof.
  intros (Hok & Hdisj) Ht Hitems.
  assert (Hother : ∀ q u, q ≠ task → task_heap rt !! q = Some u →
                          call ∉ stack_items (callstack u)).
  { intros q u Hne Hu. apply (Hdisj task q t u); [done|done|done|].
    rewrite Hitems. apply list_elem_of_here. }
  split.
  - intros q u. cbn [task_heap]. destruct (decide (q = task)) as [->|Hne].
    + by rewrite lookup_delete_eq.
    + rewrite lookup_delete_ne by done. intros Hu.
      apply (task_ok_mono rt); [|by eapply Hok].
      intros c Hc Hl. cbn [call_heap]. rewrite lookup_delete_ne; [done|].
      intros <-. by apply (Hother q u).
  - intros q q' u u' c Hne. cbn [task_heap].
    destruct (decide (q = task)) as [->|Hq]; [by rewrite lookup_delete_eq|].
    destruct (decide (q' = task)) as [->|Hq'].
    { rewrite (lookup_delete_eq (task_heap rt)). done. }
    rewrite !lookup_delete_ne by done. by apply Hdisj.
Qed.

(** X21: A successful [caio_call_new] on a registered or unregistered task
    keeps the whole state in order. *)
Theorem caio_call_new_keeps_order :
  ∀ rt rt' (m : option caiocall) task (c s : nat),
    runtime_inv rt →
    caio_call_new m task c s rt = Ok (rt', 0) →
    runtime_inv rt'
    ∧ _tasks rt' = _tasks rt
    ∧ ∃ t u call,
        task_heap rt !! task = Some t
        ∧ task_heap rt' !! task = Some u
        ∧ call_heap rt !! call = None
        ∧ stack_items (callstack u) = stack_items (callstack t) ++ [call]
        ∧ running_coros u = running_coros t + 1.
Proof.
  intros rt rt' m task c s (Htab & Hfr & Hrun & Hbound) Hcall.
  destruct (caio_call_new_table _ _ _ _ _ _ Htab Hcall) as (Htab' & Ha).
  revert Hcall. unfold caio_call_new.
  destruct m as [block|].
  2:{ destruct (_caio_task_dispose task rt); simpl; done. }
  unfold load_task. rt_simpl.
  destruct (task_heap rt !! task) as [t|] eqn:Ht; rt_simpl; [|done].
  unfold caiocall_stack_push. case_decide as Hroom.
  2:{ destruct (_caio_task_dispose task _); simpl; done. }
  intros [= <-]. rt_simpl.
  pose proof (fresh_call_not_live rt) as Hfresh.
  set (call := fresh (dom (call_heap rt)) : ptr) in *.
  pose proof (frames_inv_push rt task t call
                {| line := line block; coro := c; state := s |}
                Hfr Ht Hfresh Hroom) as Hfr'.
  destruct Hfr as (Hok & _). destruct (Hok task t Ht) as (_ & _ & Hrc & Hlen & Hsz).
  split; [|split; [done|]].
  - split; [done|]. split; [done|]. split; [|done].
    intros i p u. cbn [_tasks task_heap]. intros Hget.
    destruct (decide (p = task)) as [->|Hne].
    + rewrite lookup_insert_eq. intros [= <-]. cbn [callstack stack_items].
      intros Hnil. by apply app_eq_nil in Hnil as [_ ?].
    + rewrite lookup_insert_ne by done. intros Hu. by apply (Hrun i p u).
  - eexists t, _, call. split; [done|]. split; [apply lookup_insert_eq|].
    split; [done|]. split; [done|]. cbn [running_coros].
    rewrite int_wrap_small; lia.
Qed.

Lemma caio_task_new_success_inv mt stack_ok mc (c s : nat) rt rt' :
  caio_task_new mt stack_ok mc c s rt = Ok (rt', 0) →
  ∃ (k : nat) (cblock : caiocall),
    array (_tasks rt) !! k = Some None
    ∧ (0 < _callstack_size rt)%nat
    ∧ rt' = {| task_heap :=
                 <[fresh (dom (task_heap rt)) :=
                     {| index := Z.of_nat k; running_coros := int_wrap (0 + 1);
                        callstack :=
                          {| stack_items := [fresh (dom (call_heap rt))];
                             stack_size := _callstack_size rt |} |}]>
                   (task_heap rt);
               call_heap :=
                 <[fresh (dom (call_heap rt)) :=
                     {| line := line cblock; coro := c; state := s |}]>
                   (call_heap rt);
               _tasks :=
                 {| array := <[k := Some (fresh (dom (task_heap rt)))]>
                               (array (_tasks rt));
                    arr_count := size_t_wrap (arr_count (_tasks rt) + 1) |};
               _callstack_size := _callstack_size rt |}.
Proof.
  unfold caio_task_new.
  destruct mt as [block|]; [|done].
  destruct stack_ok; cbn [negb].
  2:{ destruct (free_task _ _); simpl; done. }
  unfold caiotask_array_append. rt_simpl.
  destruct (list_find (λ slot, slot = None) (array (_tasks rt)))
    as [[k x]|] eqn:Hfind.
  2:{ simpl. destruct (_caio_task_dispose _ _); simpl; done. }
  apply list_find_Some in Hfind as (Hk & -> & _).
  destruct (Z.eqb_spec (Z.of_nat k) (-1)) as [?|_]; [lia|].
  unfold caio_call_new. destruct mc as [cblock|].
  2:{ destruct (_caio_task_dispose _ _) as [rt1| |]; simpl; try done.
      destruct (_caio_task_dispose _ rt1); simpl; done. }
  unfold load_task. rt_simpl. rewrite lookup_insert_eq. rt_simpl.
  unfold caiocall_stack_push. cbn [callstack stack_items stack_size length].
  case_decide as Hroom.
  2:{ destruct (_caio_task_dispose _ _) as [rt1| |]; simpl; try done.
      destruct (_caio_task_dispose _ rt1); simpl; done. }
  cbn [Z.eqb]. intros [= <-]. exists k, cblock.
  split; [done|]. split; [lia|]. rt_simpl.
  cbn [index running_coros callstack stack_items stack_size app].
  by rewrite !insert_insert_eq.
Qed.

(** X22: A successful [caio_task_new] keeps the whole state in order. *)
Theorem caio_task_new_keeps_order :
  ∀ rt rt' mt (stack_ok : bool) mc (c s : nat),
    runtime_inv rt →
    caio_task_new mt stack_ok mc c s rt = Ok (rt', 0) →
    runtime_inv rt'
    ∧ arr_size (_tasks rt') = arr_size (_tasks rt)
    ∧ (∀ (i : nat) p, caiotask_array_get (_tasks rt) i = Some p →
                      caiotask_array_get (_tasks rt') i = Some p)
    ∧ (∀ p t, task_heap rt !! p = Some t → task_heap rt' !! p = Some t).
Proof.
  intros rt rt' mt stack_ok mc c s (Htab & Hfr & Hrun & Hbound) Hnew.
  destruct (caio_task_new_table _ _ _ _ _ _ _ Htab Hnew)
    as (Htab' & Hsz' & Hkeep').
  apply caio_task_new_success_inv in Hnew as (k & cblock & Hk & Hroom & ->).
  pose proof (fresh_task_not_live rt) as Hft.
  pose proof (fresh_call_not_live rt) as Hfc.
  set (task := fresh (dom (task_heap rt)) : ptr) in *.
  set (call := fresh (dom (call_heap rt)) : ptr) in *.
  assert (Hnotin : ∀ q u, task_heap rt !! q = Some u →
                          call ∉ stack_items (callstack u)).
  { intros q u Hu Hin. destruct Hfr as (Hok & _).
    destruct (Hok q u Hu) as (_ & Hlive & _).
    destruct (Hlive call Hin) as [f Hf]. congruence. }
  split; [|split; [done|split; [done|]]].
  2:{ intros p t Hp. cbn [task_heap]. rewrite lookup_insert_ne; [done|].
      intros <-. congruence. }
  split; [done|]. split; [|split; [|done]].
  - destruct Hfr as (Hok & Hdisj). split.
    + intros q u. cbn [task_heap].
      destruct (decide (q = task)) as [->|Hne].
      * rewrite lookup_insert_eq. intros [= <-]. unfold task_ok.
        cbn [callstack stack_items stack_size running_coros call_heap length].
        split; [apply NoDup_singleton|]. split.
        { intros f Hf. apply list_elem_of_singleton in Hf as ->.
          rewrite lookup_insert_eq. by eexists. }
        split; [reflexivity|]. split; [lia|done].
      * rewrite lookup_insert_ne by done. intros Hu.
        apply (task_ok_mono rt); [|by eapply Hok].
        intros f Hf Hl. cbn [call_heap].
        destruct (decide (f = call)) as [->|Hf'].
        -- rewrite lookup_insert_eq. by eexists.
        -- by rewrite lookup_insert_ne.
    + intros q q' u u' f Hne. cbn [task_heap].
      destruct (decide (q = task)) as [->|Hq];
        destruct (decide (q' = task)) as [->|Hq']; try done.
      * rewrite lookup_insert_eq, lookup_insert_ne by done.
        intros [= <-] Hu'. cbn [callstack stack_items]. intros Hf.
        apply list_elem_of_singleton in Hf as ->. by apply (Hnotin q' u').
      * rewrite lookup_insert_ne, lookup_insert_eq by done.
        intros Hu [= <-]. cbn [callstack stack_items]. intros Hf Hf'.
        apply list_elem_of_singleton in Hf' as ->. by apply (Hnotin q u).
      * rewrite !lookup_insert_ne by done. by apply Hdisj.
  - intros i p u. cbn [_tasks task_heap]. intros Hget.
    destruct (decide (p = task)) as [->|Hne].
    + rewrite lookup_insert_eq. by intros [= <-].
    + rewrite lookup_insert_ne by done. intros Hu.
      apply get_Some in Hget. cbn [array] in Hget.
      destruct (decide (i = k)) as [->|Hi].
      * rewrite list_lookup_insert_eq in Hget by by eapply lookup_lt_Some.
        congruence.
      * rewrite list_lookup_insert_ne in Hget by done.
        apply get_Some in Hget. by eapply Hrun.
Qed.


Lemma two_tasks_lookup p t :
  task_heap two_tasks !! p = Some t →
  (p = 0%nat ∧ t = one_frame_task 0 0%nat)
  ∨ (p = 1%nat ∧ t = one_frame_task 2 1%nat).
Proof.
  unfold two_tasks. cbn [task_heap]. intros Hp.
  apply lookup_insert_Some in Hp as [[<- <-]|[Hne Hp]]; [by left|].
  apply lookup_singleton_Some in Hp as [<- <-]. by right.
Qed.

Lemma two_tasks_runtime_inv : runtime_inv two_tasks.
Proof.
  split; [apply two_tasks_table_inv|]. split; [|split].
  - split.
    + intros p t Hp.
      apply two_tasks_lookup in Hp as [[-> ->]|[-> ->]];
        (split; [apply NoDup_singleton|]; split;
         [intros c Hc; apply list_elem_of_singleton in Hc as ->;
          eexists; reflexivity|];
         split; [reflexivity|]; split; [simpl; lia|];
         vm_compute; intros H; discriminate H).
    + intros p p' t t' c Hne Hp Hp'.
      apply two_tasks_lookup in Hp as [[-> ->]|[-> ->]];
        apply two_tasks_lookup in Hp' as [[-> ->]|[-> ->]]; try done;
        simpl; intros Hc Hc';
        apply list_elem_of_singleton in Hc as ->;
        by apply list_elem_of_singleton in Hc'.
  - intros i p t _ Hp.
    by apply two_tasks_lookup in Hp as [[-> ->]|[-> ->]].
  - vm_compute. intros H. discriminate H.
Qed.

Lemma caio_call_new_keeps_order_witness :
  ∃ rt' t u call,
    caio_call_new (Some dirty_call_block) 0%nat 8 9 two_tasks = Ok (rt', 0)
    ∧ runtime_inv rt'
    ∧ _tasks rt' = _tasks two_tasks
    ∧ task_heap two_tasks !! 0%nat = Some t
    ∧ task_heap rt' !! 0%nat = Some u
    ∧ call_heap two_tasks !! call = None
    ∧ stack_items (callstack u) = stack_items (callstack t) ++ [call]
    ∧ running_coros u = running_coros t + 1.
Proof.
  destruct (caio_call_new_keeps_order two_tasks _ (Some dirty_call_block)
              0%nat 8 9 two_tasks_runtime_inv eq_refl)
    as (Hinv & Ha & t & u & call & H).
  eexists _, t, u, call. split; [reflexivity|]. split; [exact Hinv|].
  split; [exact Ha|]. exact H.
Defined.

Lemma caio_task_new_keeps_order_witness :
  ∃ rt',
    caio_task_new (Some dirty_task_block) true (Some dirty_call_block) 8 9
      two_tasks = Ok (rt', 0)
    ∧ runtime_inv rt'
    ∧ arr_size (_tasks rt') = arr_size (_tasks two_tasks)
    ∧ (∀ (i : nat) p, caiotask_array_get (_tasks two_tasks) i = Some p →
                      caiotask_array_get (_tasks rt') i = Some p)
    ∧ (∀ p t, task_heap two_tasks !! p = Some t →
              task_heap rt' !! p = Some t).
Proof.
  eexists. split; [vm_compute; reflexivity|].
  apply (caio_task_new_keeps_order two_tasks _ (Some dirty_task_block) true
           (Some dirty_call_block) 8 9 two_tasks_runtime_inv).
  vm_compute. reflexivity.
Defined.

Lemma pop_and_free_top rt p t below call (frame : caiocall) :
  task_heap rt !! p = Some t →
  stack_items (callstack t) = below ++ [call] →
  call_heap rt !! call = Some frame →
  pop_and_free p call rt
  = Ok {| task_heap :=
            <[p := {| index := index t;
                      running_coros := int_wrap (running_coros t - 1);
                      callstack :=
                        {| stack_items := below;
                           stack_size := stack_size (callstack t) |} |}]>
              (task_heap rt);
          call_heap := delete call (call_heap rt);
          _tasks := _tasks rt;
          _callstack_size := _callstack_size rt |}.
Proof.
  intros Ht Hitems Hframe. unfold pop_and_free, load_task.
  rewrite Ht. cbn [mbind result_bind]. unfold free_call. rt_simpl.
  rewrite Hframe. rt_simpl. rewrite lookup_insert_eq. rt_simpl.
  cbn [index running_coros callstack caiocall_stack_pop fst].
  by rewrite insert_insert_eq, Hitems, removelast_last.
Qed.

Section Bodies.
Variable run_coro :
  nat → ptr → nat → runtime → result (runtime * caiocoro_status).
Hypothesis Hsafe : safe_bodies run_coro.

Lemma step_safe rt (i : nat) p :
  runtime_inv rt →
  caiotask_array_get (_tasks rt) i = Some p →
  ∃ rt',
    caio_task_step run_coro p rt = Ok (rt', 0)
    ∧ runtime_inv rt'
    ∧ arr_size (_tasks rt') = arr_size (_tasks rt)
    ∧ (∀ (j : nat) q, j ≠ i →
          caiotask_array_get (_tasks rt) j = Some q →
          caiotask_array_get (_tasks rt') j = Some q).
Proof.
  intros Hinv Hget.
  destruct Hinv as (Htab & Hfr & Hrun & Hbound).
  destruct Htab as (Hreg & Hcnt & Hsz).
  destruct (Hreg i p Hget) as (t & Ht & Hidx).
  pose proof (Hrun i p t Hget Ht) as Hne.
  destruct (last (stack_items (callstack t))) as [call|] eqn:Htop.
  2:{ by apply last_None in Htop. }
  assert (Hlive : is_Some (call_heap rt !! call)).
  { destruct Hfr as (Hok & _). destruct (Hok p t Ht) as (_ & Hl & _).
    apply Hl. by eapply last_Some_elem_of. }
  destruct Hlive as [frame Hframe].
  destruct (Hsafe (coro frame) p (state frame) rt i t call)
    as (rt1 & st & Hrc & Hinv1 & Hsz1 & Hkeep1 & Hdone); try done.
  unfold caio_task_step, load_task, load_call.
  rewrite Ht. cbn [mbind result_bind].
  unfold caiocall_stack_last. rewrite Htop, Hframe.
  cbn [mbind result_bind]. rewrite Hrc. cbn [mbind result_bind].
  pose proof (Hkeep1 i p Hget) as Hget1.
  destruct Hinv1 as (Htab1 & Hfr1 & Hrun1 & Hbound1).
  pose proof Htab1 as (Hreg1 & Hcnt1 & Hsz1').
  destruct (Hreg1 i p Hget1) as (t1 & Ht1 & Hidx1).
  pose proof Hfr1 as (Hok1 & Hdisj1).
  destruct (Hok1 p t1 Ht1) as (Hnd1 & Hlive1 & Hrc1 & Hlen1 & Hmax1).
  destruct st; cbn [is_done].
  - (* the body is done: pop, free, decrement *)
    destruct (Hdone eq_refl) as (t1' & Ht1' & Htop1).
    assert (t1' = t1) as -> by congruence.
    apply last_Some in Htop1 as [below Hitems].
    destruct (Hlive1 call) as [frame1 Hframe1].
    { rewrite Hitems. apply elem_of_app. right. apply list_elem_of_here. }
    rewrite (pop_and_free_top rt1 p t1 below call frame1) by done.
    cbn [mbind result_bind]. rt_simpl. rewrite lookup_insert_eq.
    cbn [mbind result_bind running_coros].
    assert (Hdepth : running_coros t1 - 1 = Z.of_nat (length below)).
    { rewrite Hrc1, Hitems, length_app. cbn [length]. lia. }
    assert (Hbelow : (length below < stack_size (callstack t1))%nat).
    { rewrite Hitems, length_app in Hlen1. cbn [length] in Hlen1. lia. }
    rewrite Hdepth, int_wrap_small by lia.
    pose proof (frames_inv_pop rt1 p t1 below call Hfr1 Ht1 Hitems) as Hfr2.
    rewrite Hdepth in Hfr2.
    set (rt2 := {| task_heap := <[p := _]> (task_heap rt1);
                   call_heap := delete call (call_heap rt1);
                   _tasks := _tasks rt1;
                   _callstack_size := _callstack_size rt1 |}) in *.
    assert (Htab2 : table_inv rt2).
    { eapply (table_inv_update rt1 rt2 p t1); [done|done| |done|done].
      reflexivity. }
    destruct (Z.eqb_spec (Z.of_nat (length below)) 0) as [Hz|Hnz].
    + (* the last frame: the task is disposed *)
      assert (below = []) as -> by (apply length_zero_iff_nil; lia).
      destruct (_caio_task_dispose p rt2) as [rt3| |] eqn:Hd.
      2,3: (rewrite (dispose_empty_stack rt2 p _ (lookup_insert_eq _ _ _)
                       eq_refl) in Hd; done).
      cbn [mbind result_bind]. exists rt3.
      assert (Hget2 : caiotask_array_get (_tasks rt2) i = Some p) by done.
      destruct (table_inv_dispose rt2 rt3 i p Htab2 Hget2 Hd)
        as (Htab3 & Hsz3 & Hkeep3).
      rewrite (dispose_empty_stack rt2 p _ (lookup_insert_eq _ _ _) eq_refl)
        in Hd.
      injection Hd as <-.
      split; [done|]. split.
      { split; [done|]. split; [|split; [|done]].
        - subst rt2. rt_simpl. rewrite delete_insert_eq.
          by apply (frames_inv_drop rt1 p t1 call).
        - intros j q u. subst rt2. rt_simpl. cbn [index].
          rewrite delete_insert_eq. intros Hj Hu.
          destruct (decide (q = p)) as [->|Hq];
            [by rewrite lookup_delete_eq in Hu|].
          rewrite lookup_delete_ne in Hu by done.
          rewrite Hidx1, del_get in Hj by by eapply get_lt.
          destruct (decide (j = i)); [done|]. by apply (Hrun1 j q u). }
      split; [by rewrite Hsz3|].
      intros j q Hj Hq. apply Hkeep3; [done|]. by apply Hkeep1.
    + (* frames are left: the task stays *)
      exists rt2. split; [done|]. split.
      { split; [done|]. split; [done|]. split; [|done].
        intros j q u. subst rt2. rt_simpl. intros Hj.
        destruct (decide (q = p)) as [->|Hq].
        - rewrite lookup_insert_eq. intros [= <-].
          cbn [callstack stack_items]. intros ->. by apply Hnz.
        - rewrite lookup_insert_ne by done. by apply (Hrun1 j q u). }
      split; [done|]. intros j q _. apply Hkeep1.
  - (* the body is not done: nothing is popped *)
    cbn [mbind result_bind]. rewrite Ht1. cbn [mbind result_bind].
    assert (Hpos : running_coros t1 ≠ 0).
    { rewrite Hrc1. pose proof (Hrun1 i p t1 Hget1 Ht1) as Hne1.
      destruct (stack_items (callstack t1)); [done|]. simpl. lia. }
    destruct (Z.eqb_spec (running_coros t1) 0); [done|].
    exists rt1. split; [done|]. split; [done|]. split; [done|].
    intros j q _. apply Hkeep1.
Qed.

Lemma sweep_safe fuel :
  ∀ (i : nat) rt,
    runtime_inv rt →
    (arr_size (_tasks rt) - i ≤ fuel)%nat →
    ∃ rt' log,
      sweep run_coro fuel i rt = Ok (rt', log)
      ∧ runtime_inv rt'
      ∧ arr_size (_tasks rt') = arr_size (_tasks rt).
Proof.
  induction fuel as [|fuel IH]; intros i rt Hinv Hfuel; simpl.
  - rewrite decide_False by lia. by eexists rt, [].
  - destruct (decide (i < arr_size (_tasks rt))%nat) as [Hlt|Hge].
    2:{ by eexists rt, []. }
    destruct (caiotask_array_get (_tasks rt) i) as [p|] eqn:Hget.
    + destruct (step_safe rt i p Hinv Hget) as (rt1 & Hs & Hinv1 & Hsz1 & _).
      rewrite Hs. cbn [mbind result_bind].
      destruct (IH (S i) rt1 Hinv1) as (rt2 & log & Hsw & Hinv2 & Hsz2);
        [lia|].
      rewrite Hsw. cbn [mbind result_bind].
      eexists _, _. split; [reflexivity|]. split; [done|]. congruence.
    + cbn [mbind result_bind].
      destruct (IH (S i) rt Hinv) as (rt2 & log & Hsw & Hinv2 & Hsz2); [lia|].
      rewrite Hsw. cbn [mbind result_bind].
      eexists _, _. split; [reflexivity|]. done.
Qed.

Lemma forever_safe fuel :
  ∀ rt,
    runtime_inv rt →
    caio_forever run_coro fuel rt = Timeout
    ∨ ∃ rt' logs,
        caio_forever run_coro fuel rt = Ok (rt', EXIT_SUCCESS, logs)
        ∧ runtime_inv rt'
        ∧ arr_count (_tasks rt') = 0.
Proof.
  induction fuel as [|fuel IH]; intros rt Hinv; simpl; [by left|].
  destruct (Z.eqb_spec (arr_count (_tasks rt)) 0) as [Hz|Hnz].
  - right. by eexists rt, [].
  - destruct (sweep_safe (arr_size (_tasks rt)) 0 rt Hinv)
      as (rt1 & log & Hsw & Hinv1 & _); [lia|].
    rewrite Hsw. cbn [mbind result_bind].
    destruct (IH rt1 Hinv1) as [Ht|(rt2 & logs & Hf & Hinv2 & Hz2)].
    + left. by rewrite Ht.
    + right. rewrite Hf. cbn [mbind result_bind]. by eexists _, _.
Qed.

End Bodies.


Lemma returns_done_safe_bodies : safe_bodies returns_done.
Proof.
  intros c p s rt i t call Hinv Hget Ht Htop.
  exists rt, ccs_done. split; [done|]. split; [done|]. split; [done|].
  split; [done|]. intros _. by exists t.
Qed.


End SafetyFacts.

(** ** Tasks that finish *)

Section Termination.
Import Runtime.

Implicit Types (rt : runtime) (task call p q : ptr) (t u : caiotask).

Variable run_coro :
  nat → ptr → nat → runtime → result (runtime * caiocoro_status).
Hypothesis Hfinish : finish_at_once run_coro.

Lemma finish_at_once_safe : safe_bodies run_coro.
Proof.
  intros c p s rt i t call Hinv Hget Ht Htop.
  exists rt, ccs_done. split; [apply Hfinish|]. split; [done|].
  split; [done|]. split; [done|]. intros _. by exists t.
Qed.

Lemma step_finishing rt (i : nat) p t below call :
  runtime_inv rt →
  caiotask_array_get (_tasks rt) i = Some p →
  task_heap rt !! p = Some t →
  stack_items (callstack t) = below ++ [call] →
  caio_task_step run_coro p rt
  = Ok (if decide (below = [])
        then {| task_heap := delete p (task_heap rt);
                call_heap := delete call (call_heap rt);
                _tasks := caiotask_array_del (_tasks rt) (Z.of_nat i);
                _callstack_size := _callstack_size rt |}
        else {| task_heap :=
                  <[p := {| index := index t;
                            running_coros := Z.of_nat (length below);
                            callstack :=
                              {| stack_items := below;
                                 stack_size := stack_size (callstack t) |} |}]>
                    (task_heap rt);
                call_heap := delete call (call_heap rt);
                _tasks := _tasks rt;
                _callstack_size := _callstack_size rt |}, 0).
Proof.
  intros (Htab & Hfr & Hrun & Hbound) Hget Ht Hitems.
  destruct Htab as (Hreg & _).
  destruct (Hreg i p Hget) as (t' & Ht' & Hidx).
  assert (t' = t) as -> by congruence.
  destruct Hfr as (Hok & _).
  destruct (Hok p t Ht) as (_ & Hlive & Hrc & Hlen & Hmax).
  destruct (Hlive call) as [frame Hframe].
  { rewrite Hitems. apply elem_of_app. right. apply list_elem_of_here. }
  rewrite Hitems, length_app in Hrc, Hlen. cbn [length] in Hrc, Hlen.
  unfold caio_task_step, load_task, load_call.
  rewrite Ht. cbn [mbind result_bind].
  unfold caiocall_stack_last. rewrite Hitems, last_snoc, Hframe.
  cbn [mbind result_bind]. rewrite Hfinish. cbn [mbind result_bind is_done].
  rewrite (pop_and_free_top rt p t below call frame) by done.
  cbn [mbind result_bind]. rt_simpl. rewrite lookup_insert_eq.
  cbn [mbind result_bind running_coros].
  replace (running_coros t - 1) with (Z.of_nat (length below)) by lia.
  rewrite int_wrap_small by lia.
  destruct (Z.eqb_spec (Z.of_nat (length below)) 0) as [Hz|Hnz].
  - assert (below = []) as -> by (apply length_zero_iff_nil; lia).
    rewrite decide_True by done.
    rewrite (dispose_empty_stack _ p
               {| index := index t;
                  running_coros := Z.of_nat (length (@nil ptr));
                  callstack :=
                    {| stack_items := [];
                       stack_size := stack_size (callstack t) |} |});
      [|cbn [task_heap]; apply lookup_insert_eq|done].
    cbn [mbind result_bind]. rt_simpl. cbn [index].
    by rewrite delete_insert_eq, Hidx.
  - rewrite decide_False; [done|]. intros ->. by apply Hnz.
Qed.

(** While a sweep is at index [i]: the tasks in the slots before [i] are
    at most [d] deep, the others at most [d + 1]. *)
Lemma sweep_progress (d : nat) fuel :
  ∀ (i : nat) rt,
    runtime_inv rt →
    (∀ (j : nat) p t,
        caiotask_array_get (_tasks rt) j = Some p →
        task_heap rt !! p = Some t →
        (length (stack_items (callstack t)) ≤ S d)%nat
        ∧ ((j < i)%nat → (length (stack_items (callstack t)) ≤ d)%nat)) →
    (arr_size (_tasks rt) - i ≤ fuel)%nat →
    ∃ rt' log,
      sweep run_coro fuel i rt = Ok (rt', log)
      ∧ runtime_inv rt'
      ∧ depth_le d rt'.
Proof.
  induction fuel as [|fuel IH]; intros i rt Hinv Hdepth Hfuel; simpl.
  - rewrite decide_False by lia. exists rt, []. split; [done|].
    split; [done|]. intros j p t Hj Hp.
    apply (Hdepth j p t Hj Hp). apply get_lt in Hj. lia.
  - destruct (decide (i < arr_size (_tasks rt))%nat) as [Hlt|Hge].
    2:{ exists rt, []. split; [done|]. split; [done|].
        intros j p t Hj Hp. apply (Hdepth j p t Hj Hp).
        apply get_lt in Hj. lia. }
    destruct (caiotask_array_get (_tasks rt) i) as [p|] eqn:Hget.
    + pose proof Hinv as ((Hreg & _) & (Hok & _) & Hrun & _).
      destruct (Hreg i p Hget) as (t & Ht & Hidx).
      pose proof (Hrun i p t Hget Ht) as Hne.
      destruct (last (stack_items (callstack t))) as [call|] eqn:Htop.
      2:{ by apply last_None in Htop. }
      apply last_Some in Htop as [below Hitems].
      destruct (step_safe run_coro finish_at_once_safe rt i p Hinv Hget)
        as (rt1 & Hs & Hinv1 & Hsz1 & _).
      rewrite Hs. cbn [mbind result_bind].
      rewrite (step_finishing rt i p t below call) in Hs by done.
      injection Hs as Hrt1.
      destruct (IH (S i) rt1 Hinv1) as (rt2 & log & Hsw & Hinv2 & Hd2).
      * intros j q u Hj Hq.
        destruct (Hdepth i p t Hget Ht) as (Hdp & _).
        rewrite Hitems, length_app in Hdp. cbn [length] in Hdp.
        subst rt1. destruct (decide (below = [])) as [->|Hbelow].
        -- (* disposed *)
           cbn [_tasks task_heap] in Hj, Hq.
           rewrite del_get in Hj by done.
           destruct (decide (j = i)) as [->|Hji]; [done|].
           destruct (decide (q = p)) as [->|Hqp];
             [by rewrite lookup_delete_eq in Hq|].
           rewrite lookup_delete_ne in Hq by done.
           destruct (Hdepth j q u Hj Hq) as (Hle & Hbefore).
           split; [done|]. intros Hlt'. apply Hbefore. lia.
        -- (* one frame less *)
           cbn [_tasks task_heap] in Hj, Hq.
           destruct (decide (q = p)) as [->|Hqp].
           ++ rewrite lookup_insert_eq in Hq. injection Hq as <-.
              cbn [callstack stack_items]. split; lia.
           ++ rewrite lookup_insert_ne in Hq by done.
              destruct (Hdepth j q u Hj Hq) as (Hle & Hbefore).
              split; [done|]. intros Hlt'. apply Hbefore.
              destruct (decide (j = i)) as [->|Hji]; [congruence|lia].
      * lia.
      * rewrite Hsw. cbn [mbind result_bind]. by eexists _, _.
    + cbn [mbind result_bind].
      destruct (IH (S i) rt Hinv) as (rt2 & log & Hsw & Hinv2 & Hd2).
      * intros j q u Hj Hq. destruct (Hdepth j q u Hj Hq) as (Hle & Hbefore).
        split; [done|]. intros Hlt'. apply Hbefore.
        destruct (decide (j = i)) as [->|Hji]; [congruence|lia].
      * lia.
      * rewrite Hsw. cbn [mbind result_bind]. by eexists _, _.
Qed.

Lemma forever_finishes (d : nat) :
  ∀ rt,
    runtime_inv rt →
    depth_le d rt →
    ∃ rt' logs,
      caio_forever run_coro (S d) rt = Ok (rt', EXIT_SUCCESS, logs)
      ∧ (length logs ≤ d)%nat
      ∧ runtime_inv rt'
      ∧ arr_count (_tasks rt') = 0.
Proof.
  induction d as [|d IH]; intros rt Hinv Hdepth.
  - assert (Hempty : arr_count (_tasks rt) = 0).
    { pose proof Hinv as (Htab & _ & Hrun & _).
      apply no_live_task_iff; [done|]. intros i.
      destruct (caiotask_array_get (_tasks rt) i) as [p|] eqn:Hget; [|done].
      destruct Htab as (Hreg & _). destruct (Hreg i p Hget) as (t & Ht & _).
      pose proof (Hdepth i p t Hget Ht) as Hle.
      pose proof (Hrun i p t Hget Ht) as Hne.
      destruct (stack_items (callstack t)); [done|]. simpl in Hle. lia. }
    simpl. rewrite Hempty. simpl. by exists rt, [].
  - change (caio_forever run_coro (S (S d)) rt)
      with (if arr_count (_tasks rt) =? 0
            then Ok (rt, EXIT_SUCCESS, [])
            else '(rt1, log) ← sweep run_coro (arr_size (_tasks rt)) 0 rt;
                 '(rt2, r, logs) ← caio_forever run_coro (S d) rt1;
                 Ok (rt2, r, log :: logs)).
    destruct (Z.eqb_spec (arr_count (_tasks rt)) 0) as [Hz|Hnz].
    + exists rt, []. split; [done|]. split; [simpl; lia|done].
    + destruct (sweep_progress d (arr_size (_tasks rt)) 0 rt Hinv)
        as (rt1 & log & Hsw & Hinv1 & Hd1).
      * intros j p t Hj Hp. split; [by eapply Hdepth|lia].
      * lia.
      * destruct (IH rt1 Hinv1 Hd1) as (rt2 & logs & Hf & Hlen & Hinv2 & Hz2).
        rewrite Hsw. cbn [mbind result_bind]. rewrite Hf.
        cbn [mbind result_bind]. exists rt2, (log :: logs).
        split; [done|]. split; [simpl; lia|done].
Qed.

End Termination.

Section TerminationTheorem.
Import Runtime.



End TerminationTheorem.
